(** * Metrics and emotion-inference engine of Job-Preparation

    A shallow embedding of the text-analysis core of the repository:

    - the ML metrics ([tokenize], [generateNGrams],
      [calculatePrecisionRecallF1], [lcsLength], [calculateROUGE],
      [calculatePerplexity], [calculateUnigramPerplexity],
      [calculatePerplexityFromLogProbs]);
    - the feature-based aggregator [analyzeEmotions]
      (src/services/ai/emotion-analysis.ts);
    - the text-based aggregator [analyzeTextEmotions] with its keyword
      extractor [extractEmotions].

    Conventions of the embedding.

    - A JavaScript string is a [string] whose characters are code units in
      the range U+0000..U+00FF; text outside that range is not represented.
    - A JavaScript number is an exact number extended with the IEEE special
      values [NaN], [+Infinity] and [-Infinity]: rationals ([JSNum]) where the
      code only adds, multiplies, divides and compares, reals ([JSReal]) where
      it calls [Math.log] and [Math.exp].  Binary64 rounding and the sign of
      zero are abstracted away.  The operations of [JSNum] and [JSReal] are
      exact and never overflow: they stand for the code where its values are
      bounded (counts, ratios of counts, logarithms of such ratios, features
      in [[0, 1]]), and a statement over unbounded numbers carries the range
      it needs as a hypothesis.  [calculatePerplexityFromLogProbs] takes
      arbitrary numbers; it is written with the operations of [JSDouble],
      where a result too large for a double is an infinity.
    - [Set] and [Map] are insertion-ordered, as in JavaScript: a list without
      duplicates and an association list. *)

From Stdlib Require Import List Bool Arith ZArith QArith Qminmax Qabs.
From Stdlib Require Import Ascii String.
From Stdlib Require Import Reals Lia Psatz.
Import ListNotations.

Close Scope Q_scope.
Close Scope R_scope.
Open Scope nat_scope.

Set Implicit Arguments.

(* ------------------------------------------------------------------ *)
(** ** JavaScript strings *)

Module JSString.

Local Open Scope N_scope.

Definition code (c : ascii) : N := N_of_ascii c.

Definition between (lo hi n : N) : bool := (lo <=? n) && (n <=? hi).

(** [\w] of a regular expression without the [u] flag: [[A-Za-z0-9_]]. *)
Definition is_word (c : ascii) : bool :=
  let n := code c in
  between 65 90 n || between 97 122 n || between 48 57 n || (n =? 95).

(** [\s], which is also what [trim] strips: TAB, LF, VT, FF, CR, SPACE and
    NBSP are the white space and line terminators below U+0100. *)
Definition is_space (c : ascii) : bool :=
  let n := code c in
  between 9 13 n || (n =? 32) || (n =? 160).

(** [String.prototype.toLowerCase] on one code unit: A-Z and the Latin-1
    capitals U+00C0..U+00DE (without the multiplication sign U+00D7). *)
Definition lower_char (c : ascii) : ascii :=
  let n := code c in
  if between 65 90 n || (between 192 222 n && negb (n =? 215))
  then ascii_of_N (n + 32)
  else c.

Local Close Scope N_scope.

Fixpoint map_string (f : ascii -> ascii) (s : string) : string :=
  match s with
  | EmptyString => EmptyString
  | String c s' => String (f c) (map_string f s')
  end.

Definition toLowerCase (s : string) : string := map_string lower_char s.

Fixpoint string_rev_onto (s acc : string) : string :=
  match s with
  | EmptyString => acc
  | String c s' => string_rev_onto s' (String c acc)
  end.

Definition string_rev (s : string) : string := string_rev_onto s EmptyString.

Fixpoint trimStart (s : string) : string :=
  match s with
  | EmptyString => EmptyString
  | String c s' => if is_space c then trimStart s' else s
  end.

Definition trimEnd (s : string) : string :=
  string_rev (trimStart (string_rev s)).

Definition trim (s : string) : string := trimEnd (trimStart s).

Fixpoint all_chars (p : ascii -> bool) (s : string) : bool :=
  match s with
  | EmptyString => true
  | String c s' => p c && all_chars p s'
  end.

(** [Array.prototype.join]. *)
Fixpoint join (sep : string) (l : list string) : string :=
  match l with
  | [] => EmptyString
  | [x] => x
  | x :: rest => String.append x (String.append sep (join sep rest))
  end.

(** [Array.prototype.slice(start, end)] with its treatment of negative
    and out-of-range indices. *)
Definition clamp_index (len k : Z) : Z :=
  if (k <? 0)%Z then Z.max (len + k) 0 else Z.min k len.

Definition slice {A : Type} (l : list A) (start stop : Z) : list A :=
  let len := Z.of_nat (List.length l) in
  let from := clamp_index len start in
  let upto := clamp_index len stop in
  firstn (Z.to_nat (upto - from)) (skipn (Z.to_nat from) l).

(** The indices visited by [for (let i = 0; i <= bound; i++)]. *)
Definition loop_upto (bound : Z) : list Z :=
  map Z.of_nat (seq 0 (Z.to_nat (bound + 1))).

End JSString.

(* ------------------------------------------------------------------ *)
(** ** JavaScript numbers over the rationals *)

Module JSNum.

Inductive number : Type :=
| Fin (q : Q)
| PosInf
| NegInf
| NaN.

Definition of_nat (n : nat) : number := Fin (inject_Z (Z.of_nat n)).
Definition zero : number := Fin 0.
Definition one : number := Fin 1.

Definition Qis_zero (q : Q) : bool := Qeq_bool q 0.
Definition Qis_pos (q : Q) : bool := negb (Qle_bool q 0).
Definition Qis_neg (q : Q) : bool := negb (Qle_bool 0 q).

Definition neg (a : number) : number :=
  match a with
  | Fin q => Fin (- q)
  | PosInf => NegInf
  | NegInf => PosInf
  | NaN => NaN
  end.

Definition add (a b : number) : number :=
  match a, b with
  | NaN, _ | _, NaN => NaN
  | Fin x, Fin y => Fin (x + y)
  | PosInf, NegInf | NegInf, PosInf => NaN
  | PosInf, _ | _, PosInf => PosInf
  | NegInf, _ | _, NegInf => NegInf
  end.

Definition sub (a b : number) : number := add a (neg b).

(** Sign of a number: [Some true] positive, [Some false] negative,
    [None] zero or [NaN]. *)
Definition sign (a : number) : option bool :=
  match a with
  | Fin q => if Qis_pos q then Some true
             else if Qis_neg q then Some false else None
  | PosInf => Some true
  | NegInf => Some false
  | NaN => None
  end.

Definition signed_inf (positive : bool) : number :=
  if positive then PosInf else NegInf.

Definition mul (a b : number) : number :=
  match a, b with
  | NaN, _ | _, NaN => NaN
  | Fin x, Fin y => Fin (x * y)
  | _, _ =>
      match sign a, sign b with
      | Some sa, Some sb => signed_inf (Bool.eqb sa sb)
      | _, _ => NaN
      end
  end.

Definition div (a b : number) : number :=
  match a, b with
  | NaN, _ | _, NaN => NaN
  | Fin x, Fin y =>
      if Qis_zero y
      then match sign a with
           | Some s => signed_inf s
           | None => NaN
           end
      else Fin (x / y)
  | Fin _, _ => Fin 0
  | _, Fin y => signed_inf (Bool.eqb (Qis_neg y)
                                     (match a with NegInf => true | _ => false end))
  | _, _ => NaN
  end.

(** Comparisons: every comparison with [NaN] is false. *)
Definition lt (a b : number) : bool :=
  match a, b with
  | NaN, _ | _, NaN => false
  | Fin x, Fin y => negb (Qle_bool y x)
  | NegInf, NegInf | PosInf, _ => false
  | NegInf, _ | _, PosInf => true
  | _, NegInf => false
  end.

Definition le (a b : number) : bool :=
  match a, b with
  | NaN, _ | _, NaN => false
  | Fin x, Fin y => Qle_bool x y
  | NegInf, _ | _, PosInf => true
  | _, _ => false
  end.

Definition gt (a b : number) : bool := lt b a.
Definition ge (a b : number) : bool := le b a.

(** [Math.min], [Math.max], [Math.abs], [Math.pow(x, 2)]. *)
Definition min (a b : number) : number :=
  match a, b with
  | NaN, _ | _, NaN => NaN
  | _, _ => if le a b then a else b
  end.

Definition max (a b : number) : number :=
  match a, b with
  | NaN, _ | _, NaN => NaN
  | _, _ => if le a b then b else a
  end.

Definition abs (a : number) : number :=
  match a with
  | Fin q => Fin (Qabs q)
  | PosInf | NegInf => PosInf
  | NaN => NaN
  end.

Definition square (a : number) : number := mul a a.

Definition isFinite (a : number) : bool :=
  match a with Fin _ => true | _ => false end.

(** Truthiness of a number: [0] and [NaN] are falsy. *)
Definition truthy (a : number) : bool :=
  match a with
  | Fin q => negb (Qis_zero q)
  | PosInf | NegInf => true
  | NaN => false
  end.

(** [arr.reduce((a, b) => a + b, 0)]. *)
Definition sum (l : list number) : number := fold_left add l zero.

(** Numeric equality of two numbers (no [NaN] is equal to anything). *)
Definition eqv (a b : number) : Prop :=
  match a, b with
  | Fin x, Fin y => (x == y)%Q
  | PosInf, PosInf | NegInf, NegInf => True
  | _, _ => False
  end.

(** A finite number of the closed unit interval. *)
Definition in_unit (a : number) : Prop :=
  match a with
  | Fin q => (0 <= q /\ q <= 1)%Q
  | _ => False
  end.

Declare Scope jsnum_scope.
Delimit Scope jsnum_scope with js.
Bind Scope jsnum_scope with number.
Infix "+" := add : jsnum_scope.
Infix "-" := sub : jsnum_scope.
Infix "*" := mul : jsnum_scope.
Infix "/" := div : jsnum_scope.
Infix "<?" := lt : jsnum_scope.
Infix "<=?" := le : jsnum_scope.
Infix ">?" := gt : jsnum_scope.
Infix ">=?" := ge : jsnum_scope.

End JSNum.

(* ------------------------------------------------------------------ *)
(** ** Insertion-ordered [Set] and [Map] keyed by strings *)

Module JSSet.

Definition t := list string.

Definition has (s : t) (x : string) : bool := existsb (String.eqb x) s.

Definition add (s : t) (x : string) : t := if has s x then s else s ++ [x].

(** [new Set(items)]. *)
Definition of_list (items : list string) : t := fold_left add items [].

Definition size (s : t) : nat := List.length s.

End JSSet.

Module JSMap.

Definition t (V : Type) := list (string * V).

Fixpoint get {V} (m : t V) (k : string) : option V :=
  match m with
  | [] => None
  | (k', v) :: rest => if String.eqb k k' then Some v else get rest k
  end.

(** [m.set(k, v)]: an existing key keeps its position. *)
Fixpoint set {V} (m : t V) (k : string) (v : V) : t V :=
  match m with
  | [] => [(k, v)]
  | (k', v') :: rest =>
      if String.eqb k k' then (k', v) :: rest else (k', v') :: set rest k v
  end.

Definition size {V} (m : t V) : nat := List.length m.

(** [(m.get(k) || 0)] for a map of counts. *)
Definition get_count (m : t nat) (k : string) : nat :=
  match get m k with Some n => n | None => 0 end.

(** [m.set(k, (m.get(k) || 0) + 1)]. *)
Definition incr (m : t nat) (k : string) : t nat := set m k (get_count m k + 1).

End JSMap.

(* ------------------------------------------------------------------ *)
(** ** ROUGE *)

Module Rouge.

Import JSString JSNum.
Local Open Scope string_scope.

Record PRF : Type := mkPRF { precision : number; recall : number; f1 : number }.

Record ROUGEScores : Type :=
  mkROUGE { rouge1 : PRF; rouge2 : PRF; rougeL : PRF }.

Definition zeroPRF : PRF := mkPRF zero zero zero.

(** [.replace(/[^\w\s]/g, ' ')]. *)
Definition replace_punct (c : ascii) : ascii :=
  if is_word c || is_space c then c else " "%char.

(** [.split(/\s+/)]: the pieces between the maximal runs of white space;
    [cur] is the piece being read, [in_sep] tells that the previous
    character belonged to a separator. *)
Fixpoint split_ws_aux (s cur : string) (in_sep : bool) : list string :=
  match s with
  | EmptyString => [cur]
  | String c s' =>
      if is_space c
      then if in_sep then split_ws_aux s' EmptyString true
           else cur :: split_ws_aux s' EmptyString true
      else split_ws_aux s' (cur ++ String c EmptyString) false
  end.

Definition split_ws (s : string) : list string :=
  split_ws_aux s EmptyString false.

Definition tokenize (text : string) : list string :=
  filter (fun word => (0 <? String.length word)%nat)
         (split_ws (map_string replace_punct (toLowerCase text))).

Definition generateNGrams (tokens : list string) (n : Z) : list string :=
  map (fun i => join " " (slice tokens i (i + n)%Z))
      (loop_upto (Z.of_nat (List.length tokens) - n)).

(** The loop [for (const ngram of candidateSet) if (referenceSet.has(ngram)) matches++]. *)
Definition count_matches (candidateSet referenceSet : JSSet.t) : nat :=
  fold_left (fun matches ngram =>
               if JSSet.has referenceSet ngram then S matches else matches)
            candidateSet 0%nat.

(** The harmonic mean as the code writes it, with its guard. *)
Definition f1_of (p r : number) : number :=
  if (p + r >? zero)%js then ((Fin 2 * p * r) / (p + r))%js else zero.

Definition calculatePrecisionRecallF1
           (candidateNGrams referenceNGrams : list string) : PRF :=
  if (List.length referenceNGrams =? 0)%nat then zeroPRF
  else
    let candidateSet := JSSet.of_list candidateNGrams in
    let referenceSet := JSSet.of_list referenceNGrams in
    let matches := count_matches candidateSet referenceSet in
    let p := if (0 <? JSSet.size candidateSet)%nat
             then (of_nat matches / of_nat (JSSet.size candidateSet))%js
             else zero in
    let r := (of_nat matches / of_nat (JSSet.size referenceSet))%js in
    mkPRF p r (f1_of p r).

(** *** The LCS table *)

Definition table := list (list nat).

(** [dp[i][j]]; [lcsLength] only reads cells of the table it allocated. *)
Definition cell (dp : table) (i j : nat) : nat := nth j (nth i dp []) 0%nat.

(** [l[k] = v] for an index within the array; [lcsLength] never writes
    outside (JavaScript would extend the array there, this function leaves
    the list as it is). *)
Fixpoint update {A} (l : list A) (k : nat) (v : A) : list A :=
  match l, k with
  | [], _ => []
  | _ :: rest, O => v :: rest
  | x :: rest, S k' => x :: update rest k' v
  end.

(** [dp[i][j] = v]. *)
Definition set_cell (dp : table) (i j v : nat) : table :=
  update dp i (update (nth i dp []) j v).

(** [Array(m + 1).fill(null).map(() => Array(n + 1).fill(0))]. *)
Definition init_table (m n : nat) : table := repeat (repeat 0%nat (S n)) (S m).

(** The body of the inner loop; [i - 1] and [j - 1] are within the two
    sequences for the indices the loops visit. *)
Definition lcs_cell (seq1 seq2 : list string) (dp : table) (i j : nat) : table :=
  if String.eqb (nth (i - 1) seq1 "") (nth (j - 1) seq2 "")
  then set_cell dp i j (cell dp (i - 1) (j - 1) + 1)
  else set_cell dp i j (Nat.max (cell dp (i - 1) j) (cell dp i (j - 1))).

Definition lcs_row (seq1 seq2 : list string) (dp : table) (i : nat) : table :=
  fold_left (fun dp j => lcs_cell seq1 seq2 dp i j)
            (seq 1 (List.length seq2)) dp.

Definition lcs_table (seq1 seq2 : list string) : table :=
  fold_left (lcs_row seq1 seq2) (seq 1 (List.length seq1))
            (init_table (List.length seq1) (List.length seq2)).

Definition lcsLength (seq1 seq2 : list string) : nat :=
  cell (lcs_table seq1 seq2) (List.length seq1) (List.length seq2).

(** *** The aggregator *)

(** [string | string[]]. *)
Inductive references : Type :=
| OneReference (r : string)
| ManyReferences (rs : list string).

Definition as_array (r : references) : list string :=
  match r with
  | OneReference s => [s]
  | ManyReferences rs => rs
  end.

Definition rougeL_of (candidateTokens refTokens : list string) : PRF :=
  let lcsLen := lcsLength candidateTokens refTokens in
  let p := if (0 <? List.length candidateTokens)%nat
           then (of_nat lcsLen / of_nat (List.length candidateTokens))%js
           else zero in
  let r := if (0 <? List.length refTokens)%nat
           then (of_nat lcsLen / of_nat (List.length refTokens))%js
           else zero in
  mkPRF p r (f1_of p r).

Definition better (score best : PRF) : PRF :=
  if (f1 score >? f1 best)%js then score else best.

(** One iteration of [for (const reference of refs)]. *)
Definition rouge_step (candidateTokens candidateUnigrams candidateBigrams : list string)
           (best : ROUGEScores) (reference : string) : ROUGEScores :=
  let refTokens := tokenize reference in
  let refUnigrams := generateNGrams refTokens 1 in
  let refBigrams := generateNGrams refTokens 2 in
  mkROUGE
    (better (calculatePrecisionRecallF1 candidateUnigrams refUnigrams) (rouge1 best))
    (better (calculatePrecisionRecallF1 candidateBigrams refBigrams) (rouge2 best))
    (better (rougeL_of candidateTokens refTokens) (rougeL best)).

Definition calculateROUGE (candidate : string) (refs : references) : ROUGEScores :=
  let refs := as_array refs in
  if (List.length refs =? 0)%nat || (String.length (trim candidate) =? 0)%nat
  then mkROUGE zeroPRF zeroPRF zeroPRF
  else
    let candidateTokens := tokenize candidate in
    let candidateUnigrams := generateNGrams candidateTokens 1 in
    let candidateBigrams := generateNGrams candidateTokens 2 in
    fold_left (rouge_step candidateTokens candidateUnigrams candidateBigrams)
              refs (mkROUGE zeroPRF zeroPRF zeroPRF).

End Rouge.

(* ------------------------------------------------------------------ *)
(** ** JavaScript numbers over the reals, with [Math.log] and [Math.exp] *)

Module JSReal.

Inductive number : Type :=
| Fin (r : R)
| PosInf
| NegInf
| NaN.

Definition of_nat (n : nat) : number := Fin (INR n).
Definition zero : number := Fin 0%R.

Definition neg (a : number) : number :=
  match a with
  | Fin r => Fin (- r)%R
  | PosInf => NegInf
  | NegInf => PosInf
  | NaN => NaN
  end.

Definition add (a b : number) : number :=
  match a, b with
  | NaN, _ | _, NaN => NaN
  | Fin x, Fin y => Fin (x + y)%R
  | PosInf, NegInf | NegInf, PosInf => NaN
  | PosInf, _ | _, PosInf => PosInf
  | NegInf, _ | _, NegInf => NegInf
  end.

Definition signed_inf (positive : bool) : number :=
  if positive then PosInf else NegInf.

Definition is_negative (r : R) : bool :=
  if Rlt_dec r 0 then true else false.

Definition div (a b : number) : number :=
  match a, b with
  | NaN, _ | _, NaN => NaN
  | Fin x, Fin y =>
      if Req_dec_T y 0
      then if Req_dec_T x 0 then NaN else signed_inf (negb (is_negative x))
      else Fin (x / y)%R
  | Fin _, _ => Fin 0%R
  | _, Fin y => signed_inf (Bool.eqb (is_negative y)
                                     (match a with NegInf => true | _ => false end))
  | _, _ => NaN
  end.

(** [Math.log]: [-Infinity] at 0, [NaN] below. *)
Definition log (a : number) : number :=
  match a with
  | Fin r => if Req_dec_T r 0 then NegInf
             else if Rlt_dec r 0 then NaN else Fin (ln r)
  | PosInf => PosInf
  | NegInf | NaN => NaN
  end.

(** [Math.exp]. *)
Definition exp (a : number) : number :=
  match a with
  | Fin r => Fin (Rtrigo_def.exp r)
  | PosInf => PosInf
  | NegInf => Fin 0%R
  | NaN => NaN
  end.

Definition isFinite (a : number) : bool :=
  match a with Fin _ => true | _ => false end.

(** [arr.reduce((sum, p) => sum + p, 0)]. *)
Definition sum (l : list number) : number := fold_left add l zero.

End JSReal.

(* ------------------------------------------------------------------ *)
(** ** Numbers over the reals with overflow

    The operations of [JSReal] followed by the overflow of binary64: a
    result whose exact value is [2^1024 - 2^970] or more in magnitude, half
    a unit in the last place above [Number.MAX_VALUE], rounds to
    [+Infinity] or [-Infinity].  The rounding of the results below that,
    and so the underflow of a tiny result to 0, is not modelled. *)

Module JSDouble.

Import JSReal.


(** The least magnitude that rounds to an infinity. *)
Definition overflow_threshold : R := IZR (2 ^ 1024 - 2 ^ 970).

Definition overflow (a : number) : number :=
  match a with
  | Fin r =>
      if Rle_dec overflow_threshold r then PosInf
      else if Rle_dec r (- overflow_threshold) then NegInf
      else Fin r
  | _ => a
  end.

Definition add (a b : number) : number := overflow (JSReal.add a b).

Definition div (a b : number) : number := overflow (JSReal.div a b).

Definition exp (a : number) : number := overflow (JSReal.exp a).

(** [arr.reduce((sum, p) => sum + p, 0)]. *)
Definition sum (l : list number) : number := fold_left add l zero.

End JSDouble.

(* ------------------------------------------------------------------ *)
(** ** Perplexity *)

Module Perplexity.

Import JSString JSReal.
Local Open Scope string_scope.

Record PerplexityResult : Type :=
  mkPerplexity { perplexity : number;
                 averageLogProbability : number;
                 tokenCount : nat }.

Definition degenerate (count : nat) : PerplexityResult :=
  mkPerplexity PosInf NegInf count.

(** The object literal every non-degenerate path returns. *)
Definition finish (perplexity averageLogProbability : number) (count : nat)
  : PerplexityResult :=
  mkPerplexity (if isFinite perplexity then perplexity else PosInf)
               (if isFinite averageLogProbability
                then averageLogProbability else NegInf)
               count.

Definition calculateUnigramPerplexity (tokens : list string) : PerplexityResult :=
  if (List.length tokens =? 0)%nat then degenerate 0
  else
    let wordCounts := fold_left JSMap.incr tokens [] in
    let vocabularySize := JSMap.size wordCounts in
    let totalLogProb :=
      fold_left
        (fun total token =>
           let count := JSMap.get_count wordCounts token in
           let prob := div (of_nat (count + 1))
                           (of_nat (List.length tokens + vocabularySize + 1)) in
           add total (log prob))
        tokens zero in
    let averageLogProbability := div totalLogProb (of_nat (List.length tokens)) in
    let perplexity := exp (neg averageLogProbability) in
    finish perplexity averageLogProbability (List.length tokens).

Definition ngram_at (tokens : list string) (ngramOrder i : Z) : string :=
  join " " (slice tokens i (i + ngramOrder)%Z).

Definition context_at (tokens : list string) (ngramOrder i : Z) : string :=
  join " " (slice tokens i (i + ngramOrder - 1)%Z).

(** The first loop: the n-gram model of the text. *)
Definition build_model (tokens : list string) (ngramOrder : Z)
  : JSMap.t nat * JSMap.t nat :=
  fold_left
    (fun '(ngramCounts, contextCounts) i =>
       (JSMap.incr ngramCounts (ngram_at tokens ngramOrder i),
        JSMap.incr contextCounts (context_at tokens ngramOrder i)))
    (loop_upto (Z.of_nat (List.length tokens) - ngramOrder))
    ([], []).

(** The second loop: [(totalLogProb, validNGrams)]. *)
Definition score_model (tokens : list string) (ngramOrder : Z)
           (ngramCounts contextCounts : JSMap.t nat) : number * nat :=
  fold_left
    (fun '(totalLogProb, validNGrams) i =>
       let ngramCount := JSMap.get_count ngramCounts (ngram_at tokens ngramOrder i) in
       let contextCount :=
         JSMap.get_count contextCounts (context_at tokens ngramOrder i) in
       let vocabularySize := JSMap.size ngramCounts in
       let prob := div (of_nat (ngramCount + 1))
                       (of_nat (contextCount + vocabularySize + 1)) in
       (add totalLogProb (log prob), S validNGrams))
    (loop_upto (Z.of_nat (List.length tokens) - ngramOrder))
    (zero, 0%nat).

Definition calculatePerplexity (text : string) (ngramOrder : Z) : PerplexityResult :=
  if (String.length (trim text) =? 0)%nat then degenerate 0
  else
    let tokens := Rouge.tokenize text in
    if (Z.of_nat (List.length tokens) <? ngramOrder)%Z
    then calculateUnigramPerplexity tokens
    else
      let '(ngramCounts, contextCounts) := build_model tokens ngramOrder in
      let '(totalLogProb, validNGrams) :=
        score_model tokens ngramOrder ngramCounts contextCounts in
      let averageLogProbability :=
        if (0 <? validNGrams)%nat
        then div totalLogProb (of_nat validNGrams) else NegInf in
      let perplexity := exp (neg averageLogProbability) in
      finish perplexity averageLogProbability (List.length tokens).

(** [ngramOrder = 3] is the default argument. *)
Definition calculatePerplexity_default (text : string) : PerplexityResult :=
  calculatePerplexity text 3.

(** The log-probabilities are arbitrary numbers: the sum and [Math.exp]
    may overflow, which the two [isFinite] tests of the result are there
    for. *)
Definition calculatePerplexityFromLogProbs (logProbabilities : list number)
  : PerplexityResult :=
  if (List.length logProbabilities =? 0)%nat then degenerate 0
  else
    let validProbs := filter isFinite logProbabilities in
    if (List.length validProbs =? 0)%nat
    then degenerate (List.length logProbabilities)
    else
      let averageLogProbability :=
        JSDouble.div (JSDouble.sum validProbs) (of_nat (List.length validProbs)) in
      let perplexity := JSDouble.exp (neg averageLogProbability) in
      finish perplexity averageLogProbability (List.length logProbabilities).

End Perplexity.

(* ------------------------------------------------------------------ *)
(** ** Emotion analysis: the data model *)

Module EmotionModel.

Import JSNum.

(** [interface EmotionFeatures { [key: string]: number }]: an object whose
    properties are kept in creation order. *)
Definition EmotionFeatures := JSMap.t number.

Inductive Speaker : Type := interviewee | interviewer.

Definition is_interviewee (s : Speaker) : bool :=
  match s with interviewee => true | interviewer => false end.

Inductive EmotionalState : Type :=
| confident | nervous | calm | engaged | uncertain.

Record DominantEmotion : Type :=
  mkDominant { emotion : string;
               averageIntensity : number;
               occurrenceCount : nat }.

Record Trends : Type :=
  mkTrends { improving : bool; declining : bool; stable : bool }.

Record BreakdownEntry : Type :=
  mkEntry { messageIndex : nat;
            entryText : string;
            emotions : EmotionFeatures;
            confidenceScore : number;
            emotionalState : EmotionalState }.

(** [EmotionAnalysisResult] and [TextEmotionAnalysisResult] declare the
    same fields. *)
Record AnalysisResult : Type :=
  mkResult { overallConfidence : number;
             averageCalmness : number;
             emotionalStability : number;
             dominantEmotions : list DominantEmotion;
             emotionalTrends : Trends;
             insights : list string;
             recommendations : list string;
             detailedBreakdown : list BreakdownEntry }.

(** [a ?? d]. *)
Definition nullish {A} (a : option A) (d : A) : A :=
  match a with Some v => v | None => d end.

(** [a || d] on an optional number. *)
Definition or_default (a : option number) (d : number) : number :=
  match a with
  | Some v => if truthy v then v else d
  | None => d
  end.

End EmotionModel.

(* ------------------------------------------------------------------ *)
(** ** The statistics shared by [analyzeEmotions] and [analyzeTextEmotions]

    From "Calculate overall metrics" to the returned object the two functions
    are the same text, save for the test that selects ['engaged']; that test
    is the parameter [engaged_test]. *)

Module Aggregate.

Import JSNum EmotionModel.
Local Open Scope string_scope.

Definition confidence_of (e : EmotionFeatures) : number :=
  nullish (JSMap.get e "confidence") zero.

Definition calmness_of (e : EmotionFeatures) : number :=
  nullish (JSMap.get e "calmness") zero.

Definition nervousness_of (e : EmotionFeatures) : number :=
  nullish (JSMap.get e "nervousness") (nullish (JSMap.get e "anxiety") zero).

(** [scores.reduce((a, b) => a + b, 0) / scores.length]. *)
Definition average (scores : list number) : number :=
  (sum scores / of_nat (List.length scores))%js.

Definition variance_of (scores : list number) (meanConfidence : number) : number :=
  (fold_left (fun sum score => sum + square (score - meanConfidence))%js
             scores zero
   / of_nat (List.length scores))%js.

Definition stability_of (variance : number) : number :=
  (one - min (variance * Fin 4) one)%js.

(** One pass of the inner [forEach] over [Object.entries]. *)
Definition tally (emotionMap : JSMap.t (number * nat))
           (entry : string * number) : JSMap.t (number * nat) :=
  let '(emotion, intensity) := entry in
  let emotionMap :=
    match JSMap.get emotionMap emotion with
    | Some _ => emotionMap
    | None => JSMap.set emotionMap emotion (zero, 0)
    end in
  match JSMap.get emotionMap emotion with
  | Some (total, count) =>
      JSMap.set emotionMap emotion ((total + intensity)%js, count + 1)
  | None => emotionMap
  end.

Definition tally_all (features : list EmotionFeatures) : JSMap.t (number * nat) :=
  fold_left (fun emotionMap e => fold_left tally e emotionMap) features [].

(** [.sort((a, b) => b.averageIntensity - a.averageIntensity)]: the sort is
    stable; [a] is moved behind [b] only when the comparator is positive. *)
Definition comparator (a b : DominantEmotion) : number :=
  (averageIntensity b - averageIntensity a)%js.

Fixpoint insert_sorted (x : DominantEmotion) (sorted : list DominantEmotion)
  : list DominantEmotion :=
  match sorted with
  | [] => [x]
  | y :: rest =>
      if (comparator y x <? zero)%js then y :: insert_sorted x rest
      else x :: sorted
  end.

Definition sort_by_intensity (l : list DominantEmotion) : list DominantEmotion :=
  fold_right insert_sorted [] l.

Definition dominant_of (features : list EmotionFeatures) : list DominantEmotion :=
  firstn 5
    (sort_by_intensity
       (map (fun '(emotion, (total, count)) =>
               mkDominant emotion (total / of_nat count)%js count)
            (tally_all features))).

(** "Analyze trends". *)
Definition trend_diff (confidenceScores : list number) : number :=
  let half := List.length confidenceScores / 2 in
  let firstHalf := firstn half confidenceScores in
  let secondHalf := skipn half confidenceScores in
  (average secondHalf - average firstHalf)%js.

Definition trends_of (trendDiff : number) : Trends :=
  mkTrends (trendDiff >? Fin 0.1)%js
           (trendDiff <? Fin (-0.1))%js
           (abs trendDiff <=? Fin 0.1)%js.

Definition insights_of (overallConfidence averageCalmness emotionalStability : number)
           (trends : Trends) : list string :=
  (if (overallConfidence >=? Fin 0.7)%js
   then ["High confidence level detected throughout the interview"]
   else if (overallConfidence >=? Fin 0.5)%js
        then ["Moderate confidence level with room for improvement"]
        else ["Low confidence detected - candidate may need more preparation"])
  ++ (if (averageCalmness >=? Fin 0.7)%js
      then ["Candidate maintained good composure during the interview"]
      else if (averageCalmness <? Fin 0.5)%js
           then ["Signs of nervousness or stress detected"]
           else [])
  ++ (if (emotionalStability >=? Fin 0.7)%js
      then ["Emotional state remained stable throughout"]
      else ["Significant emotional fluctuations observed"])
  ++ (if improving trends
      then ["Confidence improved as the interview progressed"]
      else if declining trends
           then ["Confidence decreased during the interview"]
           else []).

Definition recommendations_of
           (overallConfidence averageCalmness emotionalStability : number)
           (trends : Trends) : list string :=
  (if (overallConfidence <? Fin 0.6)%js
   then ["Practice more to build confidence in answering questions"] else [])
  ++ (if (averageCalmness <? Fin 0.6)%js
      then ["Work on stress management and relaxation techniques"] else [])
  ++ (if (emotionalStability <? Fin 0.6)%js
      then ["Focus on maintaining consistent emotional state"] else [])
  ++ (if declining trends
      then ["Prepare for longer interviews to maintain energy and confidence"]
      else []).

Section WithEngagedTest.

Variable engaged_test : EmotionFeatures -> bool.

Definition classify (e : EmotionFeatures) : EmotionalState :=
  let confidence := confidence_of e in
  let calmness := calmness_of e in
  let nervousness := nervousness_of e in
  if (confidence >=? Fin 0.7)%js && (nervousness <? Fin 0.3)%js then confident
  else if (nervousness >=? Fin 0.5)%js || (confidence <? Fin 0.4)%js then nervous
  else if (calmness >=? Fin 0.7)%js then calm
  else if engaged_test e then engaged
  else uncertain.

(** [m.text.substring(0, 100) + (m.text.length > 100 ? '...' : '')]. *)
Definition excerpt (text : string) : string :=
  String.substring 0 100 text
  ++ (if 100 <? String.length text then "..." else "")%nat.

Definition breakdown_entry (index : nat) (m : string * EmotionFeatures)
  : BreakdownEntry :=
  mkEntry (index + 1) (excerpt (fst m)) (snd m)
          (confidence_of (snd m)) (classify (snd m)).

(** [messages.map((m, index) => ...)]. *)
Fixpoint map_indexed {A B} (f : nat -> A -> B) (index : nat) (l : list A) : list B :=
  match l with
  | [] => []
  | x :: rest => f index x :: map_indexed f (S index) rest
  end.

(** Everything after the early return, for the qualifying messages given
    as pairs of a text and its emotion features. *)
Definition aggregate (messages : list (string * EmotionFeatures)) : AnalysisResult :=
  let confidenceScores := map (fun m => confidence_of (snd m)) messages in
  let calmnessScores := map (fun m => calmness_of (snd m)) messages in
  let overallConfidence := average confidenceScores in
  let averageCalmness := average calmnessScores in
  let variance := variance_of confidenceScores overallConfidence in
  let emotionalStability := stability_of variance in
  let dominantEmotions := dominant_of (map snd messages) in
  let emotionalTrends := trends_of (trend_diff confidenceScores) in
  mkResult overallConfidence averageCalmness emotionalStability
           dominantEmotions emotionalTrends
           (insights_of overallConfidence averageCalmness emotionalStability
                        emotionalTrends)
           (recommendations_of overallConfidence averageCalmness
                               emotionalStability emotionalTrends)
           (map_indexed breakdown_entry 0 messages).

End WithEngagedTest.

(** The object returned when no message qualifies. *)
Definition empty_result (insight recommendation : string) : AnalysisResult :=
  mkResult zero zero zero [] (mkTrends false false true)
           [insight] [recommendation] [].

End Aggregate.

(* ------------------------------------------------------------------ *)
(** ** [analyzeEmotions] (src/services/ai/emotion-analysis.ts) *)

Module Emotion.

Import JSNum EmotionModel Aggregate.
Local Open Scope string_scope.

Record TranscriptMessage : Type :=
  mkMessage { speaker : Speaker;
              text : string;
              emotionFeatures : option EmotionFeatures }.

(** [m.speaker === 'interviewee' && m.emotionFeatures]: an object, empty or
    not, is truthy; only an absent [emotionFeatures] is falsy. *)
Definition qualifies (m : TranscriptMessage) : bool :=
  is_interviewee (speaker m)
  && match emotionFeatures m with Some _ => true | None => false end.

(** The cast [as Array<TranscriptMessage & { emotionFeatures }>]: after the
    filter the features are present. *)
Definition features_of (m : TranscriptMessage) : EmotionFeatures :=
  nullish (emotionFeatures m) [].

(** [m.emotionFeatures.interest ?? m.emotionFeatures.engagement ?? 0 > 0.6]:
    [>] binds tighter than [??], so the expression is
    [interest ?? engagement ?? (0 > 0.6)] and the [if] tests the
    truthiness of the first feature that is present. *)
Definition engaged_test (e : EmotionFeatures) : bool :=
  match JSMap.get e "interest" with
  | Some interest => truthy interest
  | None =>
      match JSMap.get e "engagement" with
      | Some engagement => truthy engagement
      | None => (zero >? Fin 0.6)%js
      end
  end.

Definition analyzeEmotions (messages : list TranscriptMessage) : AnalysisResult :=
  let intervieweeMessages := filter qualifies messages in
  if (List.length intervieweeMessages =? 0)%nat
  then empty_result "No emotional data available for analysis"
                    "Ensure emotion features are captured for interviewee messages"
  else aggregate engaged_test
                 (map (fun m => (text m, features_of m)) intervieweeMessages).

End Emotion.

(* ------------------------------------------------------------------ *)
(** ** The regular expressions of the keyword extractor

    A backtracking matcher for the fragment the patterns use: literals
    under the [i] flag, alternation, sequence, [?] and [\b]. *)

Module Regex.

Import JSString.

Inductive regex : Type :=
| Lit (s : string)
| Alt (r1 r2 : regex)
| Cat (r1 r2 : regex)
| Opt (r : regex)
| WordBoundary.

(** Canonicalisation under the [i] flag; it folds ASCII letters only,
    since no character from U+0080 on canonicalises to an ASCII one. *)
Definition canonical (c : ascii) : ascii :=
  let n := code c in
  if between 97 122 n then ascii_of_N (n - 32)%N else c.

Definition is_word_opt (c : option ascii) : bool :=
  match c with Some c => is_word c | None => false end.

Definition head (s : string) : option ascii :=
  match s with EmptyString => None | String c _ => Some c end.

(** [lit_match pat prev s]: the literal [pat] read at the front of [s];
    the result is the last character read and the rest of [s]. *)
Fixpoint lit_match (pat : string) (prev : option ascii) (s : string)
  : option (option ascii * string) :=
  match pat with
  | EmptyString => Some (prev, s)
  | String p pat' =>
      match s with
      | EmptyString => None
      | String c s' =>
          if Ascii.eqb (canonical p) (canonical c)
          then lit_match pat' (Some c) s'
          else None
      end
  end.

(** [run r prev s k]: match [r] at the front of [s], [prev] being the
    character before it, then continue with [k]; alternatives are tried
    in order and [?] is greedy.  The result is what is left of [s] after
    the whole match. *)
Fixpoint run (r : regex) (prev : option ascii) (s : string)
         (k : option ascii -> string -> option string) : option string :=
  match r with
  | Lit pat =>
      match lit_match pat prev s with
      | Some (prev', s') => k prev' s'
      | None => None
      end
  | Alt r1 r2 =>
      match run r1 prev s k with
      | Some rest => Some rest
      | None => run r2 prev s k
      end
  | Cat r1 r2 => run r1 prev s (fun prev' s' => run r2 prev' s' k)
  | Opt r1 =>
      match run r1 prev s k with
      | Some rest => Some rest
      | None => k prev s
      end
  | WordBoundary =>
      if xorb (is_word_opt prev) (is_word_opt (head s)) then k prev s else None
  end.

Definition match_at (r : regex) (prev : option ascii) (s : string) : option string :=
  run r prev s (fun _ rest => Some rest).

(** [pattern.test(text)]: is there a match at some position? *)
Fixpoint test_from (r : regex) (prev : option ascii) (s : string) : bool :=
  match match_at r prev s with
  | Some _ => true
  | None =>
      match s with
      | EmptyString => false
      | String c s' => test_from r (Some c) s'
      end
  end.

Definition test (r : regex) (text : string) : bool := test_from r None text.

(** [(text.match(pattern) || []).length] for a pattern with the [g] flag:
    the matches are found from left to right and do not overlap; [skip]
    counts the characters of the last match still to be passed. *)
Fixpoint count_from (r : regex) (prev : option ascii) (s : string) (skip : nat) : nat :=
  match skip with
  | S skip' =>
      match s with
      | EmptyString => 0
      | String c s' => count_from r (Some c) s' skip'
      end
  | O =>
      match match_at r prev s with
      | Some rest =>
          let consumed := String.length s - String.length rest in
          match s with
          | EmptyString => 1
          | String c s' => 1 + count_from r (Some c) s' (consumed - 1)
          end
      | None =>
          match s with
          | EmptyString => 0
          | String c s' => count_from r (Some c) s' 0
          end
      end
  end.

Definition match_count (r : regex) (text : string) : nat := count_from r None text 0.

Fixpoint alternatives (words : list string) : regex :=
  match words with
  | [] => Lit ""
  | [w] => Lit w
  | w :: rest => Alt (Lit w) (alternatives rest)
  end.

(** [/\b(...)\b/]. *)
Definition whole (r : regex) : regex := Cat WordBoundary (Cat r WordBoundary).

End Regex.

(* ------------------------------------------------------------------ *)
(** ** [analyzeTextEmotions] and its keyword extractor *)

Module TextEmotion.

Import JSString JSNum EmotionModel Aggregate Regex.
Local Open Scope string_scope.

Record TranscriptMessage : Type :=
  mkMessage { speaker : Speaker; text : string }.

(** [s.includes(word)]. *)
Fixpoint includes (s word : string) : bool :=
  String.prefix word s
  || match s with
     | EmptyString => false
     | String _ s' => includes s' word
     end.

Record Keywords : Type := mkKeywords { words : list string; weight : number }.

Definition emotionKeywords : list (string * Keywords) :=
  [ ("confidence",
     mkKeywords
       [ "confident"; "sure"; "certain"; "definitely"; "absolutely"; "expertise";
         "experience"; "successful"; "accomplished"; "achieved"; "led"; "built";
         "implemented"; "designed"; "developed"; "expert"; "proficient"; "skilled";
         "strong"; "solid"; "deep"; "comprehensive"; "thorough"; "extensive" ]
       (Fin 1));
    ("nervousness",
     mkKeywords
       [ "um"; "uh"; "well"; "maybe"; "perhaps"; "not sure"; "uncertain";
         "think"; "guess"; "probably"; "might"; "could"; "hesitate"; "stumble";
         "unsure"; "doubt"; "worry"; "anxious"; "nervous"; "afraid"; "scared" ]
       (Fin 1));
    ("calmness",
     mkKeywords
       [ "calm"; "relaxed"; "comfortable"; "at ease"; "peaceful"; "steady";
         "composed"; "collected"; "clear"; "focused"; "balanced"; "stable" ]
       (Fin 0.8));
    ("engagement",
     mkKeywords
       [ "interested"; "excited"; "curious"; "eager"; "enthusiastic"; "passionate";
         "motivated"; "inspired"; "fascinated"; "engaged"; "involved"; "active";
         "questions"; "wonder"; "explore"; "learn"; "discover" ]
       (Fin 0.9));
    ("interest",
     mkKeywords
       [ "interesting"; "curious"; "wonder"; "want to know"; "would like";
         "fascinated"; "intrigued"; "attracted"; "appealing"; "appeal"; "drawn" ]
       (Fin 0.8));
    ("anxiety",
     mkKeywords
       [ "anxious"; "worried"; "concerned"; "stressed"; "pressure"; "pressure";
         "nervous"; "tense"; "uneasy"; "apprehensive"; "fearful"; "panicked" ]
       (Fin 1));
    ("enthusiasm",
     mkKeywords
       [ "excited"; "enthusiastic"; "thrilled"; "eager"; "passionate"; "energetic";
         "vibrant"; "dynamic"; "lively"; "animated"; "zealous"; "ardent" ]
       (Fin 0.9)) ].

(** [list.forEach(word => { if (lowerText.includes(word)) count += 1 })]. *)
Definition count_included (lowerText : string) (list : list string) : nat :=
  fold_left (fun count word => if includes lowerText word then count + 1 else count)
            list 0.

Definition positiveWords : list string :=
  [ "excellent"; "great"; "good"; "amazing"; "wonderful"; "fantastic";
    "successful"; "achieved"; "accomplished"; "improved"; "increased";
    "solved"; "optimized"; "enhanced"; "delivered"; "exceeded" ].

Definition negativeWords : list string :=
  [ "difficult"; "challenging"; "problem"; "issue"; "failed"; "struggled";
    "hard"; "tough"; "complex"; "complicated"; "error"; "bug"; "broken" ].

Definition uncertaintyWords : list string :=
  [ "maybe"; "perhaps"; "might"; "could"; "possibly"; "probably";
    "think"; "guess"; "not sure"; "uncertain"; "unsure" ].

Record Sentiment : Type := mkSentiment { score : number; magnitude : number }.

Definition analyzeSentiment (text : string) : Sentiment :=
  let lowerText := toLowerCase text in
  let positiveScore := count_included lowerText positiveWords in
  let negativeScore := count_included lowerText negativeWords in
  let uncertaintyScore := count_included lowerText uncertaintyWords in
  let totalWords := positiveScore + negativeScore + uncertaintyScore in
  if (totalWords =? 0)%nat then mkSentiment zero zero
  else
    mkSentiment
      ((of_nat positiveScore - of_nat negativeScore
        - of_nat uncertaintyScore * Fin 0.5)
       / max (of_nat totalWords) one)%js
      (min (of_nat totalWords / Fin 10)%js one).

Definition questionWords : regex :=
  whole (alternatives
           [ "what"; "how"; "why"; "when"; "where"; "can"; "could"; "would";
             "should" ]).

Definition confidentPatterns : list regex :=
  [ whole (Cat (Lit "I ")
               (alternatives [ "have"; "built"; "created"; "designed";
                               "implemented"; "led"; "achieved"; "accomplished" ]));
    whole (Cat (Lit "I ")
               (Cat (alternatives [ "am"; "was" ])
                    (Cat (Lit " ")
                         (Cat (alternatives [ "an"; "a" ])
                              (Cat (Lit " ")
                                   (alternatives [ "expert"; "senior"; "lead";
                                                   "experienced" ]))))));
    whole (Cat (Lit "year") (Cat (Opt (Lit "s")) (Lit " of experience")));
    whole (alternatives [ "successfully"; "effectively"; "efficiently" ]) ].

Definition fillerWords : regex :=
  whole (alternatives [ "um"; "uh"; "well"; "like"; "you know" ]).

(** "Analyze each emotion category". *)
Definition keyword_pass (lowerText : string) : EmotionFeatures :=
  fold_left
    (fun emotions '(emotion, kw) =>
       let count := count_included lowerText (words kw) in
       if (0 <? count)%nat
       then JSMap.set emotions emotion
              (min (of_nat count / of_nat (List.length (words kw)) * weight kw)%js
                   (Fin 1))
       else emotions)
    emotionKeywords [].

(** "Map sentiment to confidence and calmness". *)
Definition sentiment_pass (sentiment : Sentiment) (emotions : EmotionFeatures)
  : EmotionFeatures :=
  let s := score sentiment in
  if (s >? Fin 0.3)%js then
    let emotions :=
      JSMap.set emotions "confidence"
        (max (or_default (JSMap.get emotions "confidence") zero)
             (Fin 0.6 + s * Fin 0.3)%js) in
    JSMap.set emotions "calmness"
      (max (or_default (JSMap.get emotions "calmness") zero)
           (Fin 0.5 + s * Fin 0.2)%js)
  else if (s <? Fin (-0.3))%js then
    let emotions :=
      JSMap.set emotions "nervousness"
        (max (or_default (JSMap.get emotions "nervousness") zero)
             (Fin 0.5 + abs s * Fin 0.3)%js) in
    let emotions :=
      JSMap.set emotions "anxiety"
        (max (or_default (JSMap.get emotions "anxiety") zero)
             (Fin 0.4 + abs s * Fin 0.2)%js) in
    JSMap.set emotions "confidence"
      (min (or_default (JSMap.get emotions "confidence") (Fin 0.5))
           (Fin 0.4 - abs s * Fin 0.2)%js)
  else emotions.

(** "Detect engagement from question words". *)
Definition question_pass (text : string) (emotions : EmotionFeatures)
  : EmotionFeatures :=
  if test questionWords text then
    let emotions :=
      JSMap.set emotions "engagement"
        (max (or_default (JSMap.get emotions "engagement") zero) (Fin 0.6)) in
    JSMap.set emotions "interest"
      (max (or_default (JSMap.get emotions "interest") zero) (Fin 0.5))
  else emotions.

(** "Detect confidence from statement patterns". *)
Definition statement_pass (text : string) (emotions : EmotionFeatures)
  : EmotionFeatures :=
  fold_left
    (fun emotions pattern =>
       if test pattern text
       then JSMap.set emotions "confidence"
              (max (or_default (JSMap.get emotions "confidence") zero) (Fin 0.7))
       else emotions)
    confidentPatterns emotions.

(** "Detect nervousness from filler words and uncertainty". *)
Definition filler_pass (text : string) (emotions : EmotionFeatures)
  : EmotionFeatures :=
  let fillerWordCount := match_count fillerWords text in
  if (0 <? fillerWordCount)%nat then
    let emotions :=
      JSMap.set emotions "nervousness"
        (max (or_default (JSMap.get emotions "nervousness") zero)
             (min (of_nat fillerWordCount * Fin 0.2)%js (Fin 0.8))) in
    JSMap.set emotions "confidence"
      (max zero
           (or_default (JSMap.get emotions "confidence") (Fin 0.5)
            - of_nat fillerWordCount * Fin 0.1)%js)
  else emotions.

(** "Normalize all emotions to 0-1 range". *)
Definition clamp_pass (emotions : EmotionFeatures) : EmotionFeatures :=
  map (fun '(key, v) => (key, min (max v zero) one)) emotions.

(** "Ensure at least some baseline emotions". *)
Definition baseline_pass (emotions : EmotionFeatures) : EmotionFeatures :=
  if (List.length emotions =? 0)%nat
  then JSMap.set (JSMap.set emotions "confidence" (Fin 0.5)) "calmness" (Fin 0.5)
  else emotions.

Definition extractEmotions (text : string) : EmotionFeatures :=
  let lowerText := toLowerCase text in
  let emotions := keyword_pass lowerText in
  let sentiment := analyzeSentiment text in
  let emotions := sentiment_pass sentiment emotions in
  let emotions := question_pass text emotions in
  let emotions := statement_pass text emotions in
  let emotions := filler_pass text emotions in
  let emotions := clamp_pass emotions in
  baseline_pass emotions.

(** [(m.emotionFeatures.interest ?? m.emotionFeatures.engagement ?? 0) > 0.6]. *)
Definition engaged_test (e : EmotionFeatures) : bool :=
  (nullish (JSMap.get e "interest") (nullish (JSMap.get e "engagement") zero)
   >? Fin 0.6)%js.

Definition analyzeTextEmotions (messages : list TranscriptMessage) : AnalysisResult :=
  let intervieweeMessages := filter (fun m => is_interviewee (speaker m)) messages in
  if (List.length intervieweeMessages =? 0)%nat
  then empty_result "No interviewee messages available for analysis"
                    "Ensure interview transcript contains interviewee responses"
  else
    let messagesWithEmotions :=
      map (fun msg => (text msg, extractEmotions (text msg))) intervieweeMessages in
    aggregate engaged_test messagesWithEmotions.

End TextEmotion.


(* ------------------------------------------------------------------ *)
(** ** Reference definitions and invariants

    What the properties below are stated against: the textbook recurrence
    of the longest common subsequence, the invariant of the table that
    computes it, the smoothed n-gram model written with occurrence counts,
    and the documented rules of the emotion aggregators. *)

Module LcsSpec.

Import Rouge.

(** The recurrence on sequences read from their last element:
    [lcs_rec a b] is the length of a longest common subsequence of the
    reversals of [a] and [b]. *)
Fixpoint lcs_rec (a b : list string) : nat :=
  match a with
  | [] => 0
  | x :: a' =>
      (fix against (b : list string) : nat :=
         match b with
         | [] => 0
         | y :: b' =>
             if String.eqb x y then S (lcs_rec a' b')
             else Nat.max (lcs_rec a' b) (against b')
         end) b
  end.

(** A table of [m + 1] rows and [n + 1] columns. *)
Definition shape (dp : table) (m n : nat) : Prop :=
  List.length dp = S m /\ forall i, i <= m -> List.length (nth i dp []) = S n.

(** What the finished cell [(i, j)] holds. *)
Definition lcs_prefix (seq1 seq2 : list string) (i j : nat) : nat :=
  lcs_rec (rev (firstn i seq1)) (rev (firstn j seq2)).

(** The cells already written when the loops stand at row [i], column [j]. *)
Definition filled (i j a b : nat) : bool :=
  (a <? i) || ((a =? i) && (b <=? j)).

Definition table_inv (seq1 seq2 : list string) (i j : nat) (dp : table) : Prop :=
  shape dp (List.length seq1) (List.length seq2) /\
  forall a b, a <= List.length seq1 -> b <= List.length seq2 ->
    cell dp a b = if filled i j a b then lcs_prefix seq1 seq2 a b else 0.

End LcsSpec.

Module RougeSpec.

Import JSNum Rouge.

Definition prf_in_unit (s : PRF) : Prop :=
  in_unit (precision s) /\ in_unit (recall s) /\ in_unit (f1 s).

(** All nine numbers of a ROUGE record lie in [[0, 1]]. *)
Definition scores_in_unit (s : ROUGEScores) : Prop :=
  prf_in_unit (rouge1 s) /\ prf_in_unit (rouge2 s) /\ prf_in_unit (rougeL s).

Definition prf_perfect (s : PRF) : Prop :=
  eqv (precision s) one /\ eqv (recall s) one /\ eqv (f1 s) one.

End RougeSpec.

Module PerplexitySpec.

Import JSString.

(** The finite entries of a list of log-probabilities. *)
Fixpoint finite_values (l : list JSReal.number) : list R :=
  match l with
  | [] => []
  | JSReal.Fin r :: rest => r :: finite_values rest
  | _ :: rest => finite_values rest
  end.

Definition total (rs : list R) : R := fold_right Rplus 0%R rs.

(** The arithmetic mean. *)
Definition mean (rs : list R) : R := (total rs / INR (List.length rs))%R.

Section Model.

Variable tokens : list string.
Variable n : nat.

(** The [n] consecutive tokens that start at position [i]. *)
Definition ngram_tokens (i : nat) : list string := firstn n (skipn i tokens).

(** A sequence of [L] tokens has [max(0, L - n + 1)] n-grams. *)
Definition positions : list nat := seq 0 (List.length tokens + 1 - n).

(** An n-gram is represented by its tokens joined with a space; its
    context is its first [n - 1] tokens. *)
Definition ngram_key (i : nat) : string := join " " (ngram_tokens i).

Definition context_key (i : nat) : string :=
  join " " (firstn (n - 1) (ngram_tokens i)).

Definition ngram_keys : list string := map ngram_key positions.

Definition context_keys : list string := map context_key positions.

(** Occurrence counts over the n-gram positions of the text. *)
Definition count_ngram (k : string) : nat := count_occ string_dec ngram_keys k.

Definition count_context (k : string) : nat := count_occ string_dec context_keys k.

(** The number of distinct n-grams. *)
Definition vocabulary : nat := List.length (nodup string_dec ngram_keys).

Definition smoothed_log_prob (i : nat) : R :=
  ln (INR (count_ngram (ngram_key i) + 1)
      / INR (count_context (context_key i) + vocabulary + 1)).

Definition average_log_prob : R := mean (map smoothed_log_prob positions).

End Model.

(** The smoothed unigram model of a token sequence. *)
Definition unigram_log_prob (tokens : list string) (token : string) : R :=
  ln (INR (count_occ string_dec tokens token + 1)
      / INR (List.length tokens + List.length (nodup string_dec tokens) + 1)).

Definition unigram_average (tokens : list string) : R :=
  mean (map (unigram_log_prob tokens) tokens).

End PerplexitySpec.

Module EmotionSpec.

Import JSNum EmotionModel.
Local Open Scope string_scope.

(** The label of a message by the documented priority order. *)
Definition state_by_priority (e : EmotionFeatures) : EmotionalState :=
  let confidence := nullish (JSMap.get e "confidence") zero in
  let calmness := nullish (JSMap.get e "calmness") zero in
  let nervousness :=
    match JSMap.get e "nervousness" with
    | Some v => v
    | None => nullish (JSMap.get e "anxiety") zero
    end in
  let interest :=
    match JSMap.get e "interest" with
    | Some v => v
    | None => nullish (JSMap.get e "engagement") zero
    end in
  if (confidence >=? Fin 0.7)%js && (nervousness <? Fin 0.3)%js then confident
  else if (nervousness >=? Fin 0.5)%js || (confidence <? Fin 0.4)%js then nervous
  else if (calmness >=? Fin 0.7)%js then calm
  else if (interest >? Fin 0.6)%js then engaged
  else uncertain.

(** Exactly one of the three flags is set. *)
Definition exactly_one (t : Trends) : Prop :=
  match improving t, declining t, stable t with
  | true, false, false | false, true, false | false, false, true => True
  | _, _, _ => False
  end.

(** The result documented for a transcript without usable messages. *)
Definition is_no_data_result (r : AnalysisResult) : Prop :=
  overallConfidence r = Fin 0 /\ averageCalmness r = Fin 0
  /\ emotionalStability r = Fin 0
  /\ dominantEmotions r = [] /\ detailedBreakdown r = []
  /\ emotionalTrends r = mkTrends false false true
  /\ exists sentinel, insights r = [sentinel].

(** The filter as the documentation words it: an interviewee message with
    a non-empty feature map. *)
Definition has_nonempty_features (m : Emotion.TranscriptMessage) : bool :=
  is_interviewee (Emotion.speaker m)
  && match Emotion.emotionFeatures m with
     | Some (_ :: _) => true
     | _ => false
     end.

(** What a message contributes to the statistic of one feature: the
    intensity recorded under that name, and 0 when the map has no such key,
    as in an empty map. *)
Definition intensity_or_zero (name : string) (m : Emotion.TranscriptMessage)
  : number :=
  match Emotion.emotionFeatures m with
  | Some e =>
      match JSMap.get e name with
      | Some intensity => intensity
      | None => Fin 0
      end
  | None => Fin 0
  end.

Definition all_finite (scores : list number) : Prop :=
  Forall (fun x => isFinite x = true) scores.

(** Every intensity of a feature map is a finite number. *)
Definition features_finite (e : EmotionFeatures) : Prop :=
  Forall (fun kv => isFinite (snd kv) = true) e.

(** Every intensity of a feature map lies in [[0, 1]]. *)
Definition features_in_unit (e : EmotionFeatures) : Prop :=
  Forall (fun kv => in_unit (snd kv)) e.

(** Sample inputs. *)
Definition mildly_interested : EmotionFeatures :=
  [("confidence", Fin 0.5); ("calmness", Fin 0.5); ("interest", Fin 0.1)].

Definition no_features_message : Emotion.TranscriptMessage :=
  Emotion.mkMessage interviewee "I am not sure." (Some []).

End EmotionSpec.

(* ------------------------------------------------------------------ *)
(** ** Further reference definitions for the metrics *)

Module MetricsSpec.

Import JSString.

(** The characters a token is made of: [[a-z0-9_]]. *)
Definition is_token_char (c : ascii) : bool :=
  let n := code c in
  (between 97 122 n || between 48 57 n || (n =? 95))%N.

(** [s] is a subsequence of [l]: it is obtained from [l] by deleting
    elements. *)
Inductive subseq {A : Type} : list A -> list A -> Prop :=
| subseq_nil : subseq [] []
| subseq_skip (x : A) (s l : list A) : subseq s l -> subseq s (x :: l)
| subseq_take (x : A) (s l : list A) : subseq s l -> subseq (x :: s) (x :: l).

(** The two lists have no element in common. *)
Definition disjoint (a b : list string) : Prop :=
  forall x, In x a -> ~ In x b.

End MetricsSpec.

Module OverflowSpec.

Import JSReal JSDouble.

(** The first partial sum [acc + r1 + ... + rk] that is too large for a
    double in either direction, if there is one. *)
Fixpoint first_overflow (acc : R) (rs : list R) : option R :=
  match rs with
  | [] => None
  | r :: rest =>
      if Rle_dec overflow_threshold (acc + r) then Some (acc + r)%R
      else if Rle_dec (acc + r) (- overflow_threshold) then Some (acc + r)%R
      else first_overflow (acc + r) rest
  end.


End OverflowSpec.

Module RougeOrder.

Import JSNum Rouge.

(** Each f1 of [x] is at most the corresponding f1 of [y]. *)
Definition scores_le (x y : ROUGEScores) : Prop :=
  (f1 (rouge1 x) <=? f1 (rouge1 y))%js = true
  /\ (f1 (rouge2 x) <=? f1 (rouge2 y))%js = true
  /\ (f1 (rougeL x) <=? f1 (rougeL y))%js = true.

End RougeOrder.

Module AggregateSpec.

Import JSNum EmotionModel.

(** No two of the three trend flags are set. *)
Definition at_most_one (t : Trends) : Prop :=
  match improving t, declining t, stable t with
  | true, true, _ | true, _, true | _, true, true => False
  | _, _, _ => True
  end.

(** The three overall metrics lie in [[0, 1]]. *)
Definition metrics_in_unit (r : AnalysisResult) : Prop :=
  in_unit (overallConfidence r) /\ in_unit (averageCalmness r)
  /\ in_unit (emotionalStability r).

(** The intensities recorded under one name, message after message. *)
Definition intensities (name : string) (features : list EmotionFeatures)
  : list number :=
  map snd (filter (fun kv => String.eqb (fst kv) name) (List.concat features)).

(** The mean intensity of a name over the entries that carry it. *)
Definition mean_intensity (name : string) (features : list EmotionFeatures)
  : number :=
  (sum (intensities name features)
   / of_nat (List.length (intensities name features)))%js.

(** The running total and count kept for a name, after further
    intensities. *)
Definition absorb (slot : option (number * nat)) (vs : list number)
  : option (number * nat) :=
  fold_left (fun slot v =>
               match slot with
               | Some (total, count) => Some ((total + v)%js, count + 1)
               | None => Some ((zero + v)%js, 0 + 1)
               end)
            vs slot.

(** Entries listed from the highest average intensity down. *)
Fixpoint descending (l : list DominantEmotion) : Prop :=
  match l with
  | [] => True
  | x :: rest =>
      Forall (fun y => (averageIntensity y <=? averageIntensity x)%js = true) rest
      /\ descending rest
  end.

(** A transcript message with the features the keyword extractor gives
    its text. *)
Definition with_extracted (m : TextEmotion.TranscriptMessage)
  : Emotion.TranscriptMessage :=
  Emotion.mkMessage (TextEmotion.speaker m) (TextEmotion.text m)
                    (Some (TextEmotion.extractEmotions (TextEmotion.text m))).

(** Two breakdown entries that differ at most in their label. *)
Definition same_but_state (a b : BreakdownEntry) : Prop :=
  messageIndex a = messageIndex b /\ entryText a = entryText b
  /\ emotions a = emotions b /\ confidenceScore a = confidenceScore b.

End AggregateSpec.

Module ExtractSpec.

Import JSNum.

(** A finite number between two bounds. *)
Definition in_range (lo hi : Q) (a : number) : Prop :=
  match a with
  | Fin q => (lo <= q /\ q <= hi)%Q
  | _ => False
  end.

(** A feature that is present, with a finite value of at least [lo]. *)
Definition at_least (lo : Q) (slot : option number) : Prop :=
  match slot with
  | Some (Fin q) => (lo <= q)%Q
  | _ => False
  end.

End ExtractSpec.

(* ------------------------------------------------------------------ *)
(** ** [extractMarkdownSection] (src/__tests__/lib/ai-validation-helpers.ts)

    The two patterns of the function are matched by hand: the header
    pattern is a line start, two or three hashes, a run of white space, the
    escaped header read as a literal under the [i] flag, and the rest of
    the line; the pattern of the next section is the same without the
    header and the rest of the line. *)

Module Markdown.

Import JSString.
Local Open Scope string_scope.

Definition LF : string := String (ascii_of_N 10) "".

(** The line terminators below U+0100, after which a line starts under
    the [m] flag: LF and CR. *)
Definition is_line_terminator (c : ascii) : bool :=
  ((code c =? 10) || (code c =? 13))%N.

(** Canonicalisation under the [i] flag: a-z and U+00E0..U+00FE (without
    the division sign U+00F7) are the code units below U+0100 whose
    capital is a single code unit below U+0100 too. *)
Definition canonical (c : ascii) : ascii :=
  let n := code c in
  if (between 97 122 n || (between 224 254 n && negb (n =? 247)))%N
  then ascii_of_N (n - 32)
  else c.

(** The escaped header, a literal: what is left of [s] after it. *)
Fixpoint lit_match (pat s : string) : option string :=
  match pat with
  | EmptyString => Some s
  | String p pat' =>
      match s with
      | EmptyString => None
      | String c s' =>
          if Ascii.eqb (canonical p) (canonical c) then lit_match pat' s' else None
      end
  end.

Fixpoint skip_hashes (n : nat) (s : string) : option string :=
  match n with
  | O => Some s
  | S n' =>
      match s with
      | EmptyString => None
      | String c s' => if (code c =? 35)%N then skip_hashes n' s' else None
      end
  end.

(** The length of the run of white space at the front of [s]. *)
Fixpoint space_run (s : string) : nat :=
  match s with
  | EmptyString => 0
  | String c s' => if is_space c then S (space_run s') else 0
  end.

(** [s.substring(k)]. *)
Fixpoint drop (k : nat) (s : string) : string :=
  match k, s with
  | S k', String _ s' => drop k' s'
  | _, _ => s
  end.

(** The rest of the line, greedily: what is left of [s] from its first LF
    on. *)
Fixpoint line_rest (s : string) : string :=
  match s with
  | EmptyString => EmptyString
  | String c s' => if (code c =? 10)%N then s else line_rest s'
  end.

(** The run of white space followed by the header: the longest run is
    tried first, then the shorter ones down to one character. *)
Fixpoint spaces_then_header (header : string) (k : nat) (s : string)
  : option string :=
  match k with
  | O => None
  | S k' =>
      match lit_match header (drop k s) with
      | Some rest => Some rest
      | None => spaces_then_header header k' s
      end
  end.

(** The header pattern read at the front of [s]: what is left of [s] after
    the match.  Three hashes are tried before two. *)
Definition header_at (header s : string) : option string :=
  let with_hashes n :=
    match skip_hashes n s with
    | Some s1 =>
        match spaces_then_header header (space_run s1) s1 with
        | Some s2 => Some (line_rest s2)
        | None => None
        end
    | None => None
    end in
  match with_hashes 3 with
  | Some rest => Some rest
  | None => with_hashes 2
  end.

(** The pattern of the next section read at the front of [s]. *)
Definition section_at (s : string) : option string :=
  let with_hashes n :=
    match skip_hashes n s with
    | Some s1 =>
        if (0 <? space_run s1)%nat then Some (drop (space_run s1) s1) else None
    | None => None
    end in
  match with_hashes 3 with
  | Some rest => Some rest
  | None => with_hashes 2
  end.

(** [s.match(pattern)] for a pattern anchored at a line start: the match
    at the first position that has one; the result is the matched text. *)
Fixpoint first_match (pattern_at : string -> option string) (line_start : bool)
         (s : string) : option string :=
  match (if line_start then pattern_at s else None) with
  | Some rest => Some (String.substring 0 (String.length s - String.length rest) s)
  | None =>
      match s with
      | EmptyString => None
      | String c s' => first_match pattern_at (is_line_terminator c) s'
      end
  end.

(** [s.indexOf(needle)]; [None] stands for [-1]. *)
Fixpoint indexOf (s needle : string) : option nat :=
  if String.prefix needle s then Some 0
  else
    match s with
    | EmptyString => None
    | String _ s' => option_map S (indexOf s' needle)
    end.

(** [s.indexOf(needle, from)]. *)
Definition indexOf_from (s needle : string) (from : nat) : option nat :=
  let from := Nat.min from (String.length s) in
  option_map (Nat.add from) (indexOf (drop from s) needle).

Definition extractMarkdownSection (text sectionHeader : string) : option string :=
  match first_match (header_at sectionHeader) true text with
  | None => None
  | Some headerMatch =>
      match indexOf text headerMatch with
      | None => None
      | Some headerIndex =>
          match indexOf_from text LF headerIndex with
          | None => None
          | Some newline =>
              let contentStart := newline + 1 in
              let remainingText := drop contentStart text in
              match first_match section_at true remainingText with
              | Some nextSectionMatch =>
                  match indexOf remainingText nextSectionMatch with
                  | Some nextSectionIndex =>
                      Some (trim (String.substring 0 nextSectionIndex remainingText))
                  | None => Some (trim "")
                  end
              | None => Some (trim remainingText)
              end
          end
      end
  end.

End Markdown.

(* ------------------------------------------------------------------ *)
(** ** The evaluation helpers (src/__tests__/lib/ml-metrics-helpers.ts) *)

Module Evaluation.

Import JSString Rouge Perplexity Markdown.

Module Candidate.
Record t : Type :=
  mk { text : string;
       reference : option references;
       section : option string }.
End Candidate.

Module EvaluationResult.
Record t : Type :=
  mk { rougeScores : option ROUGEScores;
       perplexity : option PerplexityResult;
       section : option string }.
End EvaluationResult.

(** Truthiness of [string | string[] | undefined]: the empty string is
    falsy, an array is truthy even when empty. *)
Definition truthy_references (r : option references) : bool :=
  match r with
  | Some (OneReference s) => negb (String.length s =? 0)%nat
  | Some (ManyReferences _) => true
  | None => false
  end.

Definition evaluateText (candidate : string) (references : option references)
  : EvaluationResult.t :=
  EvaluationResult.mk
    (match references with
     | Some r =>
         if truthy_references references then Some (calculateROUGE candidate r)
         else None
     | None => None
     end)
    (Some (calculatePerplexity_default candidate))
    None.

(** [if (!section) return null]: a section that is missing or empty. *)
Definition evaluateSection (text sectionName : string)
           (reference : option references) : option EvaluationResult.t :=
  match extractMarkdownSection text sectionName with
  | Some section =>
      if (String.length section =? 0)%nat then None
      else Some (evaluateText section reference)
  | None => None
  end.

Record BatchEvaluationResult : Type :=
  mkBatch { results : list EvaluationResult.t;
            averageRouge1 : JSNum.number;
            averageRouge2 : JSNum.number;
            averageRougeL : JSNum.number;
            averagePerplexity : JSReal.number;
            totalEvaluations : nat }.

(** The text a candidate is evaluated on; [None] when the loop goes on to
    the next candidate. *)
Definition text_of (candidate : Candidate.t) : option string :=
  match Candidate.section candidate with
  | Some name =>
      if (String.length name =? 0)%nat then Some (Candidate.text candidate)
      else
        match extractMarkdownSection (Candidate.text candidate) name with
        | Some section =>
            if (String.length section =? 0)%nat then None else Some section
        | None => None
        end
  | None => Some (Candidate.text candidate)
  end.

Definition batch_state : Type :=
  list EvaluationResult.t * list JSNum.number * list JSNum.number
  * list JSNum.number * list JSReal.number.

(** One iteration of [for (const candidate of candidates)]. *)
Definition batch_step (state : batch_state) (candidate : Candidate.t)
  : batch_state :=
  let '(results, rouge1Scores, rouge2Scores, rougeLScores, perplexities) := state in
  match text_of candidate with
  | None => state
  | Some text =>
      let evaluated := evaluateText text (Candidate.reference candidate) in
      let evaluation :=
        EvaluationResult.mk (EvaluationResult.rougeScores evaluated)
                            (EvaluationResult.perplexity evaluated)
                            (Candidate.section candidate) in
      let results := results ++ [evaluation] in
      let '(rouge1Scores, rouge2Scores, rougeLScores) :=
        match EvaluationResult.rougeScores evaluation with
        | Some scores =>
            (rouge1Scores ++ [f1 (rouge1 scores)],
             rouge2Scores ++ [f1 (rouge2 scores)],
             rougeLScores ++ [f1 (rougeL scores)])
        | None => (rouge1Scores, rouge2Scores, rougeLScores)
        end in
      let perplexities :=
        match EvaluationResult.perplexity evaluation with
        | Some p =>
            if JSReal.isFinite (Perplexity.perplexity p)
            then perplexities ++ [Perplexity.perplexity p]
            else perplexities
        | None => perplexities
        end in
      (results, rouge1Scores, rouge2Scores, rougeLScores, perplexities)
  end.

(** [scores.length > 0 ? scores.reduce((a, b) => a + b, 0) / scores.length : 0]. *)
Definition average_score (scores : list JSNum.number) : JSNum.number :=
  if (0 <? List.length scores)%nat
  then JSNum.div (JSNum.sum scores) (JSNum.of_nat (List.length scores))
  else JSNum.zero.

Definition average_perplexity (perplexities : list JSReal.number) : JSReal.number :=
  if (0 <? List.length perplexities)%nat
  then JSReal.div (JSReal.sum perplexities) (JSReal.of_nat (List.length perplexities))
  else JSReal.PosInf.

Definition batchEvaluate (candidates : list Candidate.t) : BatchEvaluationResult :=
  let '(results, rouge1Scores, rouge2Scores, rougeLScores, perplexities) :=
    fold_left batch_step candidates ([], [], [], [], []) in
  mkBatch results
          (average_score rouge1Scores)
          (average_score rouge2Scores)
          (average_score rougeLScores)
          (average_perplexity perplexities)
          (List.length results).

(** *** [compareMetrics] *)

Module Evaluated.
Record t : Type := mk { name : string; metrics : BatchEvaluationResult }.
End Evaluated.

Module Best.
Record t (N : Type) : Type := mk { name : string; score : N }.
Arguments mk {N} _ _.
Arguments name {N} _.
Arguments score {N} _.
End Best.

Module Row.
Record t : Type :=
  mk { name : string;
       rouge1 : JSNum.number;
       rouge2 : JSNum.number;
       rougeL : JSNum.number;
       perplexity : JSReal.number }.
End Row.

Record Comparison : Type :=
  mkComparison { bestRouge1 : Best.t JSNum.number;
                 bestRouge2 : Best.t JSNum.number;
                 bestRougeL : Best.t JSNum.number;
                 bestPerplexity : Best.t JSReal.number;
                 comparison : list Row.t }.

(** [a < b] on numbers over the reals; a comparison with [NaN] is false. *)
Definition real_lt (a b : JSReal.number) : bool :=
  match a, b with
  | JSReal.NaN, _ | _, JSReal.NaN => false
  | JSReal.Fin x, JSReal.Fin y => if Rlt_dec x y then true else false
  | JSReal.NegInf, JSReal.NegInf | JSReal.PosInf, _ => false
  | JSReal.NegInf, _ | _, JSReal.PosInf => true
  | _, JSReal.NegInf => false
  end.

(** [if (score > best.score) best = { name, score }]. *)
Definition higher (name : string) (score : JSNum.number) (best : Best.t JSNum.number)
  : Best.t JSNum.number :=
  if JSNum.gt score (Best.score best) then Best.mk name score else best.

(** [if (isFinite(score) && score < best.score) best = { name, score }]. *)
Definition lower (name : string) (score : JSReal.number) (best : Best.t JSReal.number)
  : Best.t JSReal.number :=
  if JSReal.isFinite score && real_lt score (Best.score best)
  then Best.mk name score else best.

Definition compare_state : Type :=
  Best.t JSNum.number * Best.t JSNum.number * Best.t JSNum.number
  * Best.t JSReal.number.

(** The assignments made by one call of the [map] callback. *)
Definition compare_step (state : compare_state) (evaluation : Evaluated.t)
  : compare_state :=
  let '(bestRouge1, bestRouge2, bestRougeL, bestPerplexity) := state in
  let metrics := Evaluated.metrics evaluation in
  let name := Evaluated.name evaluation in
  (higher name (averageRouge1 metrics) bestRouge1,
   higher name (averageRouge2 metrics) bestRouge2,
   higher name (averageRougeL metrics) bestRougeL,
   lower name (averagePerplexity metrics) bestPerplexity).

Definition row_of (evaluation : Evaluated.t) : Row.t :=
  let metrics := Evaluated.metrics evaluation in
  Row.mk (Evaluated.name evaluation)
         (averageRouge1 metrics) (averageRouge2 metrics) (averageRougeL metrics)
         (averagePerplexity metrics).

Definition compareMetrics (evaluations : list Evaluated.t) : Comparison :=
  let '(bestRouge1, bestRouge2, bestRougeL, bestPerplexity) :=
    fold_left compare_step evaluations
              (Best.mk EmptyString JSNum.zero, Best.mk EmptyString JSNum.zero,
               Best.mk EmptyString JSNum.zero, Best.mk EmptyString JSReal.PosInf) in
  mkComparison bestRouge1 bestRouge2 bestRougeL bestPerplexity
               (map row_of evaluations).

End Evaluation.

Module EvaluationSpec.

Import JSString Rouge Perplexity Markdown Evaluation.

(** The candidates that are evaluated, each with the text it is evaluated
    on. *)
Definition evaluated (candidates : list Candidate.t) : list (Candidate.t * string) :=
  flat_map (fun c => match text_of c with
                     | Some text => [(c, text)]
                     | None => []
                     end)
           candidates.

(** The entry of [results] for an evaluated candidate. *)
Definition result_of (ct : Candidate.t * string) : EvaluationResult.t :=
  let evaluated := evaluateText (snd ct) (Candidate.reference (fst ct)) in
  EvaluationResult.mk (EvaluationResult.rougeScores evaluated)
                      (EvaluationResult.perplexity evaluated)
                      (Candidate.section (fst ct)).

(** The ROUGE records and the finite perplexities of a list of results. *)
Definition scored (results : list EvaluationResult.t) : list ROUGEScores :=
  flat_map (fun e => match EvaluationResult.rougeScores e with
                     | Some scores => [scores]
                     | None => []
                     end)
           results.

Definition finite_perplexities (results : list EvaluationResult.t)
  : list JSReal.number :=
  flat_map (fun e => match EvaluationResult.perplexity e with
                     | Some p =>
                         if JSReal.isFinite (Perplexity.perplexity p)
                         then [Perplexity.perplexity p] else []
                     | None => []
                     end)
           results.

(** [batchEvaluate] as a pipeline over the evaluated candidates. *)
Definition batch_of (results : list EvaluationResult.t) : BatchEvaluationResult :=
  mkBatch results
          (average_score (map (fun s => f1 (rouge1 s)) (scored results)))
          (average_score (map (fun s => f1 (rouge2 s)) (scored results)))
          (average_score (map (fun s => f1 (rougeL s)) (scored results)))
          (average_perplexity (finite_perplexities results))
          (List.length results).

(** The section a candidate asks for: its [section] when that is a
    non-empty string. *)
Definition named_section (c : Candidate.t) : option string :=
  match Candidate.section c with
  | Some name => if (String.length name =? 0)%nat then None else Some name
  | None => None
  end.

(** A candidate is skipped when it asks for a section that
    [extractMarkdownSection] does not find, or finds empty. *)
Definition skipped (c : Candidate.t) : Prop :=
  exists name,
    named_section c = Some name
    /\ (extractMarkdownSection (Candidate.text c) name = None
        \/ extractMarkdownSection (Candidate.text c) name = Some EmptyString).

(** A candidate that is kept is evaluated on the section it asks for, or
    on its whole text when it asks for none. *)
Definition evaluated_on (c : Candidate.t) (text : string) : Prop :=
  (named_section c = None /\ text = Candidate.text c)
  \/ exists name,
       named_section c = Some name
       /\ extractMarkdownSection (Candidate.text c) name = Some text
       /\ text <> EmptyString.

(** The entry of [results] for a candidate evaluated on [text]: ROUGE
    against the references when there are any, the perplexity of the
    trigram model, and the section as the candidate has it. *)
Definition entry (c : Candidate.t) (text : string) : EvaluationResult.t :=
  EvaluationResult.mk
    (match Candidate.reference c with
     | Some (OneReference EmptyString) => None
     | Some r => Some (calculateROUGE text r)
     | None => None
     end)
    (Some (calculatePerplexity text 3%Z))
    (Candidate.section c).

(** A finite number greater than 1. *)
Definition above_one (p : JSReal.number) : Prop :=
  match p with
  | JSReal.Fin r => (1 < r)%R
  | _ => False
  end.

(** [a <= b] on numbers over the reals. *)
Definition real_le (a b : JSReal.number) : bool :=
  match a, b with
  | JSReal.NaN, _ | _, JSReal.NaN => false
  | JSReal.Fin x, JSReal.Fin y => if Rle_dec x y then true else false
  | JSReal.NegInf, _ | _, JSReal.PosInf => true
  | _, _ => false
  end.

(** [best] is the running best of the evaluations [es], started from
    [start]: either nothing beats the start, or [best] is the first
    evaluation whose score no earlier one reaches and no later one beats. *)
Definition first_best {N : Type} (beats reaches : N -> N -> bool)
           (score_of : Evaluated.t -> N) (start : Best.t N)
           (es : list Evaluated.t) (best : Best.t N) : Prop :=
  (best = start
   /\ Forall (fun e => beats (score_of e) (Best.score start) = false) es)
  \/ exists before e after,
       es = before ++ e :: after
       /\ best = Best.mk (Evaluated.name e) (score_of e)
       /\ beats (score_of e) (Best.score start) = true
       /\ Forall (fun e' => reaches (score_of e') (score_of e) = false) before
       /\ Forall (fun e' => beats (score_of e') (score_of e) = false) after.

(** "Finite and lower", "finite and not higher". *)
Definition finite_lt (a b : JSReal.number) : bool :=
  JSReal.isFinite a && real_lt a b.

Definition finite_le (a b : JSReal.number) : bool :=
  JSReal.isFinite a && real_le a b.

End EvaluationSpec.

Module MarkdownSpec.

Import JSString Markdown.
Local Open Scope string_scope.

Definition is_hash (c : ascii) : bool := (code c =? 35)%N.

(** [s] starts with two hashes. *)
Definition starts_double (s : string) : bool :=
  match s with
  | String a (String b _) => is_hash a && is_hash b
  | _ => false
  end.

(** Two hashes in a row occur somewhere in [s]. *)
Fixpoint has_double_hash (s : string) : bool :=
  match s with
  | EmptyString => false
  | String _ s' => starts_double s || has_double_hash s'
  end.

Definition no_LF (s : string) : bool :=
  all_chars (fun c => negb (code c =? 10)%N) s.

(** The hashes of a heading of level two or three. *)
Definition heading (hashes : string) : Prop := hashes = "##" \/ hashes = "###".

(** What may stand before a heading: nothing, or lines that end with a
    line feed. *)
Definition lines (pre : string) : Prop := pre = "" \/ exists p, pre = p ++ LF.

(** What may follow the body of a section: the end of the text, or the
    heading of the next section on a line of its own. *)
Definition next_section (after : string) : Prop :=
  after = ""
  \/ exists hashes more, heading hashes /\ after = LF ++ hashes ++ " " ++ more.

End MarkdownSpec.

(* ------------------------------------------------------------------ *)
(** * Properties *)

(** ** Strings and tokens *)

Section StringFacts.

Import JSString.

Lemma all_chars_rev_onto p s : forall acc,
  all_chars p (string_rev_onto s acc) = all_chars p s && all_chars p acc.
Proof.
  induction s as [|c s IH]; intro acc; simpl; auto.
  rewrite IH. simpl. now rewrite andb_assoc, (andb_comm (all_chars p s)).
Qed.

Lemma length_rev_onto s : forall acc,
  String.length (string_rev_onto s acc) = String.length s + String.length acc.
Proof.
  induction s as [|c s IH]; intro acc; simpl; auto.
  rewrite IH. simpl. lia.
Qed.

Lemma trimStart_empty s :
  String.length (trimStart s) = 0 -> all_chars is_space s = true.
Proof.
  induction s as [|c s IH]; simpl; auto.
  destruct (is_space c); simpl; auto. discriminate.
Qed.

Lemma trimStart_blank s :
  all_chars is_space (trimStart s) = true -> String.length (trimStart s) = 0.
Proof.
  induction s as [|c s IH]; simpl; auto.
  destruct (is_space c) eqn:Hc; auto.
  simpl. rewrite Hc. discriminate.
Qed.

(** A string that [trim] empties consists of white space. *)
Lemma blank_all_space s :
  String.length (trim s) = 0 -> all_chars is_space s = true.
Proof.
  unfold trim, trimEnd, string_rev. intros H.
  rewrite length_rev_onto in H.
  assert (H1 : String.length (trimStart (string_rev_onto (trimStart s) "")) = 0)
    by (simpl in H; lia).
  apply trimStart_empty in H1.
  rewrite all_chars_rev_onto in H1. apply andb_prop in H1 as [H1 _].
  apply trimStart_empty, trimStart_blank, H1.
Qed.

Lemma lower_char_space c : is_space c = true -> is_space (lower_char c) = true.
Proof.
  destruct c as [[] [] [] [] [] [] [] []]; vm_compute; auto.
Qed.

End StringFacts.

Section TokenFacts.

Import JSString Rouge.

Lemma normalised_blank s :
  all_chars is_space s = true ->
  all_chars is_space (map_string replace_punct (toLowerCase s)) = true.
Proof.
  unfold toLowerCase.
  induction s as [|c s IH]; simpl; auto.
  intros H. apply andb_prop in H as [Hc Hs].
  rewrite (IH Hs), andb_true_r.
  unfold replace_punct. rewrite (lower_char_space _ Hc), orb_true_r.
  now apply lower_char_space.
Qed.

Lemma split_ws_blank s : forall in_sep,
  all_chars is_space s = true ->
  filter (fun word => 0 <? String.length word) (split_ws_aux s "" in_sep) = [].
Proof.
  induction s as [|c s IH]; intros in_sep H; simpl in *; auto.
  apply andb_prop in H as [Hc Hs]. rewrite Hc.
  destruct in_sep; simpl; auto.
Qed.

Lemma tokenize_blank text :
  String.length (trim text) = 0 -> tokenize text = [].
Proof.
  intros H. apply split_ws_blank, normalised_blank, blank_all_space, H.
Qed.

(** A text with a token is not blank. *)
Lemma tokens_not_blank text :
  tokenize text <> [] -> (String.length (trim text) =? 0) = false.
Proof.
  intros H. apply Nat.eqb_neq. intro Hb. now apply H, tokenize_blank.
Qed.

Lemma generateNGrams_length tokens n :
  List.length (generateNGrams tokens n)
  = Z.to_nat (Z.of_nat (List.length tokens) - n + 1).
Proof.
  unfold generateNGrams, loop_upto. now rewrite !length_map, length_seq.
Qed.

Lemma two_distinct_length (l : list string) a b :
  In a l -> In b l -> a <> b -> 2 <= List.length l.
Proof.
  destruct l as [|x [|y l]]; simpl; try lia; intuition congruence.
Qed.

End TokenFacts.

(** ** Sets and maps *)

Section SetFacts.

Import JSSet.

Lemma has_In s x : has s x = true <-> In x s.
Proof.
  unfold has. rewrite existsb_exists. split.
  - intros [y [Hy Heq]]. apply String.eqb_eq in Heq. now subst.
  - intros H. exists x. split; auto. apply String.eqb_refl.
Qed.

Lemma add_In s x y : In y (add s x) <-> In y s \/ y = x.
Proof.
  unfold add. destruct (has s x) eqn:H.
  - apply has_In in H. split; [auto | intros [Hy|Hy]; subst; auto].
  - rewrite in_app_iff. simpl. intuition.
Qed.

Lemma add_NoDup s x : NoDup s -> NoDup (add s x).
Proof.
  intros Hs. unfold add. destruct (has s x) eqn:H; auto.
  apply NoDup_app; auto.
  - repeat constructor. auto.
  - intros y Hy [<-|[]]. apply has_In in Hy. congruence.
Qed.

Lemma add_all_In items : forall s y,
  In y (fold_left add items s) <-> In y s \/ In y items.
Proof.
  induction items as [|x items IH]; intros s y; simpl; [tauto|].
  rewrite IH, add_In. intuition.
Qed.

Lemma add_all_NoDup items : forall s, NoDup s -> NoDup (fold_left add items s).
Proof.
  induction items as [|x items IH]; intros s Hs; simpl; auto using add_NoDup.
Qed.

Lemma of_list_In items y : In y (of_list items) <-> In y items.
Proof. unfold of_list. rewrite add_all_In. simpl. tauto. Qed.

Lemma of_list_NoDup items : NoDup (of_list items).
Proof. apply add_all_NoDup. constructor. Qed.

Lemma of_list_nonempty items : items <> [] -> 0 < size (of_list items).
Proof.
  destruct items as [|x items]; [congruence|]. intros _.
  assert (H : In x (of_list (x :: items))) by (apply of_list_In; now left).
  unfold size. destruct (of_list (x :: items)); [destruct H | simpl; lia].
Qed.

(** The size of a set is the number of distinct items. *)
Lemma of_list_distinct keys :
  size (of_list keys) = List.length (nodup string_dec keys).
Proof.
  unfold size. apply Nat.le_antisymm; apply NoDup_incl_length.
  - apply of_list_NoDup.
  - intros x Hx. apply nodup_In. now apply of_list_In.
  - apply NoDup_nodup.
  - intros x Hx. apply of_list_In. now apply nodup_In in Hx.
Qed.

End SetFacts.

Section MapFacts.

Import JSMap.

Lemma get_set_same {V} (m : t V) k v : get (set m k v) k = Some v.
Proof.
  induction m as [|[k' v'] m IH]; simpl.
  - now rewrite String.eqb_refl.
  - destruct (String.eqb k k') eqn:E; simpl; rewrite E; auto.
Qed.

Lemma get_set_other {V} (m : t V) k v k' :
  k <> k' -> get (set m k v) k' = get m k'.
Proof.
  intros Hne. induction m as [|[k0 v0] m IH]; simpl.
  - destruct (String.eqb_spec k' k); congruence.
  - destruct (String.eqb_spec k k0) as [->|]; simpl.
    + destruct (String.eqb_spec k' k0); congruence.
    + now rewrite IH.
Qed.

(** The keys of a map evolve like a set. *)
Lemma keys_set {V} (m : t V) k v :
  map fst (set m k v) = JSSet.add (map fst m) k.
Proof.
  unfold JSSet.add, JSSet.has.
  induction m as [|[k' v'] m IH]; simpl; auto.
  destruct (String.eqb k k'); simpl; auto.
  rewrite IH. now destruct (existsb _ _).
Qed.

Lemma get_count_incr m k k' :
  get_count (incr m k) k' = get_count m k' + (if string_dec k k' then 1 else 0).
Proof.
  unfold incr, get_count at 1.
  destruct (string_dec k k') as [<-|Hne].
  - now rewrite get_set_same.
  - rewrite get_set_other by auto. unfold get_count. lia.
Qed.

(** Counting the keys of a list one by one gives their occurrence counts. *)
Lemma get_count_tally keys k : forall m,
  get_count (fold_left incr keys m) k = get_count m k + count_occ string_dec keys k.
Proof.
  induction keys as [|x keys IH]; intro m; simpl; [lia|].
  rewrite IH, get_count_incr. destruct (string_dec x k); lia.
Qed.

Lemma keys_tally keys : forall m,
  map fst (fold_left incr keys m) = fold_left JSSet.add keys (map fst m).
Proof.
  induction keys as [|x keys IH]; intro m; simpl; auto.
  rewrite IH. unfold incr. now rewrite keys_set.
Qed.

Lemma size_tally keys :
  size (fold_left incr keys []) = List.length (nodup string_dec keys).
Proof.
  unfold size. rewrite <- (length_map fst), keys_tally.
  apply of_list_distinct.
Qed.

End MapFacts.

Section MatchFacts.

Import JSSet Rouge.

Lemma count_matches_filter_from c r : forall k,
  fold_left (fun matches ngram => if has r ngram then S matches else matches) c k
  = k + List.length (filter (has r) c).
Proof.
  induction c as [|x c IH]; intro k; simpl; [lia|].
  rewrite IH. destruct (has r x); simpl; lia.
Qed.

Lemma count_matches_filter c r :
  count_matches c r = List.length (filter (has r) c).
Proof. unfold count_matches. now rewrite count_matches_filter_from. Qed.

Lemma count_matches_le_candidate c r : count_matches c r <= size c.
Proof. rewrite count_matches_filter. apply filter_length_le. Qed.

Lemma count_matches_le_reference c r :
  NoDup c -> count_matches c r <= size r.
Proof.
  intros Hc. rewrite count_matches_filter. apply NoDup_incl_length.
  - now apply NoDup_filter.
  - intros x Hx. apply filter_In in Hx as [_ Hx]. now apply has_In.
Qed.

Lemma count_matches_self s : count_matches s s = size s.
Proof.
  rewrite count_matches_filter. unfold size. f_equal.
  apply forallb_filter_id. apply forallb_forall. intros x Hx. now apply has_In.
Qed.

End MatchFacts.

(** ** The LCS table *)

Section LcsFacts.

Import Rouge LcsSpec.

Lemma lcs_rec_nil_r a : lcs_rec a [] = 0.
Proof. destruct a; reflexivity. Qed.

Lemma lcs_rec_cons x a y b :
  lcs_rec (x :: a) (y :: b) =
  if String.eqb x y then S (lcs_rec a b)
  else Nat.max (lcs_rec a (y :: b)) (lcs_rec (x :: a) b).
Proof. reflexivity. Qed.

Lemma lcs_rec_sym a : forall b, lcs_rec a b = lcs_rec b a.
Proof.
  induction a as [|x a IHa]; intro b.
  - now rewrite lcs_rec_nil_r.
  - induction b as [|y b IHb].
    + now rewrite lcs_rec_nil_r.
    + rewrite !lcs_rec_cons, (String.eqb_sym y x).
      destruct (String.eqb x y).
      * now rewrite IHa.
      * rewrite IHb, (IHa (y :: b)). apply Nat.max_comm.
Qed.

Lemma lcs_rec_le_l a : forall b, lcs_rec a b <= List.length a.
Proof.
  induction a as [|x a IHa]; intro b; [simpl; lia|].
  induction b as [|y b IHb]; [simpl; lia|].
  rewrite lcs_rec_cons. destruct (String.eqb x y).
  - specialize (IHa b). simpl. lia.
  - specialize (IHa (y :: b)). simpl in *. lia.
Qed.

Lemma lcs_rec_self a : lcs_rec a a = List.length a.
Proof.
  induction a as [|x a IH]; auto.
  rewrite lcs_rec_cons, String.eqb_refl, IH. reflexivity.
Qed.

(** Reading and writing the table. *)

Lemma update_length {A} (l : list A) k v : List.length (update l k v) = List.length l.
Proof.
  revert k; induction l as [|x l IH]; intros [|k]; simpl; auto.
Qed.

Lemma nth_update {A} (l : list A) k v i d :
  k < List.length l ->
  nth i (update l k v) d = if i =? k then v else nth i l d.
Proof.
  revert k i; induction l as [|x l IH]; intros k i Hk; simpl in Hk; [lia|].
  destruct k as [|k], i as [|i]; simpl; auto.
  apply IH; lia.
Qed.

Lemma cell_set_cell dp m n i j v a b :
  shape dp m n -> i <= m -> j <= n ->
  cell (set_cell dp i j v) a b =
  if (a =? i) && (b =? j) then v else cell dp a b.
Proof.
  intros [Hlen Hrows] Hi Hj. unfold cell, set_cell.
  rewrite nth_update by lia.
  destruct (Nat.eqb_spec a i) as [->|Hne]; simpl; auto.
  rewrite nth_update by (rewrite Hrows; lia). reflexivity.
Qed.

Lemma shape_set_cell dp m n i j v :
  shape dp m n -> i <= m -> shape (set_cell dp i j v) m n.
Proof.
  intros [Hlen Hrows] Hi. split.
  - unfold set_cell. now rewrite update_length.
  - intros a Ha. unfold set_cell. rewrite nth_update by lia.
    destruct (Nat.eqb_spec a i) as [->|]; [rewrite update_length|]; auto.
Qed.

Lemma nth_repeat_in {A} (x d : A) k i : i < k -> nth i (repeat x k) d = x.
Proof.
  revert i; induction k; intros i Hi; [lia|].
  destruct i; simpl; auto. apply IHk; lia.
Qed.

Lemma shape_init m n : shape (init_table m n) m n.
Proof.
  unfold init_table; split.
  - apply repeat_length.
  - intros i Hi. rewrite nth_repeat_in by lia. apply repeat_length.
Qed.

Lemma cell_init m n a b : a <= m -> b <= n -> cell (init_table m n) a b = 0.
Proof.
  intros Ha Hb. unfold cell, init_table.
  rewrite nth_repeat_in by lia. apply nth_repeat_in; lia.
Qed.

Lemma firstn_snoc (l : list string) k :
  k < List.length l -> firstn (S k) l = firstn k l ++ [nth k l ""%string].
Proof.
  revert k; induction l as [|x l IH]; intros k Hk; simpl in Hk; [lia|].
  destruct k; simpl; auto. f_equal. apply IH; lia.
Qed.

Lemma rev_firstn_step (l : list string) k :
  1 <= k <= List.length l ->
  rev (firstn k l) = nth (k - 1) l ""%string :: rev (firstn (k - 1) l).
Proof.
  intros Hk. replace k with (S (k - 1)) at 1 by lia.
  rewrite firstn_snoc by lia. now rewrite rev_app_distr.
Qed.

Section Table.

Variables seq1 seq2 : list string.

Local Abbreviation len1 := (List.length seq1).
Local Abbreviation len2 := (List.length seq2).
Local Abbreviation prefix := (lcs_prefix seq1 seq2).
Local Abbreviation inv := (table_inv seq1 seq2).

Lemma lcs_prefix_0_r i : prefix i 0 = 0.
Proof. unfold lcs_prefix. simpl. apply lcs_rec_nil_r. Qed.

Lemma lcs_prefix_step i j :
  1 <= i <= len1 -> 1 <= j <= len2 ->
  prefix i j =
  if String.eqb (nth (i - 1) seq1 ""%string) (nth (j - 1) seq2 ""%string)
  then prefix (i - 1) (j - 1) + 1
  else Nat.max (prefix (i - 1) j) (prefix i (j - 1)).
Proof.
  intros Hi Hj. unfold lcs_prefix.
  rewrite (@rev_firstn_step seq1 i), (@rev_firstn_step seq2 j) by auto.
  rewrite lcs_rec_cons.
  destruct (String.eqb _ _); [lia | reflexivity].
Qed.

(** Writing one cell. *)
Lemma table_inv_cell i j dp :
  1 <= i <= len1 -> 1 <= j <= len2 ->
  inv i (j - 1) dp -> inv i j (lcs_cell seq1 seq2 dp i j).
Proof.
  intros Hi Hj [Hshape Hcells].
  assert (Hset : forall v, v = prefix i j -> inv i j (set_cell dp i j v)).
  { intros v ->. split; [apply shape_set_cell; auto; lia|].
    intros a b Ha Hb.
    rewrite (@cell_set_cell dp len1 len2) by (auto; lia).
    rewrite Hcells by auto. unfold filled.
    destruct (Nat.eqb_spec a i) as [->|Hai], (Nat.eqb_spec b j) as [->|Hbj];
      simpl; rewrite ?Nat.ltb_irrefl, ?Nat.leb_refl, ?andb_false_r, ?orb_false_r;
      simpl; auto.
    destruct (Nat.leb_spec b (j - 1)), (Nat.leb_spec b j); auto; lia. }
  unfold lcs_cell.
  rewrite (lcs_prefix_step Hi Hj) in Hset.
  assert (H11 : cell dp (i - 1) (j - 1) = prefix (i - 1) (j - 1)).
  { rewrite Hcells by lia. unfold filled.
    destruct (Nat.ltb_spec (i - 1) i); [reflexivity | lia]. }
  assert (H10 : cell dp (i - 1) j = prefix (i - 1) j).
  { rewrite Hcells by lia. unfold filled.
    destruct (Nat.ltb_spec (i - 1) i); [reflexivity | lia]. }
  assert (H01 : cell dp i (j - 1) = prefix i (j - 1)).
  { rewrite Hcells by lia. unfold filled.
    rewrite Nat.eqb_refl, Nat.leb_refl, orb_true_r. reflexivity. }
  destruct (String.eqb _ _); apply Hset; congruence.
Qed.

(** The inner loop. *)
Lemma table_inv_columns i dp : forall len start,
  1 <= i <= len1 -> 1 <= start -> start + len = S len2 ->
  inv i (start - 1) dp ->
  inv i len2 (fold_left (fun dp j => lcs_cell seq1 seq2 dp i j) (seq start len) dp).
Proof.
  intros len; revert dp; induction len as [|len IH]; intros dp start Hi Hs Hlen Hinv.
  - simpl. replace len2 with (start - 1) by lia. exact Hinv.
  - simpl. apply IH; auto; try lia.
    replace (S start - 1) with start by lia.
    apply table_inv_cell; auto; lia.
Qed.

Lemma table_inv_row i dp :
  1 <= i <= len1 -> inv i 0 dp -> inv (S i) 0 (lcs_row seq1 seq2 dp i).
Proof.
  intros Hi Hinv. unfold lcs_row.
  assert (Hrow : inv i len2
            (fold_left (fun dp j => lcs_cell seq1 seq2 dp i j) (seq 1 len2) dp))
    by (apply table_inv_columns; auto; lia).
  destruct Hrow as [Hshape Hcells]. split; auto.
  intros a b Ha Hb. rewrite Hcells by auto. unfold filled.
  destruct (Nat.ltb_spec a i), (Nat.ltb_spec a (S i)),
           (Nat.eqb_spec a i), (Nat.eqb_spec a (S i)); simpl; try lia; auto.
  - destruct (Nat.leb_spec b len2); [reflexivity | lia].
  - destruct (Nat.leb_spec b 0); auto.
    replace b with 0 by lia. now rewrite lcs_prefix_0_r.
Qed.

(** The outer loop. *)
Lemma table_inv_rows dp : forall len start,
  1 <= start -> start + len = S len1 ->
  inv start 0 dp ->
  inv (S len1) 0 (fold_left (lcs_row seq1 seq2) (seq start len) dp).
Proof.
  intros len; revert dp; induction len as [|len IH]; intros dp start Hs Hlen Hinv.
  - simpl. replace (S len1) with start by lia. exact Hinv.
  - simpl. apply IH; try lia. apply table_inv_row; auto; lia.
Qed.

Lemma table_inv_init : inv 1 0 (init_table len1 len2).
Proof.
  split; [apply shape_init|].
  intros a b Ha Hb. rewrite cell_init by auto. unfold filled.
  destruct a as [|[|a]]; simpl; auto.
  destruct b; simpl; auto. now rewrite lcs_prefix_0_r.
Qed.

(** The table computes the recurrence. *)
Lemma lcsLength_rec : lcsLength seq1 seq2 = lcs_rec (rev seq1) (rev seq2).
Proof.
  unfold lcsLength, lcs_table.
  destruct (@table_inv_rows (init_table len1 len2) len1 1) as [_ Hcells];
    [lia | lia | apply table_inv_init |].
  rewrite Hcells by lia. unfold filled.
  destruct (Nat.ltb_spec len1 (S len1)); [|lia]. simpl.
  unfold lcs_prefix. now rewrite !firstn_all.
Qed.

End Table.

Lemma lcsLength_comm a b : lcsLength a b = lcsLength b a.
Proof. rewrite !lcsLength_rec. apply lcs_rec_sym. Qed.

Lemma lcsLength_le_l a b : lcsLength a b <= List.length a.
Proof. rewrite lcsLength_rec, <- (length_rev a). apply lcs_rec_le_l. Qed.

Lemma lcsLength_le_r a b : lcsLength a b <= List.length b.
Proof. rewrite lcsLength_comm. apply lcsLength_le_l. Qed.

Lemma lcsLength_self a : lcsLength a a = List.length a.
Proof. now rewrite lcsLength_rec, lcs_rec_self, length_rev. Qed.

(** C8. LCS symmetry: for every pair of token sequences [A] and [B],
    [lcsLength A B] equals [lcsLength B A]. *)
Theorem lcsLength_symmetry (A B : list string) : lcsLength A B = lcsLength B A.
Proof.
  rewrite (lcsLength_rec A B), (lcsLength_rec B A). apply lcs_rec_sym.
Qed.

End LcsFacts.

(** ** ROUGE *)

Section NumFacts.

Import JSNum.

Lemma Qis_zero_pos q : (0 < q)%Q -> Qis_zero q = false.
Proof.
  intros H. unfold Qis_zero. destruct (Qeq_bool q 0) eqn:E; auto.
  apply Qeq_bool_iff in E. rewrite E in H. now apply Qlt_irrefl in H.
Qed.

Lemma inject_nat_pos n : 0 < n -> (0 < inject_Z (Z.of_nat n))%Q.
Proof. intros H. change 0%Q with (inject_Z 0). rewrite <- Zlt_Qlt. lia. Qed.

Lemma inject_nat_le a b : a <= b -> (inject_Z (Z.of_nat a) <= inject_Z (Z.of_nat b))%Q.
Proof. intros H. rewrite <- Zle_Qle. lia. Qed.

Lemma inject_nat_nonneg a : (0 <= inject_Z (Z.of_nat a))%Q.
Proof. change 0%Q with (inject_Z 0). rewrite <- Zle_Qle. lia. Qed.

Lemma in_unit_zero : in_unit zero.
Proof. unfold in_unit, zero. lra. Qed.

(** A ratio of counts. *)
Lemma ratio_in_unit a b : a <= b -> 0 < b -> in_unit (of_nat a / of_nat b).
Proof.
  intros Hab Hb. unfold of_nat, div.
  pose proof (inject_nat_pos Hb) as Hpos.
  pose proof (inject_nat_le Hab) as Hle.
  pose proof (inject_nat_nonneg a) as H0.
  rewrite (Qis_zero_pos Hpos).
  simpl. split.
  - apply Qle_shift_div_l; lra.
  - apply Qle_shift_div_r; lra.
Qed.

Lemma ratio_one k : 0 < k -> eqv (of_nat k / of_nat k) one.
Proof.
  intros Hk. unfold of_nat, div. pose proof (inject_nat_pos Hk) as Hpos.
  rewrite (Qis_zero_pos Hpos). simpl. field. lra.
Qed.

Lemma gt_zero_Fin q : (Fin q >? zero)%js = true <-> (0 < q)%Q.
Proof.
  unfold gt, lt, zero. rewrite negb_true_iff.
  destruct (Qle_bool q 0) eqn:E.
  - apply Qle_bool_iff in E. split; [discriminate | lra].
  - split; auto. intros _. apply Qnot_le_lt. intro H.
    apply Qle_bool_iff in H. congruence.
Qed.

Lemma Qle_bool_true x y : (x <= y)%Q -> Qle_bool x y = true.
Proof. apply Qle_bool_iff. Qed.

Lemma Qle_bool_false x y : (y < x)%Q -> Qle_bool x y = false.
Proof.
  intros H. destruct (Qle_bool x y) eqn:E; auto.
  apply Qle_bool_iff in E. lra.
Qed.

Lemma Qabs_above q b : (b < q \/ q < - b)%Q -> (b < Qabs q)%Q.
Proof.
  intros H. apply Qnot_le_lt. intro Hle.
  apply Qabs_Qle_condition in Hle. lra.
Qed.

End NumFacts.

Section RougeBounds.

Import JSNum JSSet Rouge LcsSpec RougeSpec.

Lemma f1_in_unit p r : in_unit p -> in_unit r -> in_unit (f1_of p r).
Proof.
  destruct p as [a| | |], r as [b| | |]; simpl; try tauto.
  intros [Ha0 Ha1] [Hb0 Hb1]. unfold f1_of.
  change (Fin a + Fin b)%js with (Fin (a + b)).
  destruct (Fin (a + b) >? zero)%js eqn:E; [|apply in_unit_zero].
  apply gt_zero_Fin in E.
  change (Fin 2 * Fin a * Fin b)%js with (Fin (2 * a * b)).
  unfold div. rewrite (Qis_zero_pos E). simpl. split.
  - apply Qle_shift_div_l; [lra|]. nra.
  - apply Qle_shift_div_r; [lra|]. nra.
Qed.

Lemma prf_in_unit_zero : prf_in_unit zeroPRF.
Proof. repeat split; apply in_unit_zero. Qed.

(** The set-overlap scorer. *)
Lemma overlap_in_unit c r : prf_in_unit (calculatePrecisionRecallF1 c r).
Proof.
  unfold calculatePrecisionRecallF1.
  destruct (Nat.eqb_spec (List.length r) 0) as [|Hr]; [apply prf_in_unit_zero|].
  assert (Hrs : 0 < size (of_list r)).
  { apply of_list_nonempty. intros ->. now apply Hr. }
  cbv zeta.
  match goal with
  | |- prf_in_unit (mkPRF ?p ?q _) =>
      assert (Hp : in_unit p); [| assert (Hq : in_unit q)]
  end.
  - destruct (Nat.ltb_spec 0 (size (of_list c))); [|apply in_unit_zero].
    apply ratio_in_unit; auto. apply count_matches_le_candidate.
  - apply ratio_in_unit; auto.
    apply count_matches_le_reference, of_list_NoDup.
  - repeat split; simpl; auto using f1_in_unit.
Qed.

(** ROUGE-L. *)
Lemma rougeL_in_unit c r : prf_in_unit (rougeL_of c r).
Proof.
  unfold rougeL_of. cbv zeta.
  match goal with
  | |- prf_in_unit (mkPRF ?p ?q _) =>
      assert (Hp : in_unit p); [| assert (Hq : in_unit q)]
  end.
  - destruct (Nat.ltb_spec 0 (List.length c)); [|apply in_unit_zero].
    apply ratio_in_unit; auto. apply lcsLength_le_l.
  - destruct (Nat.ltb_spec 0 (List.length r)); [|apply in_unit_zero].
    apply ratio_in_unit; auto. apply lcsLength_le_r.
  - repeat split; simpl; auto using f1_in_unit.
Qed.

Lemma better_in_unit s best :
  prf_in_unit s -> prf_in_unit best -> prf_in_unit (better s best).
Proof. intros Hs Hb. unfold better. destruct (_ >? _)%js; auto. Qed.

Lemma rouge_step_in_unit t u b best reference :
  scores_in_unit best -> scores_in_unit (rouge_step t u b best reference).
Proof.
  intros (H1 & H2 & HL). unfold rouge_step. repeat split; simpl;
    apply better_in_unit; auto using overlap_in_unit, rougeL_in_unit.
Qed.

(** The loop over the references keeps the bounds. *)
Lemma rouge_fold_in_unit t u b refs : forall best,
  scores_in_unit best -> scores_in_unit (fold_left (rouge_step t u b) refs best).
Proof.
  induction refs as [|r refs IH]; intros best Hb; simpl; auto.
  apply IH, rouge_step_in_unit, Hb.
Qed.

(** C7. ROUGE bounds: for every candidate string and every reference input
    (a single string or a sequence of strings), each of the nine numbers
    returned by [calculateROUGE] (precision, recall and f1 of rouge1, rouge2
    and rougeL) is a finite number of the closed interval [[0, 1]]. *)
Theorem calculateROUGE_bounds (candidate : string) (refs : references) :
  scores_in_unit (calculateROUGE candidate refs).
Proof.
  assert (Hz : scores_in_unit (mkROUGE zeroPRF zeroPRF zeroPRF))
    by (repeat split; apply in_unit_zero).
  unfold calculateROUGE. destruct (_ || _); auto.
  now apply rouge_fold_in_unit.
Qed.

End RougeBounds.

Section RougeIdentity.

Import JSString JSNum JSSet Rouge LcsSpec RougeSpec.

Lemma f1_perfect p r : eqv p one -> eqv r one -> eqv (f1_of p r) one.
Proof.
  destruct p as [a| | |], r as [b| | |]; simpl; try tauto.
  intros Ha Hb. unfold f1_of.
  change (Fin a + Fin b)%js with (Fin (a + b)).
  assert (Hpos : (0 < a + b)%Q) by (rewrite Ha, Hb; reflexivity).
  destruct (Fin (a + b) >? zero)%js eqn:E.
  - change (Fin 2 * Fin a * Fin b)%js with (Fin (2 * a * b)).
    unfold div. rewrite (Qis_zero_pos Hpos). simpl.
    rewrite Ha, Hb. reflexivity.
  - apply gt_zero_Fin in Hpos. congruence.
Qed.

(** A non-empty list of n-grams overlaps perfectly with itself. *)
Lemma overlap_perfect u : u <> [] -> prf_perfect (calculatePrecisionRecallF1 u u).
Proof.
  intros Hu. unfold calculatePrecisionRecallF1.
  destruct (Nat.eqb_spec (List.length u) 0) as [H0|_].
  { destruct u; [congruence | discriminate]. }
  pose proof (of_list_nonempty Hu) as Hsize.
  cbv zeta. rewrite count_matches_self.
  destruct (Nat.ltb_spec 0 (size (of_list u))); [|lia].
  repeat split; cbn [precision recall f1]; auto using f1_perfect, ratio_one.
Qed.

Lemma rougeL_perfect t : t <> [] -> prf_perfect (rougeL_of t t).
Proof.
  intros Ht. unfold rougeL_of. cbv zeta. rewrite lcsLength_self.
  assert (Hlen : 0 < List.length t) by (destruct t; [congruence | simpl; lia]).
  destruct (Nat.ltb_spec 0 (List.length t)); [|lia].
  repeat split; cbn [precision recall f1]; auto using f1_perfect, ratio_one.
Qed.

Lemma better_perfect s : prf_perfect s -> better s zeroPRF = s.
Proof.
  intros (_ & _ & Hf). unfold better. destruct (f1 s) as [q| | |]; simpl in Hf; try tauto.
  assert (H : (Fin q >? f1 zeroPRF)%js = true).
  { apply gt_zero_Fin. rewrite Hf. reflexivity. }
  now rewrite H.
Qed.

(** C6. ROUGE identity: for every string [X] that tokenizes to at least two
    distinct words ([a] and [b] below; such an [X] is not blank),
    [calculateROUGE X X] has f1 equal to 1 for rouge1, rouge2 and rougeL. *)
Theorem calculateROUGE_identity (X a b : string) :
  In a (tokenize X) -> In b (tokenize X) -> a <> b ->
  eqv (f1 (rouge1 (calculateROUGE X (OneReference X)))) one /\
  eqv (f1 (rouge2 (calculateROUGE X (OneReference X)))) one /\
  eqv (f1 (rougeL (calculateROUGE X (OneReference X)))) one.
Proof.
  intros Ha Hb Hab.
  pose proof (two_distinct_length _ Ha Hb Hab) as Hlen.
  assert (Ht : tokenize X <> []) by (intros E; rewrite E in Ha; destruct Ha).
  assert (H1 : generateNGrams (tokenize X) 1 <> []).
  { intros E. apply (f_equal (@List.length _)) in E.
    rewrite generateNGrams_length in E. simpl in E. lia. }
  assert (H2 : generateNGrams (tokenize X) 2 <> []).
  { intros E. apply (f_equal (@List.length _)) in E.
    rewrite generateNGrams_length in E. simpl in E. lia. }
  unfold calculateROUGE. simpl as_array.
  rewrite (tokens_not_blank _ Ht). simpl.
  rewrite !better_perfect by auto using overlap_perfect, rougeL_perfect.
  repeat split; [apply overlap_perfect | apply overlap_perfect | apply rougeL_perfect]; auto.
Qed.

(** The first documented scenario. *)
Lemma calculateROUGE_identity_witness :
  In "the"%string (tokenize "the cat sat on the mat")
  /\ In "cat"%string (tokenize "the cat sat on the mat")
  /\ "the"%string <> "cat"%string
  /\ eqv (f1 (rouge1 (calculateROUGE "the cat sat on the mat"
                                     (OneReference "the cat sat on the mat")))) one
  /\ eqv (f1 (rouge2 (calculateROUGE "the cat sat on the mat"
                                     (OneReference "the cat sat on the mat")))) one
  /\ eqv (f1 (rougeL (calculateROUGE "the cat sat on the mat"
                                     (OneReference "the cat sat on the mat")))) one.
Proof.
  assert (Ha : In "the"%string (tokenize "the cat sat on the mat"))
    by (vm_compute; auto).
  assert (Hb : In "cat"%string (tokenize "the cat sat on the mat"))
    by (vm_compute; auto).
  assert (Hab : "the"%string <> "cat"%string) by discriminate.
  split; [exact Ha | split; [exact Hb | split; [exact Hab |]]].
  exact (@calculateROUGE_identity "the cat sat on the mat" "the" "cat" Ha Hb Hab).
Defined.

End RougeIdentity.

(** ** Perplexity *)

Section RealFacts.

Import JSReal PerplexitySpec.

Lemma filter_finite_length l :
  List.length (filter isFinite l) = List.length (finite_values l).
Proof. induction l as [|[] l IH]; simpl; auto. Qed.

Lemma div_count x k : 0 < k -> div (Fin x) (of_nat k) = Fin (x / INR k).
Proof.
  intros Hk. unfold div, of_nat.
  destruct (Req_dec_T (INR k) 0) as [E|_]; auto.
  apply (lt_0_INR k) in Hk. lra.
Qed.

(** The logarithm of a ratio of positive counts is a real number. *)
Lemma log_ratio a b :
  0 < a -> 0 < b -> log (div (of_nat a) (of_nat b)) = Fin (ln (INR a / INR b)).
Proof.
  intros Ha Hb. unfold of_nat at 1. rewrite div_count by auto. unfold log.
  assert (H : (0 < INR a / INR b)%R).
  { apply Rdiv_lt_0_compat; now apply lt_0_INR. }
  destruct (Req_dec_T _ 0); [lra|].
  destruct (Rlt_dec _ 0); [lra|]. reflexivity.
Qed.

End RealFacts.

Section FromLogProbs.

Import JSReal Perplexity PerplexitySpec OverflowSpec.

Local Abbreviation threshold := JSDouble.overflow_threshold.

Lemma threshold_pos : (0 < threshold)%R.
Proof. unfold JSDouble.overflow_threshold. apply IZR_lt. reflexivity. Qed.


Lemma overflow_in_range r :
  (- threshold < r < threshold)%R -> JSDouble.overflow (Fin r) = Fin r.
Proof.
  intros [H1 H2]. unfold JSDouble.overflow.
  destruct (Rle_dec threshold r); [lra|].
  destruct (Rle_dec r (- threshold)); [lra | reflexivity].
Qed.

(** Once the sum is infinite it stays so: the entries added are finite. *)
Lemma sum_stays_infinite l : forall positive,
  fold_left JSDouble.add (filter isFinite l) (signed_inf positive)
  = signed_inf positive.
Proof.
  induction l as [|x l IH]; intro positive; [reflexivity|].
  cbn [filter]. destruct x; cbn [isFinite]; auto.
  cbn [fold_left].
  destruct positive; unfold JSDouble.add; cbn [signed_inf add JSDouble.overflow].
  - exact (IH true).
  - exact (IH false).
Qed.

(** The loop of [reduce]: the exact sum, until a partial sum overflows. *)
Lemma overflowing_sum l : forall acc,
  fold_left JSDouble.add (filter isFinite l) (Fin acc)
  = match first_overflow acc (finite_values l) with
    | None => Fin (acc + total (finite_values l))
    | Some s => signed_inf (if Rlt_dec 0 s then true else false)
    end.
Proof.
  pose proof threshold_pos as Hpos.
  induction l as [|x l IH]; intro acc.
  - cbn. f_equal. lra.
  - destruct x as [r| | |]; cbn [filter isFinite finite_values]; auto.
    cbn [fold_left first_overflow].
    unfold JSDouble.add at 2. cbn [add JSDouble.overflow].
    destruct (Rle_dec threshold (acc + r)).
    + destruct (Rlt_dec 0 (acc + r)); [|lra].
      apply (sum_stays_infinite l true).
    + destruct (Rle_dec (acc + r) (- threshold)).
      * destruct (Rlt_dec 0 (acc + r)); [lra|].
        apply (sum_stays_infinite l false).
      * rewrite IH. destruct (first_overflow (acc + r) (finite_values l)); auto.
        cbn [total fold_right]. f_equal. unfold total. lra.
Qed.

Lemma first_overflow_bound rs : forall acc,
  (- threshold < acc < threshold)%R ->
  first_overflow acc rs = None ->
  (- threshold < acc + total rs < threshold)%R.
Proof.
  induction rs as [|r rs IH]; intros acc Hacc H.
  - cbn. lra.
  - cbn [first_overflow] in H.
    destruct (Rle_dec threshold (acc + r)); [discriminate|].
    destruct (Rle_dec (acc + r) (- threshold)); [discriminate|].
    assert (Hr : (- threshold < acc + r < threshold)%R) by lra.
    pose proof (IH _ Hr H) as Hrest.
    unfold total in *. cbn [fold_right]. lra.
Qed.

Lemma mean_in_range s k :
  0 < k -> (- threshold < s < threshold)%R ->
  (- threshold < s / INR k < threshold)%R.
Proof.
  intros Hk [H1 H2]. pose proof threshold_pos as Hpos.
  assert (Hn : (1 <= INR k)%R) by (apply (le_INR 1); lia).
  assert (Hinv : (0 < / INR k <= 1)%R).
  { split; [apply Rinv_0_lt_compat; lra|].
    rewrite <- Rinv_1. apply Rinv_le_contravar; lra. }
  unfold Rdiv. destruct (Rle_dec 0 s); split; nra.
Qed.

Lemma exp_overflow a :
  JSDouble.exp (Fin a)
  = if Rle_dec threshold (Rtrigo_def.exp a) then PosInf
    else Fin (Rtrigo_def.exp a).
Proof.
  unfold JSDouble.exp. cbn [exp JSDouble.overflow].
  destruct (Rle_dec threshold (Rtrigo_def.exp a)); [reflexivity|].
  pose proof (exp_pos a). pose proof threshold_pos.
  destruct (Rle_dec (Rtrigo_def.exp a) (- threshold)); [lra | reflexivity].
Qed.


Lemma from_log_probs_average l :
  finite_values l <> [] ->
  calculatePerplexityFromLogProbs l
  = let averageLogProbability :=
      JSDouble.div (fold_left JSDouble.add (filter isFinite l) (Fin 0))
                   (of_nat (List.length (finite_values l))) in
    finish (JSDouble.exp (neg averageLogProbability)) averageLogProbability
           (List.length l).
Proof.
  intros Hfin. unfold calculatePerplexityFromLogProbs.
  destruct (Nat.eqb_spec (List.length l) 0) as [E|_].
  { destruct l; [now elim Hfin | discriminate]. }
  rewrite filter_finite_length.
  destruct (Nat.eqb_spec (List.length (finite_values l)) 0) as [E|E].
  { destruct (finite_values l); [now elim Hfin | discriminate]. }
  reflexivity.
Qed.


(** No partial sum overflows: the mean, and [exp] of its opposite. *)
Lemma from_log_probs_in_range l :
  finite_values l <> [] ->
  first_overflow 0 (finite_values l) = None ->
  let result := calculatePerplexityFromLogProbs l in
  averageLogProbability result = Fin (mean (finite_values l)) /\
  perplexity result
  = if Rle_dec threshold (Rtrigo_def.exp (- mean (finite_values l)))
    then PosInf
    else Fin (Rtrigo_def.exp (- mean (finite_values l))%R).
Proof.
  intros Hfin Ef. cbv zeta. pose proof threshold_pos as Hpos.
  rewrite (@from_log_probs_average l Hfin). cbv zeta.
  rewrite overflowing_sum, Ef.
  assert (H0 : (- threshold < 0 < threshold)%R) by lra.
  pose proof (first_overflow_bound _ H0 Ef) as Hsum.
  assert (Hk : 0 < List.length (finite_values l)).
  { destruct (finite_values l); [now elim Hfin | simpl; lia]. }
  pose proof (mean_in_range Hk Hsum) as Hmean.
  unfold JSDouble.div. rewrite div_count by exact Hk.
  rewrite (overflow_in_range Hmean). cbn [neg].
  rewrite exp_overflow. unfold mean, finish.
  replace (0 + total (finite_values l))%R with (total (finite_values l)) by lra.
  cbn [isFinite averageLogProbability perplexity].
  split; [reflexivity|].
  destruct (Rle_dec threshold _); reflexivity.
Qed.






Lemma exp_multiple n x : Rtrigo_def.exp (INR n * x) = (Rtrigo_def.exp x ^ n)%R.
Proof.
  induction n as [|n IH].
  - cbn [INR pow]. rewrite Rmult_0_l. apply exp_0.
  - rewrite S_INR, Rmult_plus_distr_r, Rmult_1_l, exp_plus, IH. cbn [pow]. ring.
Qed.

Lemma exp_1000_overflows : (JSDouble.overflow_threshold <= Rtrigo_def.exp 1000)%R.
Proof.
  replace 1000%R with (INR 2000 * / 2)%R.
  2:{ rewrite INR_IZR_INZ. change (Z.of_nat 2000) with 2000%Z. lra. }
  rewrite exp_multiple.
  assert (Hhalf : (3 / 2 <= Rtrigo_def.exp (/ 2))%R).
  { pose proof (exp_ineq1 (/ 2)). lra. }
  apply Rle_trans with ((3 / 2) ^ 2000)%R; [|apply pow_incr; lra].
  assert (Hpow : ((3 / 2) ^ 2000 * 2 ^ 2000 = 3 ^ 2000)%R).
  { rewrite <- Rpow_mult_distr. f_equal. lra. }
  assert (H2 : (0 < 2 ^ 2000)%R) by (apply pow_lt; lra).
  apply Rmult_le_reg_r with (2 ^ 2000)%R; [exact H2|].
  rewrite Hpow. unfold JSDouble.overflow_threshold.
  rewrite !pow_IZR, <- mult_IZR. apply IZR_le.
  apply Z.leb_le. vm_compute. reflexivity.
Qed.

(** [Math.exp(1000)] is [Infinity]. *)
Lemma perplexity_overflow_example :
  let result := calculatePerplexityFromLogProbs [Fin (-1000)] in
  averageLogProbability result = Fin (-1000) /\ perplexity result = PosInf.
Proof.
  cbv zeta. pose proof threshold_pos as Hpos.
  assert (Hbig : (1000 < JSDouble.overflow_threshold)%R).
  { unfold JSDouble.overflow_threshold. apply IZR_lt. reflexivity. }
  assert (Hfin : finite_values [Fin (-1000)] <> []) by discriminate.
  assert (Ef : first_overflow 0 (finite_values [Fin (-1000)]) = None).
  { cbn [finite_values first_overflow].
    destruct (Rle_dec JSDouble.overflow_threshold (0 + -1000)); [lra|].
    destruct (Rle_dec (0 + -1000) (- JSDouble.overflow_threshold)); [lra|].
    reflexivity. }
  destruct (@from_log_probs_in_range [Fin (-1000)] Hfin Ef) as [Havg Hppl].
  assert (Hmean : mean (finite_values [Fin (-1000)]) = (-1000)%R).
  { unfold mean, total. cbn [finite_values fold_right List.length INR]. lra. }
  rewrite Hmean in Havg, Hppl. rewrite Havg, Hppl.
  replace (- -1000)%R with 1000%R by lra.
  destruct (Rle_dec JSDouble.overflow_threshold (Rtrigo_def.exp 1000)) as [_|H];
    [split; reflexivity | elim H; exact exp_1000_overflows].
Qed.

End FromLogProbs.

Section NGramModel.

Import JSString JSReal Perplexity PerplexitySpec.

Lemma slice_window {A} (l : list A) (i k : nat) :
  i + k <= List.length l ->
  slice l (Z.of_nat i) (Z.of_nat i + Z.of_nat k) = firstn k (skipn i l).
Proof.
  intros H. unfold slice, clamp_index.
  destruct (Z.ltb_spec (Z.of_nat i) 0); [lia|].
  destruct (Z.ltb_spec (Z.of_nat i + Z.of_nat k) 0); [lia|].
  rewrite !Z.min_l by lia. f_equal; [lia | f_equal; lia].
Qed.

Lemma loop_upto_positions (len : nat) (n : nat) :
  loop_upto (Z.of_nat len - Z.of_nat n) = map Z.of_nat (seq 0 (len + 1 - n)).
Proof. unfold loop_upto. do 2 f_equal. lia. Qed.

Lemma model_fold (f g : Z -> string) ps : forall m1 m2,
  fold_left (fun '(ngramCounts, contextCounts) i =>
               (JSMap.incr ngramCounts (f i), JSMap.incr contextCounts (g i)))
            ps (m1, m2)
  = (fold_left JSMap.incr (map f ps) m1, fold_left JSMap.incr (map g ps) m2).
Proof. induction ps as [|p ps IH]; intros m1 m2; simpl; auto. Qed.

Lemma score_fold (num den : Z -> nat) ps : forall t k,
  (forall i, In i ps -> 0 < num i /\ 0 < den i) ->
  fold_left (fun '(totalLogProb, validNGrams) i =>
               (add totalLogProb (log (div (of_nat (num i)) (of_nat (den i)))),
                S validNGrams))
            ps (Fin t, k)
  = (Fin (t + total (map (fun i => ln (INR (num i) / INR (den i))) ps)),
     k + List.length ps).
Proof.
  induction ps as [|p ps IH]; intros t k Hpos; cbn [fold_left map List.length].
  - f_equal; [f_equal; unfold total; simpl; lra | lia].
  - destruct (Hpos p (or_introl eq_refl)) as [Hn Hd].
    rewrite log_ratio by auto. cbn [add].
    rewrite IH by (intros i Hi; apply Hpos; now right).
    f_equal; [f_equal; unfold total; simpl; lra | lia].
Qed.

Lemma log_fold (num den : string -> nat) ts : forall t,
  (forall x, In x ts -> 0 < num x /\ 0 < den x) ->
  fold_left (fun total token =>
               add total (log (div (of_nat (num token)) (of_nat (den token)))))
            ts (Fin t)
  = Fin (t + total (map (fun x => ln (INR (num x) / INR (den x))) ts)).
Proof.
  induction ts as [|x ts IH]; intros t Hpos; cbn [fold_left map].
  - f_equal. unfold total; simpl. lra.
  - destruct (Hpos x (or_introl eq_refl)) as [Hn Hd].
    rewrite log_ratio by auto. cbn [add].
    rewrite IH by (intros y Hy; apply Hpos; now right).
    f_equal. unfold total; simpl. lra.
Qed.

Section Windows.

Variable tokens : list string.
Variable n : nat.
Hypothesis n_pos : 1 <= n.

Lemma position_bound i : In i (positions tokens n) -> i + n <= List.length tokens.
Proof. unfold positions. rewrite in_seq. lia. Qed.

(** The strings the loops build are the n-grams and their contexts. *)
Lemma ngram_at_key i :
  In i (positions tokens n) ->
  ngram_at tokens (Z.of_nat n) (Z.of_nat i) = ngram_key tokens n i.
Proof.
  intros Hi. unfold ngram_at, ngram_key, ngram_tokens.
  now rewrite slice_window by now apply position_bound.
Qed.

Lemma context_at_key i :
  In i (positions tokens n) ->
  context_at tokens (Z.of_nat n) (Z.of_nat i) = context_key tokens n i.
Proof.
  intros Hi. apply position_bound in Hi.
  unfold context_at, context_key, ngram_tokens.
  replace (Z.of_nat i + Z.of_nat n - 1)%Z
    with (Z.of_nat i + Z.of_nat (n - 1))%Z by lia.
  rewrite slice_window by lia.
  rewrite firstn_firstn. now rewrite Nat.min_l by lia.
Qed.

(** The first loop. *)
Lemma build_model_keys :
  build_model tokens (Z.of_nat n)
  = (fold_left JSMap.incr (ngram_keys tokens n) [],
     fold_left JSMap.incr (context_keys tokens n) []).
Proof.
  unfold build_model. rewrite model_fold, loop_upto_positions.
  fold (positions tokens n). rewrite !map_map.
  unfold ngram_keys, context_keys. f_equal; f_equal; apply map_ext_in; intros i Hi.
  - now apply ngram_at_key.
  - now apply context_at_key.
Qed.

(** The second loop. *)
Lemma score_model_spec :
  let '(ngramCounts, contextCounts) := build_model tokens (Z.of_nat n) in
  score_model tokens (Z.of_nat n) ngramCounts contextCounts
  = (Fin (total (map (smoothed_log_prob tokens n) (positions tokens n))),
     List.length (positions tokens n)).
Proof.
  rewrite build_model_keys. unfold score_model, zero. cbv zeta.
  rewrite loop_upto_positions. fold (positions tokens n).
  set (m1 := fold_left JSMap.incr (ngram_keys tokens n) []).
  set (m2 := fold_left JSMap.incr (context_keys tokens n) []).
  rewrite (@score_fold
             (fun i => JSMap.get_count m1 (ngram_at tokens (Z.of_nat n) i) + 1)
             (fun i => JSMap.get_count m2 (context_at tokens (Z.of_nat n) i)
                       + JSMap.size m1 + 1)) by (intros; lia).
  rewrite length_map, map_map. f_equal. f_equal. rewrite Rplus_0_l. f_equal.
  apply map_ext_in. intros i Hi.
  rewrite ngram_at_key, context_at_key by auto.
  unfold smoothed_log_prob, count_ngram, count_context, vocabulary, m1, m2.
  rewrite !get_count_tally, size_tally. reflexivity.
Qed.

End Windows.

(** C5. For every text whose token count is at least [ngramOrder] (an order
    of at least 1), [calculatePerplexity] returns as [averageLogProbability]
    the arithmetic mean, over all n-gram positions of the token sequence, of
    [log ((count(ngram) + 1) / (count(context) + V + 1))], where the counts
    are the occurrence counts of the n-gram and of its context (its first
    [ngramOrder - 1] tokens) over the n-gram positions of that same text and
    [V] is the number of distinct n-grams; the perplexity is [exp] of the
    opposite of the average, and the returned record is the one that
    [finish] normalises (a non-finite perplexity to [+Infinity], a non-finite
    log-probability to [-Infinity]). *)
Theorem calculatePerplexity_ngram_model (text : string) (ngramOrder : Z) :
  (1 <= ngramOrder)%Z ->
  (ngramOrder <= Z.of_nat (List.length (Rouge.tokenize text)))%Z ->
  let tokens := Rouge.tokenize text in
  let average := average_log_prob tokens (Z.to_nat ngramOrder) in
  calculatePerplexity text ngramOrder
  = finish (exp (neg (Fin average))) (Fin average) (List.length tokens)
  /\ averageLogProbability (calculatePerplexity text ngramOrder) = Fin average
  /\ perplexity (calculatePerplexity text ngramOrder)
     = Fin (Rtrigo_def.exp (- average)%R).
Proof.
  intros Hn Hlen tokens average.
  assert (Hcalc : calculatePerplexity text ngramOrder
                  = finish (exp (neg (Fin average))) (Fin average)
                           (List.length tokens));
    [| rewrite Hcalc; repeat split; reflexivity].
  unfold calculatePerplexity. fold tokens. fold tokens in Hlen.
  assert (Ht : tokens <> []) by (intros E; rewrite E in Hlen; simpl in Hlen; lia).
  rewrite (tokens_not_blank _ Ht).
  destruct (Z.ltb_spec (Z.of_nat (List.length tokens)) ngramOrder); [lia|].
  set (n := Z.to_nat ngramOrder).
  assert (Hn' : 1 <= n) by lia.
  replace ngramOrder with (Z.of_nat n) by lia.
  pose proof (score_model_spec tokens Hn') as Hscore.
  destruct (build_model tokens (Z.of_nat n)) as [ngramCounts contextCounts].
  rewrite Hscore.
  assert (Hcount : 0 < List.length (positions tokens n)).
  { unfold positions. rewrite length_seq. lia. }
  destruct (Nat.ltb_spec 0 (List.length (positions tokens n))); [|lia].
  rewrite div_count by auto.
  unfold average, average_log_prob, mean. fold n. now rewrite length_map.
Qed.

(** The bigram model of a six-word text. *)
Lemma calculatePerplexity_ngram_model_witness :
  (1 <= 2)%Z
  /\ (2 <= Z.of_nat (List.length (Rouge.tokenize "to be or not to be")))%Z
  /\ averageLogProbability (calculatePerplexity "to be or not to be" 2)
     = Fin (average_log_prob (Rouge.tokenize "to be or not to be") (Z.to_nat 2)).
Proof.
  assert (H1 : (1 <= 2)%Z) by lia.
  assert (H2 : (2 <= Z.of_nat (List.length (Rouge.tokenize "to be or not to be")))%Z)
    by (vm_compute; discriminate).
  split; [exact H1 | split; [exact H2 |]].
  exact (proj1 (proj2 (@calculatePerplexity_ngram_model "to be or not to be" 2 H1 H2))).
Defined.

End NGramModel.

Section ShortText.

Import JSString JSReal Perplexity PerplexitySpec.

(** The unigram fallback on a non-empty token sequence. *)
Lemma calculateUnigramPerplexity_spec tokens :
  tokens <> [] ->
  calculateUnigramPerplexity tokens
  = finish (exp (neg (Fin (unigram_average tokens))))
           (Fin (unigram_average tokens)) (List.length tokens).
Proof.
  intros Ht. unfold calculateUnigramPerplexity.
  assert (Hlen : 0 < List.length tokens) by (destruct tokens; [congruence | simpl; lia]).
  destruct (Nat.eqb_spec (List.length tokens) 0); [lia|].
  cbv zeta. unfold zero.
  set (wordCounts := fold_left JSMap.incr tokens []).
  rewrite (@log_fold (fun token => JSMap.get_count wordCounts token + 1)
                     (fun _ => List.length tokens + JSMap.size wordCounts + 1))
    by (intros; lia).
  rewrite div_count by auto.
  assert (Havg : ((0 + total
            (map (fun x =>
                    ln (INR (JSMap.get_count wordCounts x + 1)
                        / INR (List.length tokens + JSMap.size wordCounts + 1)))
                 tokens)) / INR (List.length tokens))%R
          = unigram_average tokens).
  { unfold unigram_average, mean. rewrite length_map, Rplus_0_l. do 2 f_equal.
    apply map_ext. intros x. unfold unigram_log_prob, wordCounts.
    now rewrite get_count_tally, size_tally. }
  now rewrite Havg.
Qed.

(** C4, as the code has it.  A text that is not blank and tokenizes to
    fewer than [ngramOrder] tokens is scored by the unigram fallback; the
    perplexity it returns is finite when the text has at least one token,
    and [+Infinity] when it has none (a text of punctuation only). *)
Theorem calculatePerplexity_short_text (text : string) (ngramOrder : Z) :
  (String.length (trim text) =? 0) = false ->
  (Z.of_nat (List.length (Rouge.tokenize text)) < ngramOrder)%Z ->
  calculatePerplexity text ngramOrder
  = calculateUnigramPerplexity (Rouge.tokenize text)
  /\ (1 <= List.length (Rouge.tokenize text) ->
      isFinite (perplexity (calculatePerplexity text ngramOrder)) = true)
  /\ (List.length (Rouge.tokenize text) = 0 ->
      perplexity (calculatePerplexity text ngramOrder) = PosInf).
Proof.
  intros Hblank Hshort.
  assert (Hroute : calculatePerplexity text ngramOrder
                   = calculateUnigramPerplexity (Rouge.tokenize text)).
  { unfold calculatePerplexity. rewrite Hblank.
    destruct (Z.ltb_spec (Z.of_nat (List.length (Rouge.tokenize text))) ngramOrder);
      [reflexivity | lia]. }
  rewrite Hroute. split; [reflexivity | split].
  - intros Hlen. rewrite calculateUnigramPerplexity_spec; [reflexivity|].
    intros E. rewrite E in Hlen. simpl in Hlen. lia.
  - intros Hlen. destruct (Rouge.tokenize text); [reflexivity | discriminate].
Qed.

(** A two-word text under the trigram default. *)
Lemma calculatePerplexity_short_text_witness :
  (String.length (trim "hello world") =? 0) = false
  /\ (Z.of_nat (List.length (Rouge.tokenize "hello world")) < 3)%Z
  /\ calculatePerplexity "hello world" 3
     = calculateUnigramPerplexity (Rouge.tokenize "hello world")
  /\ isFinite (perplexity (calculatePerplexity "hello world" 3)) = true.
Proof.
  assert (H1 : (String.length (trim "hello world") =? 0) = false)
    by (vm_compute; reflexivity).
  assert (H2 : (Z.of_nat (List.length (Rouge.tokenize "hello world")) < 3)%Z)
    by (vm_compute; reflexivity).
  destruct (@calculatePerplexity_short_text "hello world" 3 H1 H2) as (Hr & Hf & _).
  split; [exact H1 | split; [exact H2 | split; [exact Hr |]]].
  apply Hf. vm_compute. lia.
Defined.

(** C4, as it is worded, fails on a text of punctuation: ["!!!"] is not blank
    and has fewer than three tokens (it has none), and its perplexity is not
    finite. *)
Lemma short_text_not_always_finite :
  (String.length (trim "!!!") =? 0) = false
  /\ (Z.of_nat (List.length (Rouge.tokenize "!!!")) < 3)%Z
  /\ isFinite (perplexity (calculatePerplexity "!!!" 3)) = false.
Proof. split; [|split]; reflexivity. Qed.

End ShortText.

(** ** Emotion analysis *)

Section TrendFacts.

Import JSNum EmotionModel Aggregate EmotionSpec.

Lemma average_nil : average [] = NaN.
Proof. reflexivity. Qed.

Lemma sub_NaN x : (x - NaN)%js = NaN.
Proof. now destruct x. Qed.

(** The first half of a single score is empty, and its mean is [0 / 0]. *)
Lemma trend_diff_single c : trend_diff [c] = NaN.
Proof.
  unfold trend_diff. cbv zeta. change (List.length [c] / 2) with 0.
  cbn [firstn]. rewrite average_nil. apply sub_NaN.
Qed.

Lemma trends_of_NaN : trends_of NaN = mkTrends false false false.
Proof. reflexivity. Qed.

(** Away from [NaN] the three tests partition the numbers. *)
Lemma trends_of_exclusive d : d <> NaN -> exactly_one (trends_of d).
Proof.
  destruct d as [q| | |]; intros H; try congruence; try exact I.
  unfold exactly_one, trends_of, gt, lt, le, abs. cbn [improving declining stable].
  destruct (Qlt_le_dec 0.1 q) as [Hhi|Hhi]; [|destruct (Qlt_le_dec q (-0.1)) as [Hlo|Hlo]].
  - rewrite (Qle_bool_false Hhi), (@Qle_bool_true (-0.1) q) by lra.
    rewrite (@Qle_bool_false (Qabs q) 0.1) by (apply Qabs_above; lra). exact I.
  - rewrite (@Qle_bool_true q 0.1), (Qle_bool_false Hlo) by lra.
    rewrite (@Qle_bool_false (Qabs q) 0.1) by (apply Qabs_above; lra). exact I.
  - rewrite (@Qle_bool_true q 0.1), (@Qle_bool_true (-0.1) q) by lra.
    rewrite (@Qle_bool_true (Qabs q) 0.1) by (apply Qabs_Qle_condition; lra).
    exact I.
Qed.

Lemma sum_finite_from scores : forall q,
  all_finite scores -> exists q', fold_left add scores (Fin q) = Fin q'.
Proof.
  induction scores as [|x scores IH]; intros q H; simpl; eauto.
  inversion H as [|? ? Hx Hrest]; subst.
  destruct x; try discriminate. simpl. now apply IH.
Qed.

Lemma average_finite scores :
  scores <> [] -> all_finite scores -> exists q, average scores = Fin q.
Proof.
  intros Hne H. unfold average, sum, zero.
  destruct (sum_finite_from 0 H) as [t ->].
  assert (Hlen : 0 < List.length scores) by (destruct scores; [congruence | simpl; lia]).
  unfold div, of_nat. rewrite (Qis_zero_pos (inject_nat_pos Hlen)). eauto.
Qed.

Lemma all_finite_firstn k : forall scores,
  all_finite scores -> all_finite (firstn k scores).
Proof.
  induction k as [|k IH]; intros [|x scores] H; simpl; try constructor;
    inversion H; subst; auto. now apply IH.
Qed.

Lemma all_finite_skipn k : forall scores,
  all_finite scores -> all_finite (skipn k scores).
Proof.
  induction k as [|k IH]; intros [|x scores] H; simpl; auto.
  inversion H; subst. now apply IH.
Qed.

Lemma trend_diff_finite scores :
  2 <= List.length scores -> all_finite scores ->
  exists q, trend_diff scores = Fin q.
Proof.
  intros Hlen H. unfold trend_diff. cbv zeta.
  assert (Hhalf : 1 <= List.length scores / 2 < List.length scores).
  { pose proof (Nat.div_mod_eq (List.length scores) 2) as Hdiv.
    pose proof (Nat.mod_upper_bound (List.length scores) 2) as Hmod. lia. }
  destruct (@average_finite (firstn (List.length scores / 2) scores)) as [a ->].
  - intros E. apply (f_equal (@List.length _)) in E.
    rewrite length_firstn in E. cbn [List.length] in E. lia.
  - now apply all_finite_firstn.
  - destruct (@average_finite (skipn (List.length scores / 2) scores)) as [b ->].
    + intros E. apply (f_equal (@List.length _)) in E.
      rewrite length_skipn in E. cbn [List.length] in E. lia.
    + now apply all_finite_skipn.
    + simpl. eauto.
Qed.

(** With two or more finite confidence scores the flags are exclusive. *)
Lemma trend_exclusive_from_two scores :
  2 <= List.length scores -> all_finite scores ->
  exactly_one (trends_of (trend_diff scores)).
Proof.
  intros Hlen H. destruct (trend_diff_finite Hlen H) as [q ->].
  apply trends_of_exclusive. discriminate.
Qed.

End TrendFacts.

Section AggregateFacts.

Import JSNum EmotionModel Aggregate EmotionSpec.

Variable engaged_test : EmotionFeatures -> bool.

Lemma aggregate_trends messages :
  emotionalTrends (aggregate engaged_test messages)
  = trends_of (trend_diff (map (fun m => confidence_of (snd m)) messages)).
Proof. reflexivity. Qed.

Lemma aggregate_single m :
  emotionalTrends (aggregate engaged_test [m]) = mkTrends false false false.
Proof.
  rewrite aggregate_trends. cbn [map]. now rewrite trend_diff_single.
Qed.

Lemma map_indexed_map {A B C} (f : nat -> A -> B) (g : B -> C) (h : A -> C) l :
  (forall k x, g (f k x) = h x) ->
  forall k, map g (map_indexed f k l) = map h l.
Proof.
  intros Hfg. induction l as [|x l IH]; intro k; simpl; auto.
  now rewrite Hfg, IH.
Qed.

Lemma aggregate_states messages :
  map emotionalState (detailedBreakdown (aggregate engaged_test messages))
  = map (fun m => classify engaged_test (snd m)) messages.
Proof. apply map_indexed_map. reflexivity. Qed.

Lemma aggregate_emotions messages :
  map emotions (detailedBreakdown (aggregate engaged_test messages))
  = map snd messages.
Proof. apply map_indexed_map. reflexivity. Qed.

Lemma aggregate_texts messages :
  map entryText (detailedBreakdown (aggregate engaged_test messages))
  = map (fun m => excerpt (fst m)) messages.
Proof. apply map_indexed_map. reflexivity. Qed.

Lemma empty_result_no_data insight recommendation :
  is_no_data_result (empty_result insight recommendation).
Proof. unfold is_no_data_result; simpl. repeat split; eauto. Qed.

End AggregateFacts.

(** The keyword extractor. *)

Section ExtractFacts.

Import JSString JSNum EmotionModel Aggregate EmotionSpec Regex TextEmotion.
Local Open Scope string_scope.

Lemma finite_Fin a : isFinite a = true -> exists q, a = Fin q.
Proof. destruct a; try discriminate. eauto. Qed.

Lemma add_finite a b :
  isFinite a = true -> isFinite b = true -> isFinite (a + b)%js = true.
Proof. now destruct a, b. Qed.

Lemma sub_finite a b :
  isFinite a = true -> isFinite b = true -> isFinite (a - b)%js = true.
Proof. now destruct a, b. Qed.

Lemma mul_finite a b :
  isFinite a = true -> isFinite b = true -> isFinite (a * b)%js = true.
Proof. now destruct a, b. Qed.

Lemma max_finite a b :
  isFinite a = true -> isFinite b = true -> isFinite (max a b) = true.
Proof. destruct a, b; try discriminate. intros _ _. unfold max. now destruct (le _ _). Qed.

Lemma min_finite a b :
  isFinite a = true -> isFinite b = true -> isFinite (min a b) = true.
Proof. destruct a, b; try discriminate. intros _ _. unfold min. now destruct (le _ _). Qed.

Lemma abs_finite a : isFinite a = true -> isFinite (abs a) = true.
Proof. now destruct a. Qed.

Lemma div_count_finite a k :
  isFinite a = true -> 0 < k -> isFinite (a / of_nat k)%js = true.
Proof.
  intros Ha Hk. destruct a; try discriminate.
  unfold div, of_nat. now rewrite (Qis_zero_pos (inject_nat_pos Hk)).
Qed.

Lemma set_finite (e : EmotionFeatures) k v :
  features_finite e -> isFinite v = true -> features_finite (JSMap.set e k v).
Proof.
  intros He Hv. induction e as [|[k' v'] e IH]; simpl.
  - repeat constructor. exact Hv.
  - inversion He as [|? ? Hv' He']; subst.
    destruct (String.eqb k k'); constructor; simpl; auto.
    apply IH. exact He'.
Qed.

Lemma get_finite (e : EmotionFeatures) k v :
  features_finite e -> JSMap.get e k = Some v -> isFinite v = true.
Proof.
  intros He. induction e as [|[k' v'] e IH]; simpl; [discriminate|].
  inversion He; subst. destruct (String.eqb k k'); auto.
  intros E; inversion E; subst; auto.
Qed.

Lemma or_default_finite (e : EmotionFeatures) k d :
  features_finite e -> isFinite d = true ->
  isFinite (or_default (JSMap.get e k) d) = true.
Proof.
  intros He Hd. unfold or_default.
  destruct (JSMap.get e k) as [v|] eqn:E; auto.
  destruct (truthy v); auto. eapply get_finite; eauto.
Qed.

Lemma keyword_step_finite (kws : list (string * Keywords)) lowerText : forall acc,
  Forall (fun kw => 0 < List.length (words (snd kw))
                    /\ isFinite (weight (snd kw)) = true) kws ->
  features_finite acc ->
  features_finite
    (fold_left
       (fun emotions '(emotion, kw) =>
          let count := count_included lowerText (words kw) in
          if (0 <? count)%nat
          then JSMap.set emotions emotion
                 (min (of_nat count / of_nat (List.length (words kw)) * weight kw)%js
                      (Fin 1))
          else emotions)
       kws acc).
Proof.
  induction kws as [|[emotion kw] kws IH]; intros acc Hk Hacc; cbn [fold_left]; auto.
  inversion Hk as [|? ? [Hlen Hw] Hrest]; subst. cbn [snd] in Hlen, Hw.
  apply IH; auto.
  destruct (0 <? _)%nat; auto.
  apply set_finite; auto.
  apply min_finite; auto. apply mul_finite; auto.
  now apply div_count_finite.
Qed.

Lemma keyword_pass_finite lowerText : features_finite (keyword_pass lowerText).
Proof.
  apply keyword_step_finite; [|constructor].
  unfold emotionKeywords. repeat constructor; simpl; lia.
Qed.

Lemma div_pos_finite a y :
  isFinite a = true -> (0 < y)%Q -> isFinite (a / Fin y)%js = true.
Proof.
  intros Ha Hy. destruct a; try discriminate.
  unfold div. now rewrite (Qis_zero_pos Hy).
Qed.

Lemma max_count_one t : 0 < t -> exists y, max (of_nat t) one = Fin y /\ (0 < y)%Q.
Proof.
  intros Ht. unfold max, of_nat, one. destruct (le _ _).
  - exists 1%Q. split; [reflexivity | reflexivity].
  - eexists. split; [reflexivity | now apply inject_nat_pos].
Qed.

Lemma analyzeSentiment_finite text : isFinite (score (analyzeSentiment text)) = true.
Proof.
  unfold analyzeSentiment. cbv zeta.
  destruct (_ =? 0)%nat eqn:E; [reflexivity|]. cbn [score].
  apply Nat.eqb_neq in E.
  destruct (@max_count_one
              (count_included (toLowerCase text) positiveWords
               + count_included (toLowerCase text) negativeWords
               + count_included (toLowerCase text) uncertaintyWords))
    as (y & -> & Hy); [lia|].
  apply div_pos_finite; auto.
Qed.

Lemma sentiment_pass_finite sentiment e :
  isFinite (score sentiment) = true -> features_finite e ->
  features_finite (sentiment_pass sentiment e).
Proof.
  intros Hs He. unfold sentiment_pass. cbv zeta.
  destruct (_ >? _)%js; [|destruct (_ <? _)%js]; auto.
  - repeat (apply set_finite || apply max_finite || apply or_default_finite
            || apply add_finite || apply mul_finite); auto.
  - repeat (apply set_finite || apply max_finite || apply min_finite
            || apply or_default_finite || apply sub_finite || apply add_finite
            || apply mul_finite || apply abs_finite); auto.
Qed.

Lemma question_pass_finite text e :
  features_finite e -> features_finite (question_pass text e).
Proof.
  intros He. unfold question_pass. destruct (test _ _); auto.
  repeat (apply set_finite || apply max_finite || apply or_default_finite); auto.
Qed.

Lemma statement_pass_finite text e :
  features_finite e -> features_finite (statement_pass text e).
Proof.
  unfold statement_pass. generalize confidentPatterns as patterns.
  intros patterns; revert e.
  induction patterns as [|p patterns IH]; intros e He; simpl; auto.
  apply IH. destruct (test _ _); auto.
  repeat (apply set_finite || apply max_finite || apply or_default_finite); auto.
Qed.

Lemma filler_pass_finite text e :
  features_finite e -> features_finite (filler_pass text e).
Proof.
  intros He. unfold filler_pass. cbv zeta. destruct (0 <? _)%nat; auto.
  repeat (apply set_finite || apply max_finite || apply min_finite
          || apply or_default_finite || apply sub_finite || apply mul_finite);
    auto.
Qed.

Lemma clamp_in_unit v : isFinite v = true -> in_unit (min (max v zero) one).
Proof.
  destruct v as [q| | |]; try discriminate. intros _.
  unfold max, min, zero, one, le.
  destruct (Qle_bool q 0) eqn:E0.
  - rewrite (@Qle_bool_true 0 1) by lra. simpl. lra.
  - assert (H0 : (0 < q)%Q).
    { apply Qnot_le_lt. intro H. apply Qle_bool_iff in H. congruence. }
    destruct (Qle_bool q 1) eqn:E1; simpl.
    + apply Qle_bool_iff in E1. lra.
    + lra.
Qed.

Lemma clamp_pass_in_unit e : features_finite e -> features_in_unit (clamp_pass e).
Proof.
  intros He. unfold clamp_pass. induction He as [|[k v] e Hv He IH]; simpl.
  - constructor.
  - constructor; auto. simpl. now apply clamp_in_unit.
Qed.

Lemma baseline_pass_in_unit e : features_in_unit e -> features_in_unit (baseline_pass e).
Proof.
  intros He. unfold baseline_pass. destruct e; simpl; auto.
  repeat constructor; simpl; lra.
Qed.

(** Every intensity that [extractEmotions] returns lies in [[0, 1]]. *)
Lemma extractEmotions_in_unit text : features_in_unit (extractEmotions text).
Proof.
  unfold extractEmotions. cbv zeta.
  apply baseline_pass_in_unit, clamp_pass_in_unit, filler_pass_finite,
    statement_pass_finite, question_pass_finite, sentiment_pass_finite;
    auto using analyzeSentiment_finite, keyword_pass_finite.
Qed.

Lemma in_unit_finite v : in_unit v -> isFinite v = true.
Proof. destruct v; simpl; tauto. Qed.

Lemma get_in_unit (e : EmotionFeatures) k v :
  features_in_unit e -> JSMap.get e k = Some v -> in_unit v.
Proof.
  intros He. induction He as [|[k' v'] e Hv He IH]; simpl; [discriminate|].
  destruct (String.eqb k k'); auto.
  intros E; inversion E; subst; auto.
Qed.

Lemma confidence_of_finite e :
  features_in_unit e -> isFinite (confidence_of e) = true.
Proof.
  intros He. unfold confidence_of, nullish.
  destruct (JSMap.get e "confidence") as [v|] eqn:E; [|reflexivity].
  eapply in_unit_finite, get_in_unit; eauto.
Qed.

(** With two or more interviewee messages exactly one flag of
    [analyzeTextEmotions] is set. *)
Lemma analyzeTextEmotions_trend_exclusive messages :
  2 <= List.length (filter (fun m => is_interviewee (speaker m)) messages) ->
  exactly_one (emotionalTrends (analyzeTextEmotions messages)).
Proof.
  intros Hlen. unfold analyzeTextEmotions. cbv zeta.
  destruct (Nat.eqb_spec (List.length (filter (fun m => is_interviewee (speaker m))
                                              messages)) 0); [lia|].
  rewrite aggregate_trends, map_map. cbn [snd].
  apply trend_exclusive_from_two; [now rewrite length_map|].
  unfold all_finite. apply Forall_map. apply Forall_forall. intros m _.
  apply confidence_of_finite, extractEmotions_in_unit.
Qed.

End ExtractFacts.

Section EmotionTheorems.

Import JSNum EmotionModel Aggregate EmotionSpec.
Local Open Scope string_scope.

Lemma filter_none {A} (p : A -> bool) l :
  (forall x, In x l -> p x = false) -> filter p l = [].
Proof.
  induction l as [|x l IH]; intros H; simpl; auto.
  rewrite (H x) by now left. apply IH. intros y Hy. apply H. now right.
Qed.

Lemma filter_idem {A} (p : A -> bool) l : filter p (filter p l) = filter p l.
Proof.
  induction l as [|x l IH]; simpl; auto.
  destruct (p x) eqn:E; simpl; rewrite ?E, IH; auto.
Qed.

(** C1, at the input where the code departs from it.  For a transcript whose
    only qualifying message is a single interviewee message, whatever its
    text and features, both aggregators return [improving], [declining] and
    [stable] all false: the first half of the confidence sequence is empty,
    its mean is [0 / 0 = NaN], and every comparison with [NaN] is false. *)
Theorem single_message_has_no_trend :
  (forall text e,
      emotionalTrends
        (Emotion.analyzeEmotions [Emotion.mkMessage interviewee text (Some e)])
      = mkTrends false false false)
  /\ (forall text,
         emotionalTrends
           (TextEmotion.analyzeTextEmotions [TextEmotion.mkMessage interviewee text])
         = mkTrends false false false).
Proof.
  split; intros; apply aggregate_single.
Qed.

(** The same holds for any transcript of which exactly one message
    qualifies. *)
Lemma analyzeEmotions_one_qualifying messages m :
  filter Emotion.qualifies messages = [m] ->
  emotionalTrends (Emotion.analyzeEmotions messages) = mkTrends false false false.
Proof.
  intros H. unfold Emotion.analyzeEmotions. cbv zeta. rewrite H.
  apply aggregate_single.
Qed.

Lemma analyzeTextEmotions_one_qualifying messages m :
  filter (fun m => is_interviewee (TextEmotion.speaker m)) messages = [m] ->
  emotionalTrends (TextEmotion.analyzeTextEmotions messages)
  = mkTrends false false false.
Proof.
  intros H. unfold TextEmotion.analyzeTextEmotions. cbv zeta. rewrite H.
  apply aggregate_single.
Qed.

(** With two or more qualifying messages whose confidence lies in
    [[0, 1]], the range of an intensity, exactly one flag of
    [analyzeEmotions] is set.  The range keeps the two half sums far from
    [Number.MAX_VALUE]: confidences such as [1e308] make both overflow, and
    [Infinity - Infinity] sets no flag. *)
Lemma analyzeEmotions_trend_exclusive messages :
  let qualifying := filter Emotion.qualifies messages in
  2 <= List.length qualifying ->
  Forall in_unit (map (fun m => confidence_of (Emotion.features_of m)) qualifying) ->
  exactly_one (emotionalTrends (Emotion.analyzeEmotions messages)).
Proof.
  cbv zeta. intros Hlen Hunit. unfold Emotion.analyzeEmotions. cbv zeta.
  destruct (Nat.eqb_spec (List.length (filter Emotion.qualifies messages)) 0); [lia|].
  rewrite aggregate_trends, map_map. cbn [snd].
  apply trend_exclusive_from_two; [now rewrite length_map|].
  unfold all_finite. revert Hunit. apply Forall_impl. exact in_unit_finite.
Qed.

(** The text-based aggregator labels every message by the priority order. *)
Lemma text_classify_by_priority e :
  classify TextEmotion.engaged_test e = state_by_priority e.
Proof.
  unfold classify, state_by_priority, TextEmotion.engaged_test,
    confidence_of, calmness_of, nervousness_of.
  destruct (JSMap.get e "nervousness"), (JSMap.get e "interest"); reflexivity.
Qed.

Lemma analyzeTextEmotions_states messages :
  map emotionalState (detailedBreakdown (TextEmotion.analyzeTextEmotions messages))
  = map (fun m => state_by_priority (TextEmotion.extractEmotions (TextEmotion.text m)))
        (filter (fun m => is_interviewee (TextEmotion.speaker m)) messages).
Proof.
  unfold TextEmotion.analyzeTextEmotions. cbv zeta.
  destruct (filter _ messages) as [|m ms] eqn:E; [reflexivity|].
  cbn [List.length Nat.eqb]. rewrite aggregate_states, map_map.
  apply map_ext. intros x. apply text_classify_by_priority.
Qed.

(** The feature-based aggregator does so too when neither [interest] nor
    [engagement] is present. *)
Lemma hume_classify_without_interest e :
  JSMap.get e "interest" = None -> JSMap.get e "engagement" = None ->
  classify Emotion.engaged_test e = state_by_priority e.
Proof.
  intros Hi He.
  unfold classify, state_by_priority, Emotion.engaged_test,
    confidence_of, calmness_of, nervousness_of.
  rewrite Hi, He.
  destruct (JSMap.get e "nervousness"); reflexivity.
Qed.

(** C2, at the input where [analyzeEmotions] departs from it.  A message
    with confidence 0.5, calmness 0.5 and interest 0.1 is ['uncertain'] by
    the priority order (0.1 is not greater than 0.6), and [analyzeEmotions]
    labels it ['engaged']: in [interest ?? engagement ?? 0 > 0.6] the
    comparison applies to the literal [0] alone. *)
Theorem analyzeEmotions_engaged_precedence :
  map emotionalState
      (detailedBreakdown
         (Emotion.analyzeEmotions
            [Emotion.mkMessage interviewee "It was fine." (Some mildly_interested)]))
  = [engaged]
  /\ state_by_priority mildly_interested = uncertain
  /\ map emotionalState
         (detailedBreakdown
            (aggregate TextEmotion.engaged_test [("It was fine.", mildly_interested)]))
     = [uncertain].
Proof. split; [|split]; reflexivity. Qed.

Lemma confidence_or_zero m :
  confidence_of (Emotion.features_of m) = intensity_or_zero "confidence" m.
Proof.
  unfold confidence_of, Emotion.features_of, intensity_or_zero.
  destruct (Emotion.emotionFeatures m) as [e|]; reflexivity.
Qed.

Lemma calmness_or_zero m :
  calmness_of (Emotion.features_of m) = intensity_or_zero "calmness" m.
Proof.
  unfold calmness_of, Emotion.features_of, intensity_or_zero.
  destruct (Emotion.emotionFeatures m) as [e|]; reflexivity.
Qed.

(** The statistics of [analyzeEmotions] when some message qualifies. *)
Lemma analyzeEmotions_statistics messages :
  let qualifying := filter Emotion.qualifies messages in
  let confidenceScores := map (intensity_or_zero "confidence") qualifying in
  let calmnessScores := map (intensity_or_zero "calmness") qualifying in
  let result := Emotion.analyzeEmotions messages in
  qualifying <> [] ->
  overallConfidence result
  = (sum confidenceScores / of_nat (List.length qualifying))%js
  /\ averageCalmness result
     = (sum calmnessScores / of_nat (List.length qualifying))%js
  /\ emotionalStability result
     = stability_of (variance_of confidenceScores (overallConfidence result))
  /\ emotionalTrends result = trends_of (trend_diff confidenceScores)
  /\ dominantEmotions result
     = dominant_of (map Emotion.features_of qualifying).
Proof.
  cbv zeta. intros Hne. unfold Emotion.analyzeEmotions. cbv zeta.
  destruct (filter Emotion.qualifies messages) as [|m ms] eqn:E;
    [now elim Hne|].
  cbn [List.length Nat.eqb]. unfold aggregate. cbv zeta.
  cbn [overallConfidence averageCalmness emotionalStability emotionalTrends
       dominantEmotions].
  rewrite !map_map. cbn [snd].
  rewrite (map_ext _ _ confidence_or_zero), (map_ext _ _ calmness_or_zero).
  unfold average. rewrite !length_map.
  repeat split; reflexivity.
Qed.

(** C3, as the code has it.  [analyzeEmotions] aggregates exactly the
    messages whose speaker is ['interviewee'] and whose [emotionFeatures] is
    present: the result depends on these messages alone, and the detailed
    breakdown lists them in order, each with its own feature map, be it
    empty or not.  Each of them enters the statistics: the overall
    confidence and the average calmness are the sums of the intensities
    recorded under ['confidence'] and ['calmness'], a message without the
    key counting as 0, divided by the number of all these messages; the
    stability and the trend are computed from the same confidence values
    and the dominant emotions from the same feature maps.  A message whose
    feature map is empty counts as 0 in both sums. *)
Theorem analyzeEmotions_filter_presence (messages : list Emotion.TranscriptMessage) :
  let qualifying := filter Emotion.qualifies messages in
  Emotion.analyzeEmotions messages = Emotion.analyzeEmotions qualifying
  /\ map emotions (detailedBreakdown (Emotion.analyzeEmotions messages))
     = map Emotion.features_of qualifying
  /\ map entryText (detailedBreakdown (Emotion.analyzeEmotions messages))
     = map (fun m => excerpt (Emotion.text m)) qualifying
  /\ (forall m, In m qualifying <->
                In m messages
                /\ Emotion.speaker m = interviewee
                /\ Emotion.emotionFeatures m <> None)
  /\ (qualifying <> [] ->
      let confidenceScores := map (intensity_or_zero "confidence") qualifying in
      let calmnessScores := map (intensity_or_zero "calmness") qualifying in
      let result := Emotion.analyzeEmotions messages in
      overallConfidence result
      = (sum confidenceScores / of_nat (List.length qualifying))%js
      /\ averageCalmness result
         = (sum calmnessScores / of_nat (List.length qualifying))%js
      /\ emotionalStability result
         = stability_of (variance_of confidenceScores (overallConfidence result))
      /\ emotionalTrends result = trends_of (trend_diff confidenceScores)
      /\ dominantEmotions result
         = dominant_of (map Emotion.features_of qualifying))
  /\ (forall m, Emotion.emotionFeatures m = Some [] ->
                Emotion.features_of m = []
                /\ intensity_or_zero "confidence" m = Fin 0
                /\ intensity_or_zero "calmness" m = Fin 0).
Proof.
  cbv zeta. split; [|split; [|split; [|split; [|split]]]].
  - unfold Emotion.analyzeEmotions. cbv zeta. now rewrite filter_idem.
  - unfold Emotion.analyzeEmotions. cbv zeta.
    destruct (filter _ messages) as [|m ms] eqn:E; [reflexivity|].
    cbn [List.length Nat.eqb]. now rewrite aggregate_emotions, map_map.
  - unfold Emotion.analyzeEmotions. cbv zeta.
    destruct (filter _ messages) as [|m ms] eqn:E; [reflexivity|].
    cbn [List.length Nat.eqb]. now rewrite aggregate_texts, map_map.
  - intros m. rewrite filter_In. unfold Emotion.qualifies.
    destruct (Emotion.speaker m), (Emotion.emotionFeatures m); simpl;
      intuition congruence.
  - exact (@analyzeEmotions_statistics messages).
  - intros m E. unfold Emotion.features_of, intensity_or_zero.
    rewrite E. repeat split; reflexivity.
Qed.

(** C3, as it is worded, fails on an interviewee message whose feature map
    is present and empty: the message is not left out, it is listed in the
    breakdown and the result differs from the one obtained without it. *)
Lemma empty_feature_map_is_aggregated :
  has_nonempty_features no_features_message = false
  /\ List.length (detailedBreakdown (Emotion.analyzeEmotions [no_features_message])) = 1
  /\ overallConfidence (Emotion.analyzeEmotions [no_features_message]) = Fin (0 / 1)
  /\ Emotion.analyzeEmotions [no_features_message]
     <> Emotion.analyzeEmotions (filter has_nonempty_features [no_features_message]).
Proof.
  split; [reflexivity | split; [reflexivity | split; [reflexivity|]]].
  intros H. apply (f_equal (fun r => List.length (detailedBreakdown r))) in H.
  discriminate H.
Qed.

(** C9. For every message list without a qualifying message (for
    [analyzeEmotions]: no interviewee message that carries features; for
    [analyzeTextEmotions]: no interviewee message), both aggregators return
    the no-data result: [overallConfidence], [averageCalmness] and
    [emotionalStability] are 0, [dominantEmotions] and [detailedBreakdown]
    are empty, [stable] is the only flag set, and [insights] holds exactly
    one sentinel string.  Both functions are total, so nothing is raised. *)
Theorem no_qualifying_message
        (featured : list Emotion.TranscriptMessage)
        (plain : list TextEmotion.TranscriptMessage) :
  (forall m, In m featured -> Emotion.qualifies m = false) ->
  (forall m, In m plain -> is_interviewee (TextEmotion.speaker m) = false) ->
  is_no_data_result (Emotion.analyzeEmotions featured)
  /\ is_no_data_result (TextEmotion.analyzeTextEmotions plain).
Proof.
  intros Hf Hp. split.
  - unfold Emotion.analyzeEmotions. cbv zeta.
    rewrite filter_none by exact Hf. apply empty_result_no_data.
  - unfold TextEmotion.analyzeTextEmotions. cbv zeta.
    rewrite filter_none by exact Hp. apply empty_result_no_data.
Qed.

(** An interviewer and an interviewee without features, and an interviewer
    alone. *)
Lemma no_qualifying_message_witness :
  is_no_data_result
    (Emotion.analyzeEmotions
       [Emotion.mkMessage interviewer "Tell me about yourself." None;
        Emotion.mkMessage interviewee "Well, I am a developer." None])
  /\ is_no_data_result
       (TextEmotion.analyzeTextEmotions
          [TextEmotion.mkMessage interviewer "Tell me about yourself."]).
Proof.
  apply no_qualifying_message.
  - intros m [<-|[<-|[]]]; reflexivity.
  - intros m [<-|[]]; reflexivity.
Defined.

End EmotionTheorems.

(** ** The documented scenarios, evaluated *)

Section Scenarios.

Import JSString JSNum JSReal Rouge Perplexity EmotionModel Aggregate EmotionSpec.
Local Open Scope string_scope.

Example tokenize_sentence :
  tokenize "The cat, sat on  the MAT! " = ["the"; "cat"; "sat"; "on"; "the"; "mat"].
Proof. reflexivity. Qed.

Example bigrams_of_sentence :
  generateNGrams (tokenize "the cat sat") 2 = ["the cat"; "cat sat"].
Proof. reflexivity. Qed.

Example lcs_of_two_sentences :
  lcsLength (tokenize "a b c d e f") (tokenize "b x d f a") = 3.
Proof. reflexivity. Qed.

Example rouge_identical_sentences :
  let scores := calculateROUGE "the cat sat on the mat"
                               (OneReference "the cat sat on the mat") in
  JSNum.eqv (f1 (rouge1 scores)) JSNum.one
  /\ JSNum.eqv (f1 (rouge2 scores)) JSNum.one
  /\ JSNum.eqv (f1 (rougeL scores)) JSNum.one.
Proof. vm_compute. repeat split. Qed.

Example rouge_disjoint_sentences :
  calculateROUGE "hello world" (OneReference "goodbye universe")
  = mkROUGE zeroPRF zeroPRF zeroPRF.
Proof. reflexivity. Qed.

Example rouge_empty_reference :
  calculateROUGE "anything" (OneReference "") = mkROUGE zeroPRF zeroPRF zeroPRF.
Proof. reflexivity. Qed.

Example rouge_best_of_two_references :
  let scores := calculateROUGE "the cat sat"
                               (ManyReferences ["a dog ran"; "the cat sat down"]) in
  JSNum.eqv (recall (rouge1 scores)) (JSNum.Fin 0.75)
  /\ JSNum.eqv (precision (rouge1 scores)) JSNum.one.
Proof. vm_compute. repeat split. Qed.

Example perplexity_of_blank_text :
  calculatePerplexity "   " 3 = degenerate 0.
Proof. reflexivity. Qed.

Example three_steady_messages :
  emotionalTrends
    (Emotion.analyzeEmotions
       [Emotion.mkMessage interviewee "one" (Some [("confidence", JSNum.Fin 0.3)]);
        Emotion.mkMessage interviewer "and?" None;
        Emotion.mkMessage interviewee "two" (Some [("confidence", JSNum.Fin 0.35)]);
        Emotion.mkMessage interviewee "three" (Some [("confidence", JSNum.Fin 0.4)])])
  = mkTrends false false true.
Proof. reflexivity. Qed.

Example improving_messages :
  emotionalTrends
    (Emotion.analyzeEmotions
       [Emotion.mkMessage interviewee "one" (Some [("confidence", JSNum.Fin 0.3)]);
        Emotion.mkMessage interviewee "two" (Some [("confidence", JSNum.Fin 0.9)])])
  = mkTrends true false false.
Proof. reflexivity. Qed.

Example filler_words_lower_confidence :
  exists confidence nervousness,
    TextEmotion.extractEmotions
      "Um, well, I have some experience with, uh, programming."
    = [("confidence", confidence); ("nervousness", nervousness)]
    /\ JSNum.eqv confidence (JSNum.Fin 0.4)
    /\ JSNum.eqv nervousness (JSNum.Fin 0.6).
Proof. vm_compute. do 2 eexists. repeat split. Qed.

Example filler_words_counted :
  Regex.match_count TextEmotion.fillerWords
                    "Um, well, I like umbrellas, you know. Wellness UH"
  = 5.
Proof. reflexivity. Qed.

Example text_without_keywords :
  TextEmotion.extractEmotions "xyz"
  = [("confidence", JSNum.Fin 0.5); ("calmness", JSNum.Fin 0.5)].
Proof. reflexivity. Qed.

End Scenarios.

(* ------------------------------------------------------------------ *)
(** * Further properties *)

(** ** Tokens and n-grams *)

Section TokenShape.

Import JSString Rouge MetricsSpec.

Lemma normalised_char c :
  is_space (replace_punct (lower_char c)) = true
  \/ is_token_char (replace_punct (lower_char c)) = true.
Proof.
  destruct c as [[] [] [] [] [] [] [] []]; vm_compute; auto.
Qed.

Lemma token_char_not_space c : is_token_char c = true -> is_space c = false.
Proof.
  destruct c as [[] [] [] [] [] [] [] []]; vm_compute; auto; discriminate.
Qed.

Lemma all_chars_app p a b :
  all_chars p (a ++ b)%string = all_chars p a && all_chars p b.
Proof.
  induction a as [|c a IH]; simpl; auto. now rewrite IH, andb_assoc.
Qed.

(** The pieces between white space hold the other characters only. *)
Lemma split_ws_pieces p s : forall cur in_sep,
  all_chars (fun c => is_space c || p c) s = true ->
  all_chars p cur = true ->
  Forall (fun piece => all_chars p piece = true) (split_ws_aux s cur in_sep).
Proof.
  induction s as [|c s IH]; intros cur in_sep Hs Hcur; simpl.
  - repeat constructor. exact Hcur.
  - simpl in Hs. apply andb_prop in Hs as [Hc Hs].
    destruct (is_space c) eqn:Esp.
    + destruct in_sep; [|constructor; auto]; apply IH; auto.
    + simpl in Hc. apply IH; auto.
      rewrite all_chars_app, Hcur. simpl. now rewrite Hc.
Qed.

Lemma normalised_chars text :
  all_chars (fun c => is_space c || is_token_char c)
            (map_string replace_punct (toLowerCase text)) = true.
Proof.
  unfold toLowerCase. induction text as [|c text IH]; simpl; auto.
  rewrite IH, andb_true_r.
  destruct (normalised_char c) as [H|H]; rewrite H; auto using orb_true_r.
Qed.

Lemma token_shape (text token : string) :
  In token (tokenize text) ->
  token <> ""%string /\ all_chars is_token_char token = true.
Proof.
  unfold tokenize. intros H. apply filter_In in H as [Hin Hlen].
  split.
  - intros ->. discriminate.
  - pose proof (@split_ws_pieces is_token_char
                  (map_string replace_punct (toLowerCase text)) "" false
                  (normalised_chars text) eq_refl) as Hall.
    rewrite Forall_forall in Hall. now apply Hall.
Qed.

Lemma ngram_windows (tokens : list string) (n : nat) :
  generateNGrams tokens (Z.of_nat n)
  = map (fun i => join " " (firstn n (skipn i tokens)))
        (seq 0 (List.length tokens + 1 - n)).
Proof.
  unfold generateNGrams. rewrite loop_upto_positions, map_map.
  apply map_ext_in. intros i Hi. apply in_seq in Hi.
  now rewrite slice_window by lia.
Qed.

(** X1. Every token that [tokenize] returns is non-empty and made of
    lower-case letters, digits and underscores only. *)
Theorem tokenize_token_shape (text token : string) :
  In token (tokenize text) ->
  token <> ""%string /\ all_chars is_token_char token = true.
Proof. apply token_shape. Qed.

(** A text of mixed case and punctuation. *)
Lemma tokenize_token_shape_witness :
  In "mat"%string (tokenize "The cat, sat on the MAT!")
  /\ "mat"%string <> ""%string
  /\ all_chars is_token_char "mat" = true.
Proof.
  assert (H : In "mat"%string (tokenize "The cat, sat on the MAT!"))
    by (vm_compute; tauto).
  split; [exact H | exact (tokenize_token_shape _ _ H)].
Defined.

(** X2. A sequence of [L] tokens has [L + 1 - n] n-grams of order [n], none
    when [L < n]; the [i]-th is made of the [n] tokens from position [i] on,
    joined by single spaces. *)
Theorem generateNGrams_windows (tokens : list string) (n : nat) :
  generateNGrams tokens (Z.of_nat n)
  = map (fun i => join " " (firstn n (skipn i tokens)))
        (seq 0 (List.length tokens + 1 - n)).
Proof. apply ngram_windows. Qed.

End TokenShape.

Section TokenRoundTrip.

Import JSString Rouge MetricsSpec.

Lemma token_char_fixed c :
  is_token_char c = true -> replace_punct (lower_char c) = c.
Proof.
  destruct c as [[] [] [] [] [] [] [] []]; vm_compute; auto; discriminate.
Qed.

Lemma normalise_app a b :
  map_string replace_punct (toLowerCase (a ++ b))
  = (map_string replace_punct (toLowerCase a)
     ++ map_string replace_punct (toLowerCase b))%string.
Proof.
  unfold toLowerCase. induction a as [|c a IH]; simpl; auto. now rewrite IH.
Qed.

Lemma normalise_token t :
  all_chars is_token_char t = true ->
  map_string replace_punct (toLowerCase t) = t.
Proof.
  unfold toLowerCase. induction t as [|c t IH]; simpl; auto.
  intros H. apply andb_prop in H as [Hc Ht].
  now rewrite (token_char_fixed _ Hc), IH.
Qed.

(** Joined tokens are left as they are by the normalisation. *)
Lemma normalise_join ts :
  Forall (fun t => all_chars is_token_char t = true) ts ->
  map_string replace_punct (toLowerCase (join " " ts)) = join " " ts.
Proof.
  induction 1 as [|t ts Ht Hts IH]; auto.
  destruct ts as [|u ts]; [now apply normalise_token|].
  change (join " " (t :: u :: ts)) with (t ++ " " ++ join " " (u :: ts))%string.
  rewrite !normalise_app, IH, (normalise_token _ Ht). reflexivity.
Qed.

Lemma append_assoc a b c : ((a ++ b) ++ c)%string = (a ++ (b ++ c))%string.
Proof. induction a as [|x a IH]; simpl; auto. now rewrite IH. Qed.

Lemma append_empty_r a : (a ++ "")%string = a.
Proof. induction a as [|x a IH]; simpl; auto. now rewrite IH. Qed.

(** Reading a run of token characters. *)
Lemma split_ws_read t : forall rest cur in_sep,
  all_chars is_token_char t = true ->
  split_ws_aux (t ++ rest) cur in_sep
  = split_ws_aux rest (cur ++ t)
                 (match t with EmptyString => in_sep | _ => false end).
Proof.
  induction t as [|c t IH]; intros rest cur in_sep Ht; simpl.
  - now rewrite append_empty_r.
  - simpl in Ht. apply andb_prop in Ht as [Hc Ht].
    rewrite (token_char_not_space _ Hc), IH by exact Ht.
    rewrite append_assoc. simpl. now destruct t.
Qed.

Lemma split_ws_join ts : forall in_sep,
  ts <> [] ->
  Forall (fun t => t <> ""%string /\ all_chars is_token_char t = true) ts ->
  split_ws_aux (join " " ts) "" in_sep = ts.
Proof.
  induction ts as [|t ts IH]; intros in_sep Hne Hts; [congruence|].
  inversion Hts as [|? ? [Ht0 Ht] Hrest]; subst.
  destruct ts as [|u ts].
  - simpl join. rewrite <- (append_empty_r t) at 1.
    rewrite split_ws_read by exact Ht. simpl. now destruct t.
  - change (join " " (t :: u :: ts)) with (t ++ " " ++ join " " (u :: ts))%string.
    rewrite split_ws_read by exact Ht.
    destruct t as [|c t]; [congruence|].
    cbn [append split_ws_aux]. change (is_space " ") with true. cbv iota.
    f_equal. apply IH; [discriminate | exact Hrest].
Qed.

(** Tokenizing well-formed tokens joined by spaces gives them back. *)
Lemma tokenize_join ts :
  Forall (fun t => t <> ""%string /\ all_chars is_token_char t = true) ts ->
  tokenize (join " " ts) = ts.
Proof.
  intros Hts. unfold tokenize.
  rewrite normalise_join
    by (eapply Forall_impl; [|exact Hts]; now intros t [_ H]).
  destruct ts as [|t ts]; [reflexivity|].
  unfold split_ws. rewrite split_ws_join by (auto; discriminate).
  apply forallb_filter_id. apply forallb_forall. intros x Hx.
  rewrite Forall_forall in Hts. destruct (Hts x Hx) as [Hx0 _].
  destruct x; [congruence | reflexivity].
Qed.

(** X3. Tokenizing is idempotent: the tokens of a text, joined by single
    spaces, tokenize to themselves. *)
Theorem tokenize_idempotent (text : string) :
  tokenize (join " " (tokenize text)) = tokenize text.
Proof.
  apply tokenize_join. apply Forall_forall. intros t Ht.
  now apply token_shape with (text := text).
Qed.

End TokenRoundTrip.

(** ** The longest common subsequence *)

Section LcsCorrect.

Import Rouge LcsSpec MetricsSpec.

Lemma subseq_nil_l {A} (l : list A) : subseq [] l.
Proof. induction l; constructor; auto. Qed.

Lemma subseq_length {A} (s l : list A) : subseq s l -> List.length s <= List.length l.
Proof. induction 1; simpl; lia. Qed.

Lemma subseq_tail {A} (x : A) s l : subseq (x :: s) l -> subseq s l.
Proof.
  intros H. remember (x :: s) as xs eqn:E. revert x s E.
  induction H as [|y t l H IH|y t l H IH]; intros x s E; [discriminate| |].
  - apply subseq_skip. eapply IH; eauto.
  - inversion E; subst. now apply subseq_skip.
Qed.

Lemma subseq_app {A} (s1 l1 s2 l2 : list A) :
  subseq s1 l1 -> subseq s2 l2 -> subseq (s1 ++ s2) (l1 ++ l2).
Proof.
  intros H1 H2. induction H1; simpl; auto; now constructor.
Qed.

Lemma subseq_rev {A} (s l : list A) : subseq s l -> subseq (rev s) (rev l).
Proof.
  induction 1 as [|x s l H IH|x s l H IH]; simpl.
  - constructor.
  - rewrite <- (app_nil_r (rev s)). apply subseq_app; auto.
    apply subseq_skip, subseq_nil.
  - apply subseq_app; auto. apply subseq_take, subseq_nil.
Qed.

Lemma subseq_cons_inv {A} (z : A) s x l :
  subseq (z :: s) (x :: l) -> subseq (z :: s) l \/ (z = x /\ subseq s l).
Proof. intros H. inversion H; subst; auto. Qed.

(** No common subsequence is longer than the recurrence says. *)
Lemma lcs_rec_upper a : forall b s,
  subseq s a -> subseq s b -> List.length s <= lcs_rec a b.
Proof.
  induction a as [|x a IHa]; intros b s Ha Hb.
  - inversion Ha; subst. simpl. lia.
  - induction b as [|y b IHb].
    + inversion Hb; subst. simpl. lia.
    + destruct s as [|z s]; [simpl; lia|].
      rewrite lcs_rec_cons.
      destruct (String.eqb_spec x y) as [Exy|Hxy].
      * assert (Hsa : subseq s a).
        { destruct (subseq_cons_inv Ha) as [H|[_ H]]; auto.
          now apply subseq_tail in H. }
        assert (Hsb : subseq s b).
        { destruct (subseq_cons_inv Hb) as [H|[_ H]]; auto.
          now apply subseq_tail in H. }
        pose proof (IHa b s Hsa Hsb). simpl. lia.
      * destruct (subseq_cons_inv Ha) as [Ha'|[Ezx Ha']].
        -- pose proof (IHa (y :: b) (z :: s) Ha' Hb). lia.
        -- destruct (subseq_cons_inv Hb) as [Hb'|[Ezy Hb']].
           ++ pose proof (IHb Hb'). lia.
           ++ congruence.
Qed.

(** Some common subsequence is that long. *)
Lemma lcs_rec_attained a : forall b,
  exists s, subseq s a /\ subseq s b /\ List.length s = lcs_rec a b.
Proof.
  induction a as [|x a IHa]; intro b.
  - exists []. repeat split; auto using subseq_nil_l.
  - induction b as [|y b IHb].
    + exists []. repeat split; auto using subseq_nil_l.
    + rewrite lcs_rec_cons. destruct (String.eqb_spec x y) as [->|Hxy].
      * destruct (IHa b) as (s & H1 & H2 & H3).
        exists (y :: s). repeat split; simpl; auto using subseq_take.
      * destruct (Nat.max_spec (lcs_rec a (y :: b)) (lcs_rec (x :: a) b))
          as [[_ ->]|[_ ->]].
        -- destruct IHb as (s & H1 & H2 & H3).
           exists s. repeat split; auto using subseq_skip.
        -- destruct (IHa (y :: b)) as (s & H1 & H2 & H3).
           exists s. repeat split; auto using subseq_skip.
Qed.

Lemma subseq_of_rev {A} (s l : list A) : subseq s (rev l) -> subseq (rev s) l.
Proof. intros H. apply subseq_rev in H. now rewrite rev_involutive in H. Qed.

(** X4. [lcsLength] is the length of a longest common subsequence: some
    sequence of that length is a subsequence of both arguments, and no
    common subsequence is longer.  It is at most the length of either
    argument, the length of the sequence when both arguments are the same,
    and 0 when one of them is empty. *)
Theorem lcsLength_longest (seq1 seq2 : list string) :
  (exists s, subseq s seq1 /\ subseq s seq2
             /\ List.length s = lcsLength seq1 seq2)
  /\ (forall s, subseq s seq1 -> subseq s seq2 ->
                List.length s <= lcsLength seq1 seq2)
  /\ lcsLength seq1 seq2 <= Nat.min (List.length seq1) (List.length seq2)
  /\ lcsLength seq1 seq1 = List.length seq1
  /\ lcsLength seq1 [] = 0
  /\ lcsLength [] seq2 = 0.
Proof.
  split; [|split].
  - rewrite lcsLength_rec.
    destruct (lcs_rec_attained (rev seq1) (rev seq2)) as (s & H1 & H2 & H3).
    exists (rev s). rewrite length_rev. auto using subseq_of_rev.
  - intros s H1 H2. rewrite lcsLength_rec, <- (length_rev s).
    apply lcs_rec_upper; now apply subseq_rev.
  - pose proof (lcsLength_le_l seq1 seq2). pose proof (lcsLength_le_r seq1 seq2).
    pose proof (lcsLength_le_r seq1 []). pose proof (lcsLength_le_l [] seq2).
    repeat split; simpl in *; try lia. apply lcsLength_self.
Qed.

End LcsCorrect.

(** ** The overlap scorer and the ROUGE aggregator *)

Section OverlapFacts.

Import JSString JSNum JSSet Rouge LcsSpec RougeSpec MetricsSpec.

Lemma count_matches_sym c r :
  NoDup c -> NoDup r -> count_matches c r = count_matches r c.
Proof.
  intros Hc Hr. rewrite !count_matches_filter.
  apply Nat.le_antisymm; apply NoDup_incl_length;
    try (now apply NoDup_filter);
    intros x Hx; apply filter_In in Hx as [H1 H2]; apply has_In in H2;
    apply filter_In; split; auto; now apply has_In.
Qed.

Lemma count_matches_zero c r :
  count_matches (of_list c) (of_list r) = 0 <-> disjoint c r.
Proof.
  rewrite count_matches_filter. split.
  - intros H x Hc Hr.
    assert (Hin : In x (filter (has (of_list r)) (of_list c))).
    { apply filter_In. split; [now apply of_list_In|].
      now apply has_In, of_list_In. }
    destruct (filter _ _); [destruct Hin | discriminate].
  - intros H. destruct (filter _ _) as [|x l] eqn:E; auto.
    assert (Hin : In x (filter (has (of_list r)) (of_list c)))
      by (rewrite E; now left).
    apply filter_In in Hin as [H1 H2].
    rewrite of_list_In in H1. apply has_In in H2. rewrite of_list_In in H2.
    exfalso. exact (H x H1 H2).
Qed.

Lemma in_unit_Fin p : in_unit p -> exists a, p = Fin a /\ (0 <= a <= 1)%Q.
Proof. destruct p; simpl; try tauto. eauto. Qed.

Lemma f1_of_Fin a b :
  f1_of (Fin a) (Fin b)
  = if Qle_bool (a + b) 0 then zero else Fin (2 * a * b / (a + b)).
Proof.
  unfold f1_of, JSNum.gt, JSNum.lt, zero, JSNum.add, JSNum.mul, JSNum.div.
  cbn [negb]. destruct (Qle_bool (a + b) 0) eqn:E; cbn [negb]; auto.
  assert (H : (0 < a + b)%Q).
  { apply Qnot_le_lt. intro H. apply Qle_bool_iff in H. congruence. }
  now rewrite (Qis_zero_pos H).
Qed.

Lemma f1_of_comm p q : in_unit p -> in_unit q -> eqv (f1_of p q) (f1_of q p).
Proof.
  intros Hp Hq.
  destruct (in_unit_Fin _ Hp) as (a & -> & Ha).
  destruct (in_unit_Fin _ Hq) as (b & -> & Hb).
  rewrite !f1_of_Fin.
  destruct (Qle_bool (a + b) 0) eqn:E1, (Qle_bool (b + a) 0) eqn:E2; simpl.
  - reflexivity.
  - apply Qle_bool_iff in E1.
    rewrite (@Qle_bool_true (b + a) 0) in E2 by lra. discriminate.
  - apply Qle_bool_iff in E2.
    rewrite (@Qle_bool_true (a + b) 0) in E1 by lra. discriminate.
  - assert (H : (0 < a + b)%Q).
    { apply Qnot_le_lt. intro H. apply Qle_bool_iff in H. congruence. }
    field. repeat split; intro Hz; lra.
Qed.

(** The harmonic mean vanishes exactly when one of its arguments does. *)
Lemma f1_of_zero a b :
  (0 <= a)%Q -> (0 <= b)%Q ->
  (eqv (f1_of (Fin a) (Fin b)) zero <-> (a == 0)%Q \/ (b == 0)%Q).
Proof.
  intros Ha Hb. rewrite f1_of_Fin.
  destruct (Qle_bool (a + b) 0) eqn:E; simpl.
  - apply Qle_bool_iff in E. split; [|reflexivity]. intros _. left. lra.
  - assert (H : (0 < a + b)%Q).
    { apply Qnot_le_lt. intro H. apply Qle_bool_iff in H. congruence. }
    split.
    + intros H0.
      assert (Hprod : (2 * a * b == 0)%Q).
      { rewrite <- (Qmult_div_r (2 * a * b) (a + b)) by lra.
        rewrite H0. ring. }
      destruct (Qeq_dec a 0) as [|Hna]; auto.
      right. nra.
    + intros [H0|H0]; rewrite H0; field; intro Hz; lra.
Qed.

Lemma ratio_Fin m k :
  0 < k -> (of_nat m / of_nat k)%js
           = Fin (inject_Z (Z.of_nat m) / inject_Z (Z.of_nat k)).
Proof.
  intros Hk. unfold of_nat, div. now rewrite (Qis_zero_pos (inject_nat_pos Hk)).
Qed.

Lemma ratio_pos m k :
  0 < m -> 0 < k -> (0 < inject_Z (Z.of_nat m) / inject_Z (Z.of_nat k))%Q.
Proof.
  intros Hm Hk. apply Qlt_shift_div_l; [now apply inject_nat_pos|].
  rewrite Qmult_0_l. now apply inject_nat_pos.
Qed.

Lemma ratio_null k :
  0 < k -> (inject_Z (Z.of_nat 0) / inject_Z (Z.of_nat k) == 0)%Q.
Proof. intros Hk. simpl. unfold Qdiv. ring. Qed.

(** The scorer on two non-empty lists, in closed form. *)
Lemma overlap_closed c r :
  c <> [] -> r <> [] ->
  calculatePrecisionRecallF1 c r
  = let m := inject_Z (Z.of_nat (count_matches (of_list c) (of_list r))) in
    let p := Fin (m / inject_Z (Z.of_nat (size (of_list c)))) in
    let q := Fin (m / inject_Z (Z.of_nat (size (of_list r)))) in
    mkPRF p q (f1_of p q).
Proof.
  intros Hc Hr. unfold calculatePrecisionRecallF1.
  destruct (Nat.eqb_spec (List.length r) 0) as [E|_].
  { destruct r; [congruence | discriminate]. }
  pose proof (of_list_nonempty Hc) as Hcs.
  pose proof (of_list_nonempty Hr) as Hrs.
  cbv zeta. destruct (Nat.ltb_spec 0 (size (of_list c))); [|lia].
  now rewrite !ratio_Fin by auto.
Qed.

(** No shared n-gram, no score. *)
Lemma overlap_disjoint c r :
  disjoint c r -> eqv (f1 (calculatePrecisionRecallF1 c r)) zero.
Proof.
  intros Hd. destruct r as [|y r]; [simpl; reflexivity|].
  destruct c as [|x c].
  - unfold calculatePrecisionRecallF1. cbn [List.length Nat.eqb].
    cbv zeta. change (of_list []) with (@nil string).
    change (count_matches [] (of_list (y :: r))) with 0.
    cbn [size List.length Nat.ltb Nat.leb f1].
    rewrite ratio_Fin by (apply of_list_nonempty; discriminate).
    pose proof (@ratio_null (size (of_list (y :: r)))
                  (of_list_nonempty (items := y :: r) ltac:(discriminate))) as H2.
    unfold zero. apply f1_of_zero; [lra | lra | left; reflexivity].
  - rewrite overlap_closed by discriminate. cbv zeta. cbn [f1].
    apply count_matches_zero in Hd. rewrite Hd.
    pose proof (@ratio_null (size (of_list (x :: c)))
                  (of_list_nonempty (items := x :: c) ltac:(discriminate))) as H1.
    pose proof (@ratio_null (size (of_list (y :: r)))
                  (of_list_nonempty (items := y :: r) ltac:(discriminate))) as H2.
    apply f1_of_zero; [lra | lra | now left].
Qed.

Lemma overlap_shared c r x :
  In x c -> In x r -> ~ eqv (f1 (calculatePrecisionRecallF1 c r)) zero.
Proof.
  intros Hc Hr.
  assert (Hcne : c <> []) by (intros ->; destruct Hc).
  assert (Hrne : r <> []) by (intros ->; destruct Hr).
  rewrite overlap_closed by auto. cbv zeta. cbn [f1].
  assert (Hm : 0 < count_matches (of_list c) (of_list r)).
  { destruct (count_matches (of_list c) (of_list r)) eqn:E; [|lia].
    apply count_matches_zero in E. exfalso. exact (E x Hc Hr). }
  pose proof (ratio_pos Hm (of_list_nonempty Hcne)) as H1.
  pose proof (ratio_pos Hm (of_list_nonempty Hrne)) as H2.
  intros H. apply f1_of_zero in H; lra.
Qed.

(** X5. Exchanging candidate and reference exchanges precision and recall
    and leaves f1 numerically the same, for two non-empty lists of
    n-grams. *)
Theorem calculatePrecisionRecallF1_swap (c r : list string) :
  c <> [] -> r <> [] ->
  precision (calculatePrecisionRecallF1 c r) = recall (calculatePrecisionRecallF1 r c)
  /\ recall (calculatePrecisionRecallF1 c r) = precision (calculatePrecisionRecallF1 r c)
  /\ eqv (f1 (calculatePrecisionRecallF1 c r)) (f1 (calculatePrecisionRecallF1 r c)).
Proof.
  intros Hc Hr.
  pose proof (overlap_in_unit c r) as (Hp & Hq & _).
  rewrite overlap_closed in Hp, Hq by auto.
  rewrite !overlap_closed by auto. cbv zeta in *. cbn [precision recall f1] in *.
  rewrite (count_matches_sym (of_list_NoDup r) (of_list_NoDup c)).
  repeat split. now apply f1_of_comm.
Qed.

Lemma calculatePrecisionRecallF1_swap_witness :
  ["the"; "cat"]%string <> [] /\ ["a"; "cat"; "sat"]%string <> []
  /\ precision (calculatePrecisionRecallF1 ["the"; "cat"]%string
                                           ["a"; "cat"; "sat"]%string)
     = recall (calculatePrecisionRecallF1 ["a"; "cat"; "sat"]%string
                                          ["the"; "cat"]%string).
Proof.
  assert (H1 : ["the"; "cat"]%string <> []) by discriminate.
  assert (H2 : ["a"; "cat"; "sat"]%string <> []) by discriminate.
  split; [exact H1 | split; [exact H2 |]].
  exact (proj1 (calculatePrecisionRecallF1_swap H1 H2)).
Defined.

(** X6. The f1 of the overlap scorer is zero exactly when the candidate and
    the reference share no n-gram (in particular when either is empty). *)
Theorem calculatePrecisionRecallF1_zero (c r : list string) :
  eqv (f1 (calculatePrecisionRecallF1 c r)) zero <-> disjoint c r.
Proof.
  split.
  - intros H x Hc Hr. exact (overlap_shared _ _ _ Hc Hr H).
  - apply overlap_disjoint.
Qed.

End OverlapFacts.

Section RougeAggregate.

Import JSString JSNum JSSet Rouge LcsSpec RougeSpec MetricsSpec.

Lemma token_split a a' u v :
  all_chars is_token_char a = true -> all_chars is_token_char a' = true ->
  (a ++ " " ++ u)%string = (a' ++ " " ++ v)%string -> a = a'.
Proof.
  revert a'. induction a as [|c a IH]; intros [|c' a'] Ha Ha' E; simpl in *; auto.
  - inversion E; subst. apply andb_prop in Ha' as [Hc _].
    apply token_char_not_space in Hc. discriminate.
  - inversion E; subst. apply andb_prop in Ha as [Hc _].
    apply token_char_not_space in Hc. discriminate.
  - inversion E; subst.
    apply andb_prop in Ha as [_ Ha]. apply andb_prop in Ha' as [_ Ha'].
    f_equal. eapply IH; eauto.
Qed.

Lemma skipn_cons_nth (l : list string) i :
  i < List.length l -> exists x rest, skipn i l = x :: rest /\ In x l.
Proof.
  revert i. induction l as [|y l IH]; intros i Hi; simpl in Hi; [lia|].
  destruct i as [|i].
  - exists y, l. simpl. auto.
  - destruct (IH i) as (x & rest & E & Hx); [lia|].
    exists x, rest. simpl. auto.
Qed.

Lemma unigram_in tokens g : In g (generateNGrams tokens 1) -> In g tokens.
Proof.
  change 1%Z with (Z.of_nat 1). rewrite ngram_windows.
  intros H. apply in_map_iff in H as (i & <- & Hi). apply in_seq in Hi.
  destruct (@skipn_cons_nth tokens i) as (x & rest & -> & Hx); [lia|].
  exact Hx.
Qed.

Lemma bigram_form tokens g :
  In g (generateNGrams tokens 2) ->
  exists a u, In a tokens /\ g = (a ++ " " ++ u)%string.
Proof.
  change 2%Z with (Z.of_nat 2). rewrite ngram_windows.
  intros H. apply in_map_iff in H as (i & <- & Hi). apply in_seq in Hi.
  destruct (@skipn_cons_nth tokens i) as (x & rest & E & Hx); [lia|].
  assert (Hlen : 1 <= List.length rest).
  { apply (f_equal (@List.length _)) in E. rewrite length_skipn in E.
    simpl in E. lia. }
  rewrite E. destruct rest as [|y rest]; [simpl in Hlen; lia|].
  exists x, y. split; auto.
Qed.

Lemma unigrams_disjoint c r :
  disjoint c r -> disjoint (generateNGrams c 1) (generateNGrams r 1).
Proof. intros H g Hc Hr. exact (H g (unigram_in _ _ Hc) (unigram_in _ _ Hr)). Qed.

Lemma bigrams_disjoint c r :
  Forall (fun t => all_chars is_token_char t = true) c ->
  Forall (fun t => all_chars is_token_char t = true) r ->
  disjoint c r -> disjoint (generateNGrams c 2) (generateNGrams r 2).
Proof.
  intros Fc Fr H g Hc Hr.
  destruct (bigram_form _ _ Hc) as (a & u & Ha & ->).
  destruct (bigram_form _ _ Hr) as (a' & v & Ha' & E).
  rewrite Forall_forall in Fc, Fr.
  assert (a = a') by (eapply token_split; eauto).
  subst a'. exact (H a Ha Ha').
Qed.

Lemma subseq_In {A} (s l : list A) x : subseq s l -> In x s -> In x l.
Proof.
  induction 1 as [|y s l H IH|y s l H IH]; simpl; auto.
  intros [->|Hx]; auto.
Qed.

Lemma lcsLength_disjoint c r : disjoint c r -> lcsLength c r = 0.
Proof.
  intros H. rewrite lcsLength_rec.
  destruct (lcs_rec_attained (rev c) (rev r)) as (s & H1 & H2 & <-).
  destruct s as [|x s]; auto. exfalso.
  apply (H x); apply in_rev.
  - eapply subseq_In; eauto. now left.
  - eapply subseq_In; eauto. now left.
Qed.

Lemma better_zero s : eqv (f1 s) zero -> better s zeroPRF = zeroPRF.
Proof.
  intros H. unfold better. destruct (f1 s) as [q| | |]; simpl in H; try tauto.
  replace (Fin q >? f1 zeroPRF)%js with false; auto.
  symmetry. unfold gt, lt. simpl. apply negb_false_iff.
  apply Qle_bool_iff. rewrite H. apply Qle_refl.
Qed.

Lemma rougeL_disjoint c r : disjoint c r -> eqv (f1 (rougeL_of c r)) zero.
Proof.
  intros H. unfold rougeL_of. cbv zeta. rewrite (lcsLength_disjoint H). cbn [f1].
  assert (Hp : forall k, exists a,
               (if (0 <? k)%nat then (of_nat 0 / of_nat k)%js else zero) = Fin a
               /\ (a == 0)%Q).
  { intros k. destruct (Nat.ltb_spec 0 k).
    - rewrite ratio_Fin by auto. eexists. split; [reflexivity|]. now apply ratio_null.
    - exists 0%Q. split; reflexivity. }
  destruct (Hp (List.length c)) as (a & -> & Ha).
  destruct (Hp (List.length r)) as (b & -> & Hb).
  apply f1_of_zero; [lra | lra | now left].
Qed.

Lemma rouge_step_zero t r :
  Forall (fun x => all_chars is_token_char x = true) t ->
  disjoint t (tokenize r) ->
  rouge_step t (generateNGrams t 1) (generateNGrams t 2)
             (mkROUGE zeroPRF zeroPRF zeroPRF) r
  = mkROUGE zeroPRF zeroPRF zeroPRF.
Proof.
  intros Ft H. unfold rouge_step. cbv zeta. cbn [rouge1 rouge2 rougeL].
  assert (Fr : Forall (fun x => all_chars is_token_char x = true) (tokenize r)).
  { apply Forall_forall. intros x Hx. now apply token_shape in Hx. }
  rewrite !better_zero; auto using rougeL_disjoint.
  - apply overlap_disjoint. now apply bigrams_disjoint.
  - apply overlap_disjoint. now apply unigrams_disjoint.
Qed.

(** X7. When no reference shares a token with the candidate,
    [calculateROUGE] returns the all-zero record; this is the case of a
    blank candidate, of an empty list of references, of blank references
    and of texts with different words. *)
Theorem calculateROUGE_disjoint (candidate : string) (refs : references) :
  Forall (fun r => disjoint (tokenize candidate) (tokenize r)) (as_array refs) ->
  calculateROUGE candidate refs = mkROUGE zeroPRF zeroPRF zeroPRF.
Proof.
  intros H. unfold calculateROUGE. destruct (_ || _); auto.
  induction H as [|r rs Hr Hrs IH]; simpl; auto.
  rewrite rouge_step_zero; auto.
  apply Forall_forall. intros x Hx. now apply token_shape in Hx.
Qed.

Lemma calculateROUGE_disjoint_witness :
  calculateROUGE "hello world" (ManyReferences ["goodbye universe"; "!!"]%string)
  = mkROUGE zeroPRF zeroPRF zeroPRF.
Proof.
  apply calculateROUGE_disjoint. simpl as_array.
  repeat constructor; intros x Hx Hy; vm_compute in Hx, Hy;
    repeat (destruct Hx as [Hx|Hx]; [subst x; intuition discriminate|]);
    exact Hx.
Defined.

(** Running maxima. *)

Lemma le_refl_Fin a : (Fin a <=? Fin a)%js = true.
Proof. apply Qle_bool_iff, Qle_refl. Qed.

Lemma le_trans_Fin a b c :
  (Fin a <=? Fin b)%js = true -> (Fin b <=? Fin c)%js = true ->
  (Fin a <=? Fin c)%js = true.
Proof.
  unfold le. rewrite !Qle_bool_iff. apply Qle_trans.
Qed.

Lemma better_ge s best :
  prf_in_unit s -> prf_in_unit best ->
  (f1 s <=? f1 (better s best))%js = true
  /\ (f1 best <=? f1 (better s best))%js = true.
Proof.
  intros (_ & _ & Hs) (_ & _ & Hb). unfold better.
  destruct (in_unit_Fin _ Hs) as (a & Ea & _).
  destruct (in_unit_Fin _ Hb) as (b & Eb & _).
  rewrite Ea, Eb. unfold gt, lt. destruct (Qle_bool a b) eqn:E; cbn [negb].
  - rewrite Eb. split; [exact E | apply le_refl_Fin].
  - rewrite Ea. split; [apply le_refl_Fin|].
    apply Qle_bool_iff.
    assert (~ (a <= b)%Q) by (intro H; apply Qle_bool_iff in H; congruence).
    lra.
Qed.

Lemma le_in_unit_refl p : in_unit p -> (p <=? p)%js = true.
Proof. intros H. destruct (in_unit_Fin _ H) as (a & -> & _). apply le_refl_Fin. Qed.

Lemma le_in_unit_trans p q r :
  in_unit p -> in_unit q -> in_unit r ->
  (p <=? q)%js = true -> (q <=? r)%js = true -> (p <=? r)%js = true.
Proof.
  intros Hp Hq Hr.
  destruct (in_unit_Fin _ Hp) as (a & -> & _).
  destruct (in_unit_Fin _ Hq) as (b & -> & _).
  destruct (in_unit_Fin _ Hr) as (c & -> & _).
  apply le_trans_Fin.
Qed.

Lemma zero_le_in_unit p : in_unit p -> (zero <=? p)%js = true.
Proof.
  intros H. destruct (in_unit_Fin _ H) as (a & -> & Ha).
  apply Qle_bool_iff. lra.
Qed.

(** A score kept against the zero record is kept, or beaten, against any
    other. *)
Lemma better_from_zero s best :
  prf_in_unit s -> prf_in_unit best ->
  (f1 (better s zeroPRF) <=? f1 (better s best))%js = true.
Proof.
  intros Hs Hb. destruct (better_ge Hs Hb) as [H1 _].
  pose proof (better_in_unit Hs Hb) as (_ & _ & Hu).
  unfold better at 1. destruct (_ >? _)%js; auto.
  now apply zero_le_in_unit.
Qed.

Import RougeOrder.

Lemma scores_le_trans x y z :
  scores_in_unit x -> scores_in_unit y -> scores_in_unit z ->
  scores_le x y -> scores_le y z -> scores_le x z.
Proof.
  intros ((_ & _ & X1) & (_ & _ & X2) & (_ & _ & X3))
         ((_ & _ & Y1) & (_ & _ & Y2) & (_ & _ & Y3))
         ((_ & _ & Z1) & (_ & _ & Z2) & (_ & _ & Z3))
         (A1 & A2 & A3) (B1 & B2 & B3).
  repeat split.
  - exact (@le_in_unit_trans _ _ _ X1 Y1 Z1 A1 B1).
  - exact (@le_in_unit_trans _ _ _ X2 Y2 Z2 A2 B2).
  - exact (@le_in_unit_trans _ _ _ X3 Y3 Z3 A3 B3).
Qed.

Lemma rouge_step_ge t u b best r :
  scores_in_unit best -> scores_le best (rouge_step t u b best r).
Proof.
  intros (H1 & H2 & H3). unfold rouge_step, scores_le. cbv zeta.
  cbn [rouge1 rouge2 rougeL].
  repeat split; apply better_ge; auto using overlap_in_unit, rougeL_in_unit.
Qed.

Lemma rouge_step_from_zero t u b best r :
  scores_in_unit best ->
  scores_le (rouge_step t u b (mkROUGE zeroPRF zeroPRF zeroPRF) r)
            (rouge_step t u b best r).
Proof.
  intros (H1 & H2 & H3). unfold rouge_step, scores_le. cbv zeta.
  cbn [rouge1 rouge2 rougeL].
  repeat split; apply better_from_zero; auto using overlap_in_unit, rougeL_in_unit.
Qed.

Lemma rouge_fold_ge t u b refs : forall best,
  scores_in_unit best ->
  scores_le best (fold_left (rouge_step t u b) refs best).
Proof.
  induction refs as [|r refs IH]; intros best Hb; simpl.
  - destruct Hb as ((_ & _ & H1) & (_ & _ & H2) & (_ & _ & H3)).
    repeat split; now apply le_in_unit_refl.
  - pose proof (rouge_step_in_unit t u b r Hb) as Hs.
    eapply scores_le_trans; [exact Hb | exact Hs | | apply rouge_step_ge; auto | apply IH; auto].
    now apply rouge_fold_in_unit.
Qed.

Lemma rouge_fold_member t u b refs r : forall best,
  scores_in_unit best -> In r refs ->
  scores_le (rouge_step t u b (mkROUGE zeroPRF zeroPRF zeroPRF) r)
            (fold_left (rouge_step t u b) refs best).
Proof.
  assert (Hz : scores_in_unit (mkROUGE zeroPRF zeroPRF zeroPRF))
    by (repeat split; apply in_unit_zero).
  induction refs as [|x refs IH]; intros best Hb Hr; [destruct Hr|].
  simpl. pose proof (rouge_step_in_unit t u b x Hb) as Hs.
  destruct Hr as [->|Hr]; [|now apply IH].
  eapply scores_le_trans;
    [ now apply rouge_step_in_unit | exact Hs | now apply rouge_fold_in_unit
    | now apply rouge_step_from_zero | now apply rouge_fold_ge ].
Qed.

(** X8. Against several references each f1 (rouge1, rouge2, rougeL) is at
    least the f1 obtained against any one of them alone: a further
    reference never lowers a score. *)
Theorem calculateROUGE_best_reference (candidate r : string) (refs : list string) :
  In r refs ->
  scores_le (calculateROUGE candidate (OneReference r))
            (calculateROUGE candidate (ManyReferences refs)).
Proof.
  intros Hr. unfold calculateROUGE. simpl as_array.
  assert (Hz : scores_in_unit (mkROUGE zeroPRF zeroPRF zeroPRF))
    by (repeat split; apply in_unit_zero).
  destruct refs as [|x refs]; [destruct Hr|].
  cbn [List.length Nat.eqb orb].
  destruct (String.length (trim candidate) =? 0)%nat.
  - repeat split; apply le_refl_Fin.
  - exact (@rouge_fold_member _ _ _ (x :: refs) r _ Hz Hr).
Qed.

Lemma calculateROUGE_best_reference_witness :
  scores_le (calculateROUGE "the cat sat" (OneReference "a cat sat down"))
            (calculateROUGE "the cat sat"
               (ManyReferences ["a dog ran"; "a cat sat down"; "the cat"]%string)).
Proof.
  apply calculateROUGE_best_reference. simpl. auto.
Defined.

End RougeAggregate.

(** ** Perplexity *)

Section PerplexityFacts.

Import JSString JSReal Perplexity PerplexitySpec MetricsSpec.

Lemma append_inv_head a u v : (a ++ u)%string = (a ++ v)%string -> u = v.
Proof. induction a as [|c a IH]; simpl; auto. intros E. inversion E. auto. Qed.

(** Joining with spaces loses nothing on tokens. *)
Lemma join_inj a : forall b,
  Forall (fun t => all_chars is_token_char t = true) a ->
  Forall (fun t => all_chars is_token_char t = true) b ->
  List.length a = List.length b ->
  join " " a = join " " b -> a = b.
Proof.
  induction a as [|x a IH]; intros [|y b] Fa Fb Hlen E; try discriminate; auto.
  inversion Fa as [|? ? Hx Fa']; inversion Fb as [|? ? Hy Fb']; subst.
  destruct a as [|x2 a], b as [|y2 b]; try discriminate.
  - simpl in E. now subst.
  - change (join " " (x :: x2 :: a)) with (x ++ " " ++ join " " (x2 :: a))%string in E.
    change (join " " (y :: y2 :: b)) with (y ++ " " ++ join " " (y2 :: b))%string in E.
    pose proof (token_split _ _ _ _ Hx Hy E) as Exy. subst y.
    apply append_inv_head in E. inversion E as [E'].
    f_equal. apply IH; auto.
Qed.

Lemma Forall_firstn {A} (P : A -> Prop) k : forall l, Forall P l -> Forall P (firstn k l).
Proof.
  induction k as [|k IH]; intros [|x l] H; simpl; try constructor;
    inversion H; subst; auto.
Qed.

Lemma Forall_skipn {A} (P : A -> Prop) k : forall l, Forall P l -> Forall P (skipn k l).
Proof.
  induction k as [|k IH]; intros [|x l] H; simpl; auto.
  inversion H; subst; auto.
Qed.

Lemma count_occ_map_le {A} (f g : A -> string) ps i :
  (forall j, In j ps -> f j = f i -> g j = g i) ->
  count_occ string_dec (map f ps) (f i) <= count_occ string_dec (map g ps) (g i).
Proof.
  induction ps as [|p ps IH]; intros H; simpl; auto.
  assert (IH' := IH (fun j Hj => H j (or_intror Hj))).
  destruct (string_dec (f p) (f i)) as [E|_].
  - rewrite (H p (or_introl eq_refl) E).
    destruct (string_dec (g i) (g i)); [lia | congruence].
  - destruct (string_dec (g p) (g i)); lia.
Qed.

Lemma total_negative rs :
  rs <> [] -> Forall (fun r => (r < 0)%R) rs -> (total rs < 0)%R.
Proof.
  intros Hne H. induction H as [|r rs Hr Hrs IH]; [congruence|].
  unfold total in *. simpl. destruct rs as [|r' rs].
  - simpl. lra.
  - assert ((fold_right Rplus 0 (r' :: rs) < 0)%R) by (apply IH; discriminate). lra.
Qed.

Lemma mean_negative rs :
  rs <> [] -> Forall (fun r => (r < 0)%R) rs -> (mean rs < 0)%R.
Proof.
  intros Hne H. unfold mean.
  assert (Hlen : (0 < INR (List.length rs))%R).
  { apply lt_0_INR. destruct rs; [congruence | simpl; lia]. }
  pose proof (total_negative Hne H) as Ht.
  apply Rinv_0_lt_compat in Hlen. unfold Rdiv.
  set (t := total rs) in *. set (k := (/ INR (List.length rs))%R) in *. nra.
Qed.

Lemma ln_ratio_negative a b : 0 < a -> a < b -> (ln (INR a / INR b) < 0)%R.
Proof.
  intros Ha Hab. rewrite <- ln_1.
  assert (H0 : (0 < INR a)%R) by now apply lt_0_INR.
  assert (H1 : (INR a < INR b)%R) by now apply lt_INR.
  apply ln_increasing.
  - apply Rdiv_lt_0_compat; lra.
  - apply Rmult_lt_reg_r with (INR b); [lra|].
    unfold Rdiv. rewrite Rmult_assoc, Rinv_l by lra. lra.
Qed.

Lemma exp_above_one a : (a < 0)%R -> (1 < Rtrigo_def.exp (- a))%R.
Proof.
  intros Ha. rewrite <- exp_0. apply exp_increasing. lra.
Qed.

Section Tokens.

Variable tokens : list string.
Variable n : nat.
Hypothesis n_pos : 1 <= n.
Hypothesis well_formed : Forall (fun t => all_chars is_token_char t = true) tokens.

Lemma ngram_tokens_length i :
  In i (positions tokens n) -> List.length (ngram_tokens tokens n i) = n.
Proof.
  intros Hi. unfold positions in Hi. rewrite in_seq in Hi. unfold ngram_tokens.
  rewrite length_firstn, length_skipn. lia.
Qed.

(** Two positions with the same n-gram have the same context. *)
Lemma same_ngram_same_context i j :
  In i (positions tokens n) -> In j (positions tokens n) ->
  ngram_key tokens n j = ngram_key tokens n i ->
  context_key tokens n j = context_key tokens n i.
Proof.
  intros Hi Hj E. unfold context_key. f_equal. f_equal.
  unfold ngram_key in E. apply join_inj in E; auto.
  - unfold ngram_tokens. now apply Forall_firstn, Forall_skipn.
  - unfold ngram_tokens. now apply Forall_firstn, Forall_skipn.
  - now rewrite !ngram_tokens_length.
Qed.

Lemma ngram_count_le_context i :
  In i (positions tokens n) ->
  count_ngram tokens n (ngram_key tokens n i)
  <= count_context tokens n (context_key tokens n i).
Proof.
  intros Hi. unfold count_ngram, count_context, ngram_keys, context_keys.
  apply count_occ_map_le. intros j Hj. now apply same_ngram_same_context.
Qed.

Lemma smoothed_log_prob_negative i :
  In i (positions tokens n) -> (smoothed_log_prob tokens n i < 0)%R.
Proof.
  intros Hi. unfold smoothed_log_prob.
  assert (Hle : count_ngram tokens n (ngram_key tokens n i)
               <= count_context tokens n (context_key tokens n i))
    by now apply ngram_count_le_context.
  assert (Hv : 1 <= vocabulary tokens n).
  { unfold vocabulary, ngram_keys.
    assert (Hin : In (ngram_key tokens n i)
                     (nodup string_dec (map (ngram_key tokens n) (positions tokens n))))
      by (apply nodup_In, in_map, Hi).
    destruct (nodup _ _); [destruct Hin | simpl; lia]. }
  apply ln_ratio_negative; lia.
Qed.

Lemma average_log_prob_negative :
  positions tokens n <> [] -> (average_log_prob tokens n < 0)%R.
Proof.
  intros Hne. unfold average_log_prob. apply mean_negative.
  - destruct (positions tokens n); [congruence | discriminate].
  - apply Forall_forall. intros r Hr. apply in_map_iff in Hr as (i & <- & Hi).
    now apply smoothed_log_prob_negative.
Qed.

End Tokens.

Lemma unigram_average_negative tokens :
  tokens <> [] -> (unigram_average tokens < 0)%R.
Proof.
  intros Hne. unfold unigram_average. apply mean_negative.
  - destruct tokens; [congruence | discriminate].
  - apply Forall_forall. intros r Hr. apply in_map_iff in Hr as (t & <- & Ht).
    unfold unigram_log_prob.
    pose proof (count_occ_bound string_dec t tokens).
    assert (Hv : 1 <= List.length (nodup string_dec tokens)).
    { assert (Hin : In t (nodup string_dec tokens)) by now apply nodup_In.
      destruct (nodup _ _); [destruct Hin | simpl; lia]. }
    apply ln_ratio_negative; lia.
Qed.

(** The two paths of [calculatePerplexity]. *)
Lemma perplexity_ngram_path text (n : nat) :
  1 <= n -> n <= List.length (Rouge.tokenize text) ->
  calculatePerplexity text (Z.of_nat n)
  = finish (exp (neg (Fin (average_log_prob (Rouge.tokenize text) n))))
           (Fin (average_log_prob (Rouge.tokenize text) n))
           (List.length (Rouge.tokenize text)).
Proof.
  intros Hn Hlen. unfold calculatePerplexity.
  assert (Ht : Rouge.tokenize text <> [])
    by (intros E; rewrite E in Hlen; simpl in Hlen; lia).
  rewrite (tokens_not_blank _ Ht).
  destruct (Z.ltb_spec (Z.of_nat (List.length (Rouge.tokenize text))) (Z.of_nat n));
    [lia|].
  pose proof (score_model_spec (Rouge.tokenize text) Hn) as Hscore.
  destruct (build_model (Rouge.tokenize text) (Z.of_nat n)) as [ngramCounts contextCounts].
  rewrite Hscore.
  assert (Hcount : 0 < List.length (positions (Rouge.tokenize text) n)).
  { unfold positions. rewrite length_seq. lia. }
  destruct (Nat.ltb_spec 0 (List.length (positions (Rouge.tokenize text) n))); [|lia].
  rewrite div_count by auto.
  unfold average_log_prob, mean. now rewrite length_map.
Qed.

Lemma perplexity_unigram_path text (ngramOrder : Z) :
  Rouge.tokenize text <> [] ->
  (Z.of_nat (List.length (Rouge.tokenize text)) < ngramOrder)%Z ->
  calculatePerplexity text ngramOrder
  = finish (exp (neg (Fin (unigram_average (Rouge.tokenize text)))))
           (Fin (unigram_average (Rouge.tokenize text)))
           (List.length (Rouge.tokenize text)).
Proof.
  intros Ht Hlen. unfold calculatePerplexity.
  rewrite (tokens_not_blank _ Ht).
  destruct (Z.ltb_spec (Z.of_nat (List.length (Rouge.tokenize text))) ngramOrder);
    [|lia].
  now apply calculateUnigramPerplexity_spec.
Qed.

Lemma perplexity_no_token text (ngramOrder : Z) :
  (1 <= ngramOrder)%Z -> Rouge.tokenize text = [] ->
  calculatePerplexity text ngramOrder = degenerate 0.
Proof.
  intros Hn Ht. unfold calculatePerplexity.
  destruct (String.length (trim text) =? 0)%nat; auto.
  rewrite Ht. simpl List.length.
  destruct (Z.ltb_spec (Z.of_nat 0) ngramOrder); [reflexivity | lia].
Qed.

Lemma perplexity_with_tokens text (ngramOrder : Z) :
  (1 <= ngramOrder)%Z -> Rouge.tokenize text <> [] ->
  exists a,
    (a < 0)%R
    /\ calculatePerplexity text ngramOrder
       = mkPerplexity (Fin (Rtrigo_def.exp (- a))) (Fin a)
                      (List.length (Rouge.tokenize text)).
Proof.
  intros Hn Ht.
  destruct (Z.ltb_spec (Z.of_nat (List.length (Rouge.tokenize text))) ngramOrder)
    as [Hshort|Hlong].
  - exists (unigram_average (Rouge.tokenize text)). split.
    + now apply unigram_average_negative.
    + now rewrite perplexity_unigram_path.
  - exists (average_log_prob (Rouge.tokenize text) (Z.to_nat ngramOrder)). split.
    + apply average_log_prob_negative; [lia | |].
      * apply Forall_forall. intros t Hin. now apply token_shape in Hin.
      * intros E. apply (f_equal (@List.length _)) in E.
        unfold positions in E. rewrite length_seq in E. simpl in E. lia.
    + replace ngramOrder with (Z.of_nat (Z.to_nat ngramOrder)) at 1 by lia.
      rewrite perplexity_ngram_path by lia. reflexivity.
Qed.

(** X9. Whatever the text and the order, [tokenCount] is the number of
    tokens of the text. *)
Theorem calculatePerplexity_tokenCount (text : string) (ngramOrder : Z) :
  tokenCount (calculatePerplexity text ngramOrder)
  = List.length (Rouge.tokenize text).
Proof.
  unfold calculatePerplexity.
  destruct (Nat.eqb_spec (String.length (trim text)) 0) as [Hb|_].
  - now rewrite (tokenize_blank _ Hb).
  - destruct (Z.of_nat (List.length (Rouge.tokenize text)) <? ngramOrder)%Z.
    + unfold calculateUnigramPerplexity.
      destruct (Nat.eqb_spec (List.length (Rouge.tokenize text)) 0) as [E|_];
        [now rewrite E | reflexivity].
    + destruct (build_model _ _) as [ngramCounts contextCounts].
      destruct (score_model _ _ _ _) as [totalLogProb validNGrams].
      reflexivity.
Qed.

(** X10. For an order of at least 1 and a text with at least one token,
    the average log-probability is a negative number and the perplexity a
    finite number greater than 1, equal to [exp] of the opposite of the
    average. *)
Theorem calculatePerplexity_above_one (text : string) (ngramOrder : Z) :
  (1 <= ngramOrder)%Z -> Rouge.tokenize text <> [] ->
  exists a,
    averageLogProbability (calculatePerplexity text ngramOrder) = Fin a
    /\ perplexity (calculatePerplexity text ngramOrder) = Fin (Rtrigo_def.exp (- a))
    /\ (a < 0)%R /\ (1 < Rtrigo_def.exp (- a))%R.
Proof.
  intros Hn Ht. destruct (perplexity_with_tokens text Hn Ht) as (a & Ha & ->).
  exists a. repeat split; auto. now apply exp_above_one.
Qed.

Lemma calculatePerplexity_above_one_witness :
  exists a,
    averageLogProbability (calculatePerplexity "to be or not to be" 3) = Fin a
    /\ (a < 0)%R.
Proof.
  assert (H1 : (1 <= 3)%Z) by lia.
  assert (H2 : Rouge.tokenize "to be or not to be" <> [])
    by (vm_compute; discriminate).
  destruct (@calculatePerplexity_above_one "to be or not to be" 3 H1 H2)
    as (a & Ha & _ & Hneg & _).
  exists a. split; [exact Ha | exact Hneg].
Defined.

(** X11. For an order of at least 1, the perplexity is [+Infinity] exactly
    when the text has no token (a blank text, or punctuation only); the
    result is then the degenerate record. *)
Theorem calculatePerplexity_infinite (text : string) (ngramOrder : Z) :
  (1 <= ngramOrder)%Z ->
  (perplexity (calculatePerplexity text ngramOrder) = PosInf
   <-> Rouge.tokenize text = [])
  /\ (Rouge.tokenize text = [] ->
      calculatePerplexity text ngramOrder = degenerate 0).
Proof.
  intros Hn. split; [split|].
  - intros H. destruct (Rouge.tokenize text) as [|t ts] eqn:E; auto.
    assert (Ht : Rouge.tokenize text <> []) by (rewrite E; discriminate).
    destruct (perplexity_with_tokens text Hn Ht) as (a & _ & Hr).
    rewrite Hr in H. discriminate.
  - intros H. now rewrite perplexity_no_token.
  - now apply perplexity_no_token.
Qed.

Lemma calculatePerplexity_infinite_witness :
  perplexity (calculatePerplexity "?! ..." 3) = PosInf
  <-> Rouge.tokenize "?! ..." = [].
Proof.
  assert (H1 : (1 <= 3)%Z) by lia.
  exact (proj1 (@calculatePerplexity_infinite "?! ..." 3 H1)).
Defined.

End PerplexityFacts.

(** ** The two emotion analysers *)

Section TrendShape.

Import JSNum EmotionModel Aggregate EmotionSpec AggregateSpec.

Lemma exactly_one_at_most t : exactly_one t -> at_most_one t.
Proof. destruct t as [[] [] []]; cbv; tauto. Qed.

Lemma trends_of_at_most_one d : at_most_one (trends_of d).
Proof.
  destruct d as [q| | |];
    try (apply exactly_one_at_most, trends_of_exclusive; discriminate).
  rewrite trends_of_NaN. exact I.
Qed.

Lemma aggregate_at_most_one engaged_test messages :
  at_most_one (emotionalTrends (aggregate engaged_test messages)).
Proof. rewrite aggregate_trends. apply trends_of_at_most_one. Qed.

Lemma length_one {A} (l : list A) : List.length l = 1 -> exists x, l = [x].
Proof. destruct l as [|x [|y l]]; try discriminate. eauto. Qed.

Lemma no_flag_not_one : ~ exactly_one (mkTrends false false false).
Proof. cbv. tauto. Qed.

(** X12. Neither analyser ever sets two trend flags at once. *)
Theorem analysers_never_two_trends
        (featured : list Emotion.TranscriptMessage)
        (plain : list TextEmotion.TranscriptMessage) :
  at_most_one (emotionalTrends (Emotion.analyzeEmotions featured))
  /\ at_most_one (emotionalTrends (TextEmotion.analyzeTextEmotions plain)).
Proof.
  split.
  - unfold Emotion.analyzeEmotions.
    destruct (List.length (filter Emotion.qualifies featured) =? 0)%nat;
      [exact I | apply aggregate_at_most_one].
  - unfold TextEmotion.analyzeTextEmotions.
    destruct (List.length
                (filter (fun m => is_interviewee (TextEmotion.speaker m)) plain)
              =? 0)%nat;
      [exact I | apply aggregate_at_most_one].
Qed.

Lemma text_trend_flag (messages : list TextEmotion.TranscriptMessage) :
  exactly_one (emotionalTrends (TextEmotion.analyzeTextEmotions messages))
  <-> List.length (filter (fun m => is_interviewee (TextEmotion.speaker m)) messages)
      <> 1.
Proof.
  destruct (Nat.eq_dec
              (List.length
                 (filter (fun m => is_interviewee (TextEmotion.speaker m)) messages))
              1) as [E|Hne].
  - destruct (length_one _ E) as (m & Hm).
    rewrite (analyzeTextEmotions_one_qualifying messages Hm), E.
    split; [intros H; now apply no_flag_not_one in H | congruence].
  - split; [auto | intros _].
    destruct (filter (fun m => is_interviewee (TextEmotion.speaker m)) messages)
      as [|m1 [|m2 rest]] eqn:Ef.
    + unfold TextEmotion.analyzeTextEmotions. rewrite Ef. exact I.
    + now elim Hne.
    + apply analyzeTextEmotions_trend_exclusive. rewrite Ef. simpl. lia.
Qed.

Lemma features_trend_flag (messages : list Emotion.TranscriptMessage) :
  Forall in_unit (map (fun m => confidence_of (Emotion.features_of m))
                      (filter Emotion.qualifies messages)) ->
  (exactly_one (emotionalTrends (Emotion.analyzeEmotions messages))
   <-> List.length (filter Emotion.qualifies messages) <> 1).
Proof.
  intros Hfin.
  destruct (Nat.eq_dec (List.length (filter Emotion.qualifies messages)) 1)
    as [E|Hne].
  - destruct (length_one _ E) as (m & Hm).
    rewrite (analyzeEmotions_one_qualifying messages Hm), E.
    split; [intros H; now apply no_flag_not_one in H | congruence].
  - split; [auto | intros _].
    destruct (filter Emotion.qualifies messages) as [|m1 [|m2 rest]] eqn:Ef.
    + unfold Emotion.analyzeEmotions. rewrite Ef. exact I.
    + now elim Hne.
    + apply analyzeEmotions_trend_exclusive; rewrite Ef; [simpl; lia | exact Hfin].
Qed.

(** X13. Exactly one trend flag is set unless exactly one message is
    analysed: this holds for [analyzeEmotions] when the confidence values
    of the qualifying messages lie in [[0, 1]], the range of an intensity,
    and for [analyzeTextEmotions] on every transcript. *)
Theorem trend_flag_unless_single
        (featured : list Emotion.TranscriptMessage)
        (plain : list TextEmotion.TranscriptMessage) :
  Forall in_unit (map (fun m => confidence_of (Emotion.features_of m))
                      (filter Emotion.qualifies featured)) ->
  (exactly_one (emotionalTrends (Emotion.analyzeEmotions featured))
   <-> List.length (filter Emotion.qualifies featured) <> 1)
  /\ (exactly_one (emotionalTrends (TextEmotion.analyzeTextEmotions plain))
      <-> List.length
            (filter (fun m => is_interviewee (TextEmotion.speaker m)) plain)
          <> 1).
Proof.
  intros Hfin. split; [now apply features_trend_flag | apply text_trend_flag].
Qed.

Lemma trend_flag_unless_single_witness :
  exactly_one
    (emotionalTrends
       (Emotion.analyzeEmotions
          [Emotion.mkMessage interviewee "I led the team."
             (Some [("confidence"%string, Fin 0.8)]);
           Emotion.mkMessage interviewer "And then?" None;
           Emotion.mkMessage interviewee "We shipped it."
             (Some [("calmness"%string, Fin 0.6)])])).
Proof.
  apply (@trend_flag_unless_single
           [Emotion.mkMessage interviewee "I led the team."
              (Some [("confidence"%string, Fin 0.8)]);
            Emotion.mkMessage interviewer "And then?" None;
            Emotion.mkMessage interviewee "We shipped it."
              (Some [("calmness"%string, Fin 0.6)])]
           []).
  - repeat constructor; cbv; discriminate.
  - simpl. lia.
Defined.

End TrendShape.

Section MetricBounds.

Import JSNum EmotionModel Aggregate EmotionSpec AggregateSpec.

Lemma inject_nat_succ n :
  (inject_Z (Z.of_nat (S n)) == inject_Z (Z.of_nat n) + 1)%Q.
Proof. rewrite Nat2Z.inj_succ. unfold Z.succ. now rewrite inject_Z_plus. Qed.

Lemma sum_unit_from scores : forall q,
  Forall in_unit scores ->
  exists q', fold_left add scores (Fin q) = Fin q'
             /\ (q <= q' <= q + inject_Z (Z.of_nat (List.length scores)))%Q.
Proof.
  induction scores as [|x scores IH]; intros q H.
  - exists q. split; auto. simpl. unfold inject_Z. lra.
  - inversion H as [|? ? Hx Hrest]; subst.
    destruct (in_unit_Fin _ Hx) as (a & -> & Ha).
    destruct (IH (q + a)%Q Hrest) as (q' & E & Hq').
    exists q'. split; [exact E|].
    pose proof (inject_nat_succ (List.length scores)) as Hs.
    cbn [List.length]. lra.
Qed.

Lemma average_in_unit scores :
  scores <> [] -> Forall in_unit scores -> in_unit (average scores).
Proof.
  intros Hne H. unfold average, sum, zero.
  destruct (sum_unit_from 0 H) as (q' & -> & Hq').
  assert (Hlen : 0 < List.length scores)
    by (destruct scores; [congruence | simpl; lia]).
  pose proof (inject_nat_pos Hlen) as Hpos.
  unfold of_nat, div. rewrite (Qis_zero_pos Hpos). simpl. split.
  - apply Qle_shift_div_l; lra.
  - apply Qle_shift_div_r; lra.
Qed.

Lemma Qsquare_nonneg x : (0 <= x * x)%Q.
Proof.
  destruct (Qlt_le_dec x 0) as [H|H].
  - assert (E : (x * x == (- x) * (- x))%Q) by ring.
    rewrite E. apply Qmult_le_0_compat; lra.
  - apply Qmult_le_0_compat; lra.
Qed.

Lemma squares_from scores m : forall q,
  (0 <= q)%Q -> Forall in_unit scores ->
  exists q', fold_left (fun sum score => sum + square (score - Fin m))%js
                       scores (Fin q) = Fin q'
             /\ (0 <= q')%Q.
Proof.
  induction scores as [|x scores IH]; intros q Hq H.
  - exists q. auto.
  - inversion H as [|? ? Hx Hrest]; subst.
    destruct (in_unit_Fin _ Hx) as (a & -> & Ha).
    cbn [fold_left]. unfold square, sub, neg, add at 2, mul, add.
    apply IH; auto.
    pose proof (Qsquare_nonneg (a + - m)). lra.
Qed.

Lemma stability_in_unit scores m :
  scores <> [] -> Forall in_unit scores ->
  in_unit (stability_of (variance_of scores (Fin m))).
Proof.
  intros Hne H. unfold variance_of, zero.
  destruct (@squares_from scores m 0 (Qle_refl 0) H) as (v & -> & Hv).
  assert (Hlen : 0 < List.length scores)
    by (destruct scores; [congruence | simpl; lia]).
  pose proof (inject_nat_pos Hlen) as Hpos.
  unfold of_nat, div. rewrite (Qis_zero_pos Hpos).
  assert (Hw : (0 <= v / inject_Z (Z.of_nat (List.length scores)))%Q)
    by (apply Qle_shift_div_l; lra).
  set (w := (v / inject_Z (Z.of_nat (List.length scores)))%Q) in *.
  unfold stability_of, one, mul, min, le, sub, neg, add.
  destruct (Qle_bool (w * 4) 1) eqn:E; simpl.
  - apply Qle_bool_iff in E. lra.
  - lra.
Qed.

Lemma confidence_in_unit e : features_in_unit e -> in_unit (confidence_of e).
Proof.
  intros H. unfold confidence_of.
  destruct (JSMap.get e "confidence") as [v|] eqn:E; simpl.
  - eapply get_in_unit; eauto.
  - apply in_unit_zero.
Qed.

Lemma calmness_in_unit e : features_in_unit e -> in_unit (calmness_of e).
Proof.
  intros H. unfold calmness_of.
  destruct (JSMap.get e "calmness") as [v|] eqn:E; simpl.
  - eapply get_in_unit; eauto.
  - apply in_unit_zero.
Qed.

Lemma aggregate_metrics_in_unit engaged_test messages :
  messages <> [] ->
  Forall (fun m => features_in_unit (snd m)) messages ->
  metrics_in_unit (aggregate engaged_test messages).
Proof.
  intros Hne H.
  assert (Hc : Forall in_unit (map (fun m => confidence_of (snd m)) messages)).
  { apply Forall_map. eapply Forall_impl; [|exact H].
    intros m Hm. now apply confidence_in_unit. }
  assert (Hk : Forall in_unit (map (fun m => calmness_of (snd m)) messages)).
  { apply Forall_map. eapply Forall_impl; [|exact H].
    intros m Hm. now apply calmness_in_unit. }
  assert (Hne' : forall f : string * EmotionFeatures -> number,
             map f messages <> [])
    by (destruct messages; [congruence | discriminate]).
  unfold metrics_in_unit, aggregate.
  cbn [overallConfidence averageCalmness emotionalStability].
  pose proof (average_in_unit (Hne' _) Hc) as Havg.
  repeat split.
  - exact Havg.
  - exact (average_in_unit (Hne' _) Hk).
  - destruct (in_unit_Fin _ Havg) as (m & -> & _).
    now apply stability_in_unit.
Qed.

Lemma empty_metrics_in_unit insight recommendation :
  metrics_in_unit (empty_result insight recommendation).
Proof. repeat split; simpl; lra. Qed.

Lemma text_metrics_in_unit (messages : list TextEmotion.TranscriptMessage) :
  metrics_in_unit (TextEmotion.analyzeTextEmotions messages).
Proof.
  unfold TextEmotion.analyzeTextEmotions.
  destruct (filter (fun m => is_interviewee (TextEmotion.speaker m)) messages)
    as [|m rest] eqn:Ef.
  - apply empty_metrics_in_unit.
  - cbn [List.length Nat.eqb]. apply aggregate_metrics_in_unit; [discriminate|].
    apply Forall_map, Forall_forall. intros x _.
    apply extractEmotions_in_unit.
Qed.

Lemma features_metrics_in_unit (messages : list Emotion.TranscriptMessage) :
  Forall (fun m => features_in_unit (Emotion.features_of m))
         (filter Emotion.qualifies messages) ->
  metrics_in_unit (Emotion.analyzeEmotions messages).
Proof.
  intros H. unfold Emotion.analyzeEmotions.
  destruct (filter Emotion.qualifies messages) as [|m rest] eqn:Ef.
  - apply empty_metrics_in_unit.
  - cbn [List.length Nat.eqb]. apply aggregate_metrics_in_unit; [discriminate|].
    apply Forall_map. exact H.
Qed.

(** X14. The overall confidence, the average calmness and the emotional
    stability lie in [[0, 1]]: for [analyzeEmotions] when every feature of
    the qualifying messages does, for [analyzeTextEmotions] on every
    transcript. *)
Theorem overall_metrics_in_unit
        (featured : list Emotion.TranscriptMessage)
        (plain : list TextEmotion.TranscriptMessage) :
  Forall (fun m => features_in_unit (Emotion.features_of m))
         (filter Emotion.qualifies featured) ->
  metrics_in_unit (Emotion.analyzeEmotions featured)
  /\ metrics_in_unit (TextEmotion.analyzeTextEmotions plain).
Proof.
  intros H. split; [now apply features_metrics_in_unit | apply text_metrics_in_unit].
Qed.

Lemma overall_metrics_in_unit_witness :
  metrics_in_unit
    (Emotion.analyzeEmotions
       [Emotion.mkMessage interviewee "I led the team."
          (Some [("confidence"%string, Fin 0.8); ("calmness"%string, Fin 0.3)]);
        Emotion.mkMessage interviewee "We shipped it."
          (Some [("confidence"%string, Fin 0.1)])]).
Proof.
  apply (@overall_metrics_in_unit
           [Emotion.mkMessage interviewee "I led the team."
              (Some [("confidence"%string, Fin 0.8); ("calmness"%string, Fin 0.3)]);
            Emotion.mkMessage interviewee "We shipped it."
              (Some [("confidence"%string, Fin 0.1)])]
           []).
  repeat constructor; simpl; lra.
Defined.

End MetricBounds.

Section BreakdownShape.

Import JSNum EmotionModel Aggregate EmotionSpec AggregateSpec.
Local Open Scope string_scope.

Lemma map_indexed_index engaged_test l : forall k,
  map messageIndex (map_indexed (breakdown_entry engaged_test) k l)
  = seq (k + 1) (List.length l).
Proof.
  induction l as [|x l IH]; intro k; simpl; auto.
  f_equal. rewrite IH. f_equal.
Qed.

Lemma map_indexed_Forall {A B} (P : B -> Prop) (f : nat -> A -> B) l :
  (forall k x, P (f k x)) -> forall k, Forall P (map_indexed f k l).
Proof.
  intros H. induction l as [|x l IH]; intro k; simpl; constructor; auto.
Qed.

Lemma length_append s t :
  String.length (s ++ t) = String.length s + String.length t.
Proof. induction s as [|c s IH]; simpl; auto. Qed.

Lemma substring_whole n : forall s,
  String.length s <= n -> String.substring 0 n s = s.
Proof.
  induction n as [|n IH]; intros [|c s] H; simpl in *; auto; try lia.
  f_equal. apply IH. lia.
Qed.

Lemma substring_length n : forall s,
  n <= String.length s -> String.length (String.substring 0 n s) = n.
Proof.
  induction n as [|n IH]; intros [|c s] H; simpl in *; auto; try lia.
  f_equal. apply IH. lia.
Qed.

Lemma excerpt_short text :
  String.length text <= 100 -> excerpt text = text.
Proof.
  intros H. unfold excerpt. rewrite substring_whole by auto.
  destruct (Nat.ltb_spec 100 (String.length text)); [lia|].
  clear. induction text as [|c s IH]; simpl; auto. now rewrite IH.
Qed.

Lemma excerpt_long text :
  100 < String.length text -> String.length (excerpt text) = 103.
Proof.
  intros H. unfold excerpt. rewrite length_append, substring_length by lia.
  destruct (Nat.ltb_spec 100 (String.length text)); [reflexivity | lia].
Qed.

Lemma excerpt_bound text : String.length (excerpt text) <= 103.
Proof.
  destruct (Nat.le_gt_cases (String.length text) 100) as [H|H].
  - rewrite excerpt_short by auto. lia.
  - rewrite excerpt_long by auto. lia.
Qed.

Lemma entry_shape engaged_test k m :
  String.length (entryText (breakdown_entry engaged_test k m)) <= 103
  /\ confidenceScore (breakdown_entry engaged_test k m)
     = confidence_of (emotions (breakdown_entry engaged_test k m)).
Proof. split; [apply excerpt_bound | reflexivity]. Qed.

(** X15. The breakdown numbers the messages it keeps from 1, without gaps:
    the index of an entry is its rank among the qualifying messages, not
    its position in the transcript. *)
Theorem breakdown_numbering
        (featured : list Emotion.TranscriptMessage)
        (plain : list TextEmotion.TranscriptMessage) :
  map messageIndex (detailedBreakdown (Emotion.analyzeEmotions featured))
  = seq 1 (List.length (filter Emotion.qualifies featured))
  /\ map messageIndex (detailedBreakdown (TextEmotion.analyzeTextEmotions plain))
     = seq 1 (List.length
                (filter (fun m => is_interviewee (TextEmotion.speaker m)) plain)).
Proof.
  split.
  - unfold Emotion.analyzeEmotions.
    destruct (filter Emotion.qualifies featured) as [|m rest]; [reflexivity|].
    cbn [List.length Nat.eqb]. unfold aggregate. cbn [detailedBreakdown].
    rewrite map_indexed_index, length_map. reflexivity.
  - unfold TextEmotion.analyzeTextEmotions.
    destruct (filter (fun m => is_interviewee (TextEmotion.speaker m)) plain)
      as [|m rest]; [reflexivity|].
    cbn [List.length Nat.eqb]. unfold aggregate. cbn [detailedBreakdown].
    rewrite map_indexed_index, length_map. reflexivity.
Qed.

(** X16. Every entry of the breakdown carries a text of at most 103
    characters, and its confidence score is the ["confidence"] feature of
    its emotions, 0 when there is none.  A message of at most 100
    characters is quoted in full; a longer one is cut to its first 100
    characters followed by three dots. *)
Theorem breakdown_entries
        (featured : list Emotion.TranscriptMessage)
        (plain : list TextEmotion.TranscriptMessage) :
  let well_formed e :=
    String.length (entryText e) <= 103
    /\ confidenceScore e = nullish (JSMap.get (emotions e) "confidence") zero in
  let quote text :=
    if (String.length text <=? 100)%nat then text
    else String.substring 0 100 text ++ "..." in
  Forall well_formed (detailedBreakdown (Emotion.analyzeEmotions featured))
  /\ Forall well_formed (detailedBreakdown (TextEmotion.analyzeTextEmotions plain))
  /\ map entryText (detailedBreakdown (Emotion.analyzeEmotions featured))
     = map (fun m => quote (Emotion.text m)) (filter Emotion.qualifies featured)
  /\ map entryText (detailedBreakdown (TextEmotion.analyzeTextEmotions plain))
     = map (fun m => quote (TextEmotion.text m))
           (filter (fun m => is_interviewee (TextEmotion.speaker m)) plain).
Proof.
  cbv zeta.
  assert (Hquote : forall text,
             excerpt text
             = if (String.length text <=? 100)%nat then text
               else String.substring 0 100 text ++ "...").
  { intros text. destruct (Nat.leb_spec (String.length text) 100) as [H|H].
    - now apply excerpt_short.
    - unfold excerpt. destruct (Nat.ltb_spec 100 (String.length text));
        [reflexivity | lia]. }
  repeat split.
  - unfold Emotion.analyzeEmotions.
    destruct (List.length (filter Emotion.qualifies featured) =? 0)%nat;
      [constructor|].
    apply map_indexed_Forall. intros k m. apply entry_shape.
  - unfold TextEmotion.analyzeTextEmotions.
    destruct (List.length
                (filter (fun m => is_interviewee (TextEmotion.speaker m)) plain)
              =? 0)%nat; [constructor|].
    apply map_indexed_Forall. intros k m. apply entry_shape.
  - unfold Emotion.analyzeEmotions.
    destruct (filter Emotion.qualifies featured) as [|m rest]; [reflexivity|].
    cbn [List.length Nat.eqb]. rewrite aggregate_texts, map_map.
    apply map_ext. intros x. cbn [fst]. apply Hquote.
  - unfold TextEmotion.analyzeTextEmotions.
    destruct (filter (fun m => is_interviewee (TextEmotion.speaker m)) plain)
      as [|m rest]; [reflexivity|].
    cbn [List.length Nat.eqb]. rewrite aggregate_texts, map_map.
    apply map_ext. intros x. cbn [fst]. apply Hquote.
Qed.

End BreakdownShape.

(** ** The dominant emotions *)

Section DominantFacts.

Import JSNum EmotionModel Aggregate EmotionSpec AggregateSpec.
Local Open Scope string_scope.

Lemma tally_get m k v name :
  JSMap.get (tally m (k, v)) name
  = if String.eqb k name then absorb (JSMap.get m name) [v] else JSMap.get m name.
Proof.
  unfold tally. destruct (String.eqb_spec k name) as [->|Hne].
  - destruct (JSMap.get m name) as [[total count]|] eqn:E.
    + rewrite E. now rewrite get_set_same.
    + rewrite get_set_same. now rewrite get_set_same.
  - destruct (JSMap.get m k) as [[total count]|] eqn:E.
    + rewrite E. now rewrite get_set_other.
    + rewrite get_set_same. now rewrite !get_set_other.
Qed.

Lemma absorb_app slot vs ws : absorb slot (vs ++ ws) = absorb (absorb slot vs) ws.
Proof. apply fold_left_app. Qed.

Lemma fold_tally_get entries name : forall m,
  JSMap.get (fold_left tally entries m) name
  = absorb (JSMap.get m name)
           (map snd (filter (fun kv => String.eqb (fst kv) name) entries)).
Proof.
  induction entries as [|[k v] entries IH]; intro m; [reflexivity|].
  cbn [fold_left filter fst]. rewrite IH, tally_get.
  destruct (String.eqb k name); reflexivity.
Qed.

Lemma tally_all_get features name : forall m,
  JSMap.get (fold_left (fun emotionMap e => fold_left tally e emotionMap) features m)
            name
  = absorb (JSMap.get m name) (intensities name features).
Proof.
  unfold intensities.
  induction features as [|e features IH]; intro m; [reflexivity|].
  cbn [fold_left List.concat]. rewrite IH, fold_tally_get.
  now rewrite filter_app, map_app, absorb_app.
Qed.

Lemma absorb_some vs : forall total count,
  absorb (Some (total, count)) vs
  = Some (fold_left add vs total, count + List.length vs).
Proof.
  induction vs as [|v vs IH]; intros total count.
  - cbn [absorb fold_left List.length]. now rewrite Nat.add_0_r.
  - change (absorb (Some (total, count)) (v :: vs))
      with (absorb (Some ((total + v)%js, count + 1)) vs).
    rewrite IH. cbn [fold_left List.length]. f_equal. f_equal. lia.
Qed.

Lemma absorb_none vs :
  absorb None vs
  = match vs with
    | [] => None
    | _ :: _ => Some (sum vs, List.length vs)
    end.
Proof.
  destruct vs as [|v vs]; [reflexivity|].
  change (absorb None (v :: vs)) with (absorb (Some ((zero + v)%js, 0 + 1)) vs).
  rewrite absorb_some. reflexivity.
Qed.

Lemma set_keys_NoDup {V} (m : JSMap.t V) k v :
  NoDup (map fst m) -> NoDup (map fst (JSMap.set m k v)).
Proof. intros H. rewrite keys_set. now apply add_NoDup. Qed.

Lemma tally_keys_NoDup m entry :
  NoDup (map fst m) -> NoDup (map fst (tally m entry)).
Proof.
  intros H. destruct entry as [k v]. unfold tally.
  destruct (JSMap.get m k) as [[total count]|] eqn:E.
  - rewrite E. now apply set_keys_NoDup.
  - rewrite get_set_same. now apply set_keys_NoDup, set_keys_NoDup.
Qed.

Lemma tally_all_NoDup features : NoDup (map fst (tally_all features)).
Proof.
  unfold tally_all.
  assert (H : forall m, NoDup (map fst m) ->
              NoDup (map fst (fold_left (fun emotionMap e => fold_left tally e emotionMap)
                                        features m))).
  { induction features as [|e features IH]; intros m Hm; [exact Hm|].
    cbn [fold_left]. apply IH. clear IH. revert m Hm.
    induction e as [|entry e IHe]; intros m Hm; [exact Hm|].
    cbn [fold_left]. apply IHe. now apply tally_keys_NoDup. }
  apply H. constructor.
Qed.

Lemma In_get {V} (m : JSMap.t V) k v :
  NoDup (map fst m) -> In (k, v) m -> JSMap.get m k = Some v.
Proof.
  induction m as [|[k' v'] m IH]; intros Hnd Hin; [destruct Hin|].
  inversion Hnd as [|? ? Hk' Hnd']; subst. cbn [JSMap.get].
  destruct Hin as [E|Hin].
  - inversion E; subst. now rewrite String.eqb_refl.
  - destruct (String.eqb_spec k k') as [->|_]; [|now apply IH].
    elim Hk'. apply in_map_iff. now exists (k', v).
Qed.

Lemma get_In {V} (m : JSMap.t V) k v : JSMap.get m k = Some v -> In (k, v) m.
Proof.
  induction m as [|[k' v'] m IH]; [discriminate|]. cbn [JSMap.get].
  destruct (String.eqb_spec k k') as [->|_]; intros E.
  - inversion E. now left.
  - right. now apply IH.
Qed.

(** What the map of totals holds. *)
Lemma tally_all_entry features name total count :
  In (name, (total, count)) (tally_all features)
  <-> intensities name features <> []
      /\ total = sum (intensities name features)
      /\ count = List.length (intensities name features).
Proof.
  assert (Hget : JSMap.get (tally_all features) name
                 = absorb None (intensities name features))
    by apply (tally_all_get features name []).
  rewrite absorb_none in Hget. split.
  - intros Hin. apply In_get in Hin; [|apply tally_all_NoDup].
    rewrite Hin in Hget. destruct (intensities name features); [discriminate|].
    inversion Hget. repeat split; auto. discriminate.
  - intros (Hne & -> & ->). apply get_In. rewrite Hget.
    destruct (intensities name features); [congruence | reflexivity].
Qed.

(** The insertion sort keeps the entries. *)
Lemma insert_sorted_In x l y : In y (insert_sorted x l) <-> y = x \/ In y l.
Proof.
  induction l as [|z l IH]; simpl; [intuition|].
  destruct (comparator z x <? zero)%js; simpl; rewrite ?IH; intuition.
Qed.

Lemma sort_In l y : In y (sort_by_intensity l) <-> In y l.
Proof.
  induction l as [|x l IH]; simpl; [tauto|].
  rewrite insert_sorted_In, IH. intuition.
Qed.

Lemma insert_sorted_names x l :
  ~ In (emotion x) (map emotion l) -> NoDup (map emotion l) ->
  NoDup (map emotion (insert_sorted x l)).
Proof.
  induction l as [|z l IH]; intros Hx Hl; simpl.
  - constructor; auto.
  - inversion Hl as [|? ? Hz Hl']; subst.
    destruct (comparator z x <? zero)%js; cbn [map].
    + constructor.
      * rewrite in_map_iff. intros (y & Ey & Hy).
        rewrite insert_sorted_In in Hy. destruct Hy as [->|Hy].
        -- apply Hx. left. auto.
        -- apply Hz. apply in_map_iff. eauto.
      * apply IH; auto. intros H. apply Hx. now right.
    + constructor; auto.
Qed.

Lemma sort_names l :
  NoDup (map emotion l) -> NoDup (map emotion (sort_by_intensity l)).
Proof.
  induction l as [|x l IH]; intros H; simpl; [constructor|].
  inversion H as [|? ? Hx Hl]; subst.
  apply insert_sorted_names.
  - rewrite in_map_iff. intros (y & Ey & Hy). rewrite sort_In in Hy.
    apply Hx. apply in_map_iff. eauto.
  - now apply IH.
Qed.

Lemma In_firstn {A} k : forall (l : list A) x, In x (firstn k l) -> In x l.
Proof.
  induction k as [|k IH]; intros [|y l] x H; simpl in *; try tauto.
  destruct H as [H|H]; auto.
Qed.

Lemma NoDup_firstn {A} k : forall l : list A, NoDup l -> NoDup (firstn k l).
Proof.
  induction k as [|k IH]; intros [|x l] H; simpl; try constructor.
  - inversion H; subst. intros Hin. apply In_firstn in Hin. contradiction.
  - inversion H; subst. auto.
Qed.

Lemma dominant_names features :
  map emotion
      (map (fun '(emotion, (total, count)) =>
              mkDominant emotion (total / of_nat count)%js count)
           (tally_all features))
  = map fst (tally_all features).
Proof.
  rewrite map_map. apply map_ext. intros [name [total count]]. reflexivity.
Qed.

Lemma dominant_of_shape features :
  List.length (dominant_of features) <= 5
  /\ NoDup (map emotion (dominant_of features)).
Proof.
  unfold dominant_of. split.
  - apply firstn_le_length.
  - rewrite <- firstn_map. apply NoDup_firstn, sort_names.
    rewrite dominant_names. apply tally_all_NoDup.
Qed.

Lemma dominant_of_entry features d :
  In d (dominant_of features) ->
  intensities (emotion d) features <> []
  /\ occurrenceCount d = List.length (intensities (emotion d) features)
  /\ averageIntensity d = mean_intensity (emotion d) features.
Proof.
  unfold dominant_of. intros H. apply In_firstn in H.
  rewrite sort_In, in_map_iff in H.
  destruct H as ([name [total count]] & <- & Hin).
  rewrite tally_all_entry in Hin. destruct Hin as (Hne & -> & ->).
  cbn [emotion occurrenceCount averageIntensity]. auto.
Qed.

(** Every name met in the features is ranked before the cut. *)
Lemma ranked_names features name :
  intensities name features <> [] ->
  In (mkDominant name (mean_intensity name features)
                 (List.length (intensities name features)))
     (sort_by_intensity
        (map (fun '(emotion, (total, count)) =>
                mkDominant emotion (total / of_nat count)%js count)
             (tally_all features))).
Proof.
  intros Hne. rewrite sort_In, in_map_iff.
  exists (name, (sum (intensities name features),
                 List.length (intensities name features))).
  split; [reflexivity|]. rewrite tally_all_entry. auto.
Qed.

Lemma insert_sorted_Forall (P : DominantEmotion -> Prop) x l :
  P x -> Forall P l -> Forall P (insert_sorted x l).
Proof.
  intros Hx Hl. apply Forall_forall. intros y Hy.
  rewrite insert_sorted_In in Hy. destruct Hy as [->|Hy]; auto.
  rewrite Forall_forall in Hl. auto.
Qed.

Lemma sort_Forall (P : DominantEmotion -> Prop) l :
  Forall P l -> Forall P (sort_by_intensity l).
Proof.
  induction 1 as [|x l Hx Hl IH]; simpl; [constructor|].
  now apply insert_sorted_Forall.
Qed.

Lemma le_below_Fin z b a :
  (z <=? Fin b)%js = true -> (b <= a)%Q -> (z <=? Fin a)%js = true.
Proof.
  destruct z as [c| | |]; simpl; auto.
  rewrite !Qle_bool_iff. intros H1 H2. lra.
Qed.

Lemma insert_sorted_descending x l :
  isFinite (averageIntensity x) = true ->
  Forall (fun d => isFinite (averageIntensity d) = true) l ->
  descending l -> descending (insert_sorted x l).
Proof.
  intros Hx Hl. induction l as [|y l IH]; intros Hd.
  - simpl. auto.
  - inversion Hl as [|? ? Hy Hl']; subst. destruct Hd as [Hall Hd].
    destruct (finite_Fin _ Hx) as (a & Ea). destruct (finite_Fin _ Hy) as (b & Eb).
    cbn [insert_sorted]. unfold comparator. rewrite Ea, Eb.
    unfold sub, neg, add, lt, zero.
    destruct (Qle_bool 0 (a + - b)) eqn:E; cbn [negb].
    + apply Qle_bool_iff in E. cbn [descending]. split; [|split; auto].
      constructor.
      * rewrite Ea, Eb. apply Qle_bool_iff. lra.
      * eapply Forall_impl; [|exact Hall]. intros z Hz. cbv beta in Hz.
        rewrite Eb in Hz. rewrite Ea. apply (le_below_Fin _ Hz). lra.
    + assert (Hlt : (a < b)%Q).
      { apply Qnot_le_lt. intros H. assert (0 <= a + - b)%Q by lra.
        apply Qle_bool_iff in H0. congruence. }
      cbn [descending]. split.
      * apply insert_sorted_Forall; [|exact Hall].
        rewrite Ea, Eb. apply Qle_bool_iff. lra.
      * now apply IH.
Qed.

Lemma sort_descending l :
  Forall (fun d => isFinite (averageIntensity d) = true) l ->
  descending (sort_by_intensity l).
Proof.
  induction 1 as [|x l Hx Hl IH]; simpl; [exact I|].
  apply insert_sorted_descending; auto. now apply sort_Forall.
Qed.

Lemma descending_firstn k : forall l, descending l -> descending (firstn k l).
Proof.
  induction k as [|k IH]; intros [|x l] H; simpl; auto.
  destruct H as [Hall Hd]. split; [now apply Forall_firstn | now apply IH].
Qed.

Lemma In_skipn {A} k : forall (l : list A) x, In x (skipn k l) -> In x l.
Proof.
  induction k as [|k IH]; intros [|y l] x H; simpl in *; auto.
Qed.

Lemma descending_cut l : descending l -> forall k d d',
  In d (firstn k l) -> In d' (skipn k l) ->
  (averageIntensity d' <=? averageIntensity d)%js = true.
Proof.
  induction l as [|x l IH]; intros Hd k d d' H1 H2.
  - destruct k; destruct H1.
  - destruct k as [|k]; [destruct H1|].
    destruct Hd as [Hall Hd]. cbn [firstn skipn] in H1, H2.
    destruct H1 as [<-|H1].
    + rewrite Forall_forall in Hall. apply Hall. eapply In_skipn; eauto.
    + eapply IH; eauto.
Qed.

Lemma intensities_finite name features :
  Forall features_finite features ->
  all_finite (intensities name features).
Proof.
  intros H. unfold intensities, all_finite. apply Forall_map, Forall_forall.
  intros kv Hkv. apply filter_In in Hkv as [Hkv _].
  apply in_concat in Hkv as (e & He & Hkv).
  rewrite Forall_forall in H. specialize (H e He).
  unfold features_finite in H. rewrite Forall_forall in H. auto.
Qed.

Lemma averages_finite features :
  Forall features_finite features ->
  Forall (fun d => isFinite (averageIntensity d) = true)
         (map (fun '(emotion, (total, count)) =>
                 mkDominant emotion (total / of_nat count)%js count)
              (tally_all features)).
Proof.
  intros H. apply Forall_map, Forall_forall. intros [name [total count]] Hin.
  rewrite tally_all_entry in Hin. destruct Hin as (Hne & -> & ->).
  cbn [averageIntensity]. apply div_count_finite.
  - destruct (@sum_finite_from (intensities name features) 0
                (intensities_finite name H)) as (q & Hq).
    unfold sum, zero. now rewrite Hq.
  - destruct (intensities name features); [congruence | simpl; lia].
Qed.

Lemma dominant_of_descending features :
  Forall features_finite features -> descending (dominant_of features).
Proof.
  intros H. unfold dominant_of.
  now apply descending_firstn, sort_descending, averages_finite.
Qed.

(** A name left out of the list has no higher average than a listed one. *)
Lemma dominant_of_top features name :
  Forall features_finite features ->
  intensities name features <> [] ->
  ~ In name (map emotion (dominant_of features)) ->
  Forall (fun d => (mean_intensity name features <=? averageIntensity d)%js = true)
         (dominant_of features).
Proof.
  intros Hfin Hne Hout. apply Forall_forall. intros d Hd.
  pose proof (@ranked_names features name Hne) as Hin.
  set (sorted := sort_by_intensity
                   (map (fun '(emotion, (total, count)) =>
                           mkDominant emotion (total / of_nat count)%js count)
                        (tally_all features))) in *.
  rewrite <- (firstn_skipn 5 sorted) in Hin. apply in_app_or in Hin.
  destruct Hin as [Hin|Hin].
  - elim Hout. apply in_map_iff. eexists. split; [|exact Hin]. reflexivity.
  - assert (Hs : descending sorted) by now apply sort_descending, averages_finite.
    exact (@descending_cut sorted Hs 5 _ _ Hd Hin).
Qed.

Lemma in_unit_features_finite e : features_in_unit e -> features_finite e.
Proof.
  unfold features_in_unit, features_finite. apply Forall_impl.
  intros kv. apply in_unit_finite.
Qed.

Lemma analyzeEmotions_dominant messages :
  dominantEmotions (Emotion.analyzeEmotions messages)
  = dominant_of (map Emotion.features_of (filter Emotion.qualifies messages)).
Proof.
  unfold Emotion.analyzeEmotions.
  destruct (filter Emotion.qualifies messages) as [|m rest]; [reflexivity|].
  cbn [List.length Nat.eqb]. unfold aggregate. cbn [dominantEmotions].
  now rewrite map_map.
Qed.

Lemma analyzeTextEmotions_dominant messages :
  dominantEmotions (TextEmotion.analyzeTextEmotions messages)
  = dominant_of
      (map (fun m => TextEmotion.extractEmotions (TextEmotion.text m))
           (filter (fun m => is_interviewee (TextEmotion.speaker m)) messages)).
Proof.
  unfold TextEmotion.analyzeTextEmotions.
  destruct (filter (fun m => is_interviewee (TextEmotion.speaker m)) messages)
    as [|m rest]; [reflexivity|].
  cbn [List.length Nat.eqb]. unfold aggregate. cbn [dominantEmotions].
  now rewrite map_map.
Qed.

Lemma extracted_finite (messages : list TextEmotion.TranscriptMessage) :
  Forall features_finite
         (map (fun m => TextEmotion.extractEmotions (TextEmotion.text m)) messages).
Proof.
  apply Forall_map, Forall_forall. intros m _.
  apply in_unit_features_finite, extractEmotions_in_unit.
Qed.

(** X17. Both analysers list at most five dominant emotions, and no
    emotion twice. *)
Theorem dominantEmotions_shape
        (featured : list Emotion.TranscriptMessage)
        (plain : list TextEmotion.TranscriptMessage) :
  (List.length (dominantEmotions (Emotion.analyzeEmotions featured)) <= 5
   /\ NoDup (map emotion (dominantEmotions (Emotion.analyzeEmotions featured))))
  /\ (List.length (dominantEmotions (TextEmotion.analyzeTextEmotions plain)) <= 5
      /\ NoDup (map emotion
                    (dominantEmotions (TextEmotion.analyzeTextEmotions plain)))).
Proof.
  rewrite analyzeEmotions_dominant, analyzeTextEmotions_dominant.
  split; apply dominant_of_shape.
Qed.

(** X18. An entry of the dominant emotions of [analyzeEmotions] counts the
    qualifying messages' features of that name (at least one), and its
    average intensity is their sum, taken in the order of the messages,
    divided by that count. *)
Theorem dominantEmotions_entries
        (messages : list Emotion.TranscriptMessage) (d : DominantEmotion) :
  In d (dominantEmotions (Emotion.analyzeEmotions messages)) ->
  let features := map Emotion.features_of (filter Emotion.qualifies messages) in
  1 <= occurrenceCount d
  /\ occurrenceCount d = List.length (intensities (emotion d) features)
  /\ averageIntensity d
     = (sum (intensities (emotion d) features) / of_nat (occurrenceCount d))%js.
Proof.
  rewrite analyzeEmotions_dominant. intros H. cbv zeta.
  destruct (@dominant_of_entry _ _ H) as (Hne & Hc & Ha).
  rewrite Ha, Hc. repeat split; auto.
  destruct (intensities _ _); [congruence | simpl; lia].
Qed.

Lemma dominantEmotions_entries_witness :
  let messages :=
    [Emotion.mkMessage interviewee "I led the team."
       (Some [("confidence", Fin 0.8); ("calmness", Fin 0.3)]);
     Emotion.mkMessage interviewer "And then?" None;
     Emotion.mkMessage interviewee "We shipped it."
       (Some [("confidence", Fin 0.4)])] in
  let d := mkDominant "confidence" ((Fin 0 + Fin 0.8 + Fin 0.4) / of_nat 2)%js 2 in
  In d (dominantEmotions (Emotion.analyzeEmotions messages))
  /\ occurrenceCount d
     = List.length
         (intensities (emotion d)
                      (map Emotion.features_of (filter Emotion.qualifies messages))).
Proof.
  cbv zeta.
  assert (H : In (mkDominant "confidence" ((Fin 0 + Fin 0.8 + Fin 0.4) / of_nat 2)%js 2)
                 (dominantEmotions
                    (Emotion.analyzeEmotions
                       [Emotion.mkMessage interviewee "I led the team."
                          (Some [("confidence", Fin 0.8); ("calmness", Fin 0.3)]);
                        Emotion.mkMessage interviewer "And then?" None;
                        Emotion.mkMessage interviewee "We shipped it."
                          (Some [("confidence", Fin 0.4)])])))
    by (vm_compute; left; reflexivity).
  split; [exact H|].
  exact (proj1 (proj2 (@dominantEmotions_entries _ _ H))).
Defined.

(** X19. The dominant emotions are listed from the highest average
    intensity down, and an emotion that is left out has no higher average
    than any that is listed: for [analyzeEmotions] when the features of the
    qualifying messages are finite numbers, for [analyzeTextEmotions] on
    every transcript. *)
Theorem dominantEmotions_ranking
        (featured : list Emotion.TranscriptMessage)
        (plain : list TextEmotion.TranscriptMessage) :
  Forall features_finite
         (map Emotion.features_of (filter Emotion.qualifies featured)) ->
  let ranked features listed :=
    descending listed
    /\ forall name,
         intensities name features <> [] -> ~ In name (map emotion listed) ->
         Forall (fun d =>
                   (mean_intensity name features <=? averageIntensity d)%js = true)
                listed in
  ranked (map Emotion.features_of (filter Emotion.qualifies featured))
         (dominantEmotions (Emotion.analyzeEmotions featured))
  /\ ranked (map (fun m => TextEmotion.extractEmotions (TextEmotion.text m))
                 (filter (fun m => is_interviewee (TextEmotion.speaker m)) plain))
            (dominantEmotions (TextEmotion.analyzeTextEmotions plain)).
Proof.
  intros H. cbv zeta.
  rewrite analyzeEmotions_dominant, analyzeTextEmotions_dominant.
  repeat split.
  - now apply dominant_of_descending.
  - intros name. now apply dominant_of_top.
  - apply dominant_of_descending, extracted_finite.
  - intros name. apply dominant_of_top, extracted_finite.
Qed.

Lemma dominantEmotions_ranking_witness :
  descending
    (dominantEmotions
       (Emotion.analyzeEmotions
          [Emotion.mkMessage interviewee "I led the team."
             (Some [("confidence", Fin 0.8); ("calmness", Fin 0.3)]);
           Emotion.mkMessage interviewee "We shipped it."
             (Some [("calmness", Fin 0.9); ("joy", Fin 0.2)])])).
Proof.
  apply (@dominantEmotions_ranking
           [Emotion.mkMessage interviewee "I led the team."
              (Some [("confidence", Fin 0.8); ("calmness", Fin 0.3)]);
            Emotion.mkMessage interviewee "We shipped it."
              (Some [("calmness", Fin 0.9); ("joy", Fin 0.2)])]
           []).
  repeat constructor.
Defined.

End DominantFacts.

(** ** The keyword extractor *)

Section ExtractShape.

Import JSString JSNum EmotionModel Aggregate EmotionSpec AggregateSpec ExtractSpec.
Import Regex TextEmotion.
Local Open Scope string_scope.

Lemma fold_left_inv {A B} (P : A -> Prop) (f : A -> B -> A) l :
  (forall a b, P a -> P (f a b)) -> forall a, P a -> P (fold_left f l a).
Proof.
  intros Hf. induction l as [|b l IH]; intros a Ha; simpl; auto.
Qed.

Local Abbreviation distinct := (fun e : EmotionFeatures => NoDup (map fst e)).

Lemma keyword_pass_distinct lowerText : distinct (keyword_pass lowerText).
Proof.
  unfold keyword_pass.
  apply (@fold_left_inv _ _ (fun a : EmotionFeatures => NoDup (map fst a)));
    [|constructor].
  intros e [emotion kw] He. cbv zeta. destruct (0 <? _)%nat; auto.
  now apply set_keys_NoDup.
Qed.

Lemma sentiment_pass_distinct sentiment e :
  distinct e -> distinct (sentiment_pass sentiment e).
Proof.
  intros He. unfold sentiment_pass. cbv zeta.
  destruct (_ >? _)%js; [|destruct (_ <? _)%js]; auto;
    repeat apply set_keys_NoDup; auto.
Qed.

Lemma question_pass_distinct text e :
  distinct e -> distinct (question_pass text e).
Proof.
  intros He. unfold question_pass. destruct (test _ _); auto.
  repeat apply set_keys_NoDup; auto.
Qed.

Lemma statement_pass_distinct text e :
  distinct e -> distinct (statement_pass text e).
Proof.
  intros He. unfold statement_pass.
  apply (@fold_left_inv _ _ (fun a : EmotionFeatures => NoDup (map fst a)));
    [|exact He].
  intros a p Ha. destruct (test _ _); auto. now apply set_keys_NoDup.
Qed.

Lemma filler_pass_distinct text e :
  distinct e -> distinct (filler_pass text e).
Proof.
  intros He. unfold filler_pass. cbv zeta. destruct (0 <? _)%nat; auto.
  repeat apply set_keys_NoDup; auto.
Qed.

Lemma clamp_pass_keys e : map fst (clamp_pass e) = map fst e.
Proof.
  unfold clamp_pass. rewrite map_map. apply map_ext. now intros [k v].
Qed.

Lemma baseline_pass_distinct e : distinct e -> distinct (baseline_pass e).
Proof.
  intros He. unfold baseline_pass. destruct e; simpl; auto.
  repeat constructor; simpl; intuition discriminate.
Qed.

Lemma baseline_pass_nonempty e : baseline_pass e <> [].
Proof. destruct e; discriminate. Qed.

Lemma extractEmotions_distinct text : distinct (extractEmotions text).
Proof.
  unfold extractEmotions. cbv zeta.
  apply baseline_pass_distinct. rewrite clamp_pass_keys.
  apply filler_pass_distinct, statement_pass_distinct, question_pass_distinct,
    sentiment_pass_distinct, keyword_pass_distinct.
Qed.

(** X20. The extractor never returns an empty feature map; the names it
    returns are distinct and every intensity lies in [[0, 1]]. *)
Theorem extractEmotions_shape (text : string) :
  extractEmotions text <> []
  /\ NoDup (map fst (extractEmotions text))
  /\ features_in_unit (extractEmotions text).
Proof.
  split; [|split].
  - apply baseline_pass_nonempty.
  - apply extractEmotions_distinct.
  - apply extractEmotions_in_unit.
Qed.

(** The sentiment. *)
Lemma inject_nat_add a b :
  (inject_Z (Z.of_nat (a + b)) == inject_Z (Z.of_nat a) + inject_Z (Z.of_nat b))%Q.
Proof. now rewrite Nat2Z.inj_add, inject_Z_plus. Qed.

Lemma max_count_exact t :
  0 < t -> exists y, max (of_nat t) one = Fin y /\ (y == inject_Z (Z.of_nat t))%Q.
Proof.
  intros Ht. unfold max, of_nat, one, le.
  destruct (Qle_bool (inject_Z (Z.of_nat t)) 1) eqn:E.
  - exists 1%Q. split; [reflexivity|].
    apply Qle_bool_iff in E.
    assert (H1 : (inject_Z 1 <= inject_Z (Z.of_nat t))%Q)
      by (rewrite <- Zle_Qle; lia).
    apply Qle_antisym; [exact H1 | exact E].
  - eexists. split; reflexivity.
Qed.

(** X21. The sentiment score lies in [[-1, 1]] and its magnitude in
    [[0, 1]]. *)
Theorem analyzeSentiment_bounds (text : string) :
  in_range (-1) 1 (score (analyzeSentiment text))
  /\ in_range 0 1 (magnitude (analyzeSentiment text)).
Proof.
  unfold analyzeSentiment. cbv zeta.
  set (p := count_included (toLowerCase text) positiveWords).
  set (n := count_included (toLowerCase text) negativeWords).
  set (u := count_included (toLowerCase text) uncertaintyWords).
  destruct (Nat.eqb_spec (p + n + u) 0) as [E|E].
  - cbn [score magnitude]. unfold zero, in_range. split; lra.
  - cbn [score magnitude].
    destruct (@max_count_exact (p + n + u)) as (y & -> & Hy); [lia|].
    assert (Ht : (0 < inject_Z (Z.of_nat (p + n + u)))%Q)
      by (apply inject_nat_pos; lia).
    pose proof (inject_nat_add (p + n) u) as H1.
    pose proof (inject_nat_add p n) as H2.
    pose proof (inject_nat_nonneg p) as Hp.
    pose proof (inject_nat_nonneg n) as Hn.
    pose proof (inject_nat_nonneg u) as Hu.
    assert (Hy0 : (0 < y)%Q) by lra.
    split.
    + unfold of_nat, sub, neg, mul, add, div. rewrite (Qis_zero_pos Hy0).
      unfold in_range. split.
      * apply Qle_shift_div_l; lra.
      * apply Qle_shift_div_r; lra.
    + unfold of_nat, div.
      assert (H10 : Qis_zero 10 = false) by reflexivity. rewrite H10.
      unfold min, one, le.
      assert (H0 : (0 <= inject_Z (Z.of_nat (p + n + u)) / 10)%Q)
        by (apply Qle_shift_div_l; lra).
      destruct (Qle_bool (inject_Z (Z.of_nat (p + n + u)) / 10) 1) eqn:E1;
        unfold in_range.
      * apply Qle_bool_iff in E1. split; [exact H0 | exact E1].
      * lra.
Qed.

End ExtractShape.

Section ExtractEffects.

Import JSString JSNum EmotionModel Aggregate EmotionSpec AggregateSpec ExtractSpec.
Import Regex TextEmotion.
Local Open Scope string_scope.

Lemma max_at_least a b lo :
  isFinite a = true -> (lo <= b)%Q ->
  exists c, max a (Fin b) = Fin c /\ (lo <= c)%Q.
Proof.
  intros Ha Hb. destruct (finite_Fin _ Ha) as (q & ->).
  unfold max, le. destruct (Qle_bool q b) eqn:E.
  - eauto.
  - exists q. split; auto.
    assert (b < q)%Q; [|lra].
    apply Qnot_le_lt. intros H. apply Qle_bool_iff in H. congruence.
Qed.

Lemma get_clamp_pass e k :
  JSMap.get (clamp_pass e) k
  = option_map (fun v => min (max v zero) one) (JSMap.get e k).
Proof.
  unfold clamp_pass. induction e as [|[k' v] e IH]; simpl; auto.
  destruct (String.eqb k k'); auto.
Qed.

Lemma clamp_at_least lo c :
  (lo <= c)%Q -> (0 <= lo)%Q -> (lo <= 1)%Q ->
  exists c', min (max (Fin c) zero) one = Fin c' /\ (lo <= c')%Q.
Proof.
  intros Hc H0 H1. unfold max, min, zero, one, le.
  destruct (Qle_bool c 0) eqn:E0.
  - apply Qle_bool_iff in E0. rewrite (@Qle_bool_true 0 1) by lra.
    exists 0%Q. split; auto. lra.
  - destruct (Qle_bool c 1); eauto.
Qed.

Lemma clamp_pass_at_least lo e k :
  (0 <= lo)%Q -> (lo <= 1)%Q ->
  at_least lo (JSMap.get e k) -> at_least lo (JSMap.get (clamp_pass e) k).
Proof.
  intros H0 H1. rewrite get_clamp_pass.
  destruct (JSMap.get e k) as [[c| | |]|]; simpl; try tauto.
  intros Hc. destruct (clamp_at_least Hc H0 H1) as (c' & E & Hc').
  unfold max, min, zero, one, le in *. rewrite E. exact Hc'.
Qed.

Lemma baseline_pass_at_least lo e k :
  at_least lo (JSMap.get e k) -> at_least lo (JSMap.get (baseline_pass e) k).
Proof. destruct e; simpl; tauto. Qed.

Lemma statement_pass_get text k : forall e,
  k <> "confidence" -> JSMap.get (statement_pass text e) k = JSMap.get e k.
Proof.
  intros e Hk. unfold statement_pass. revert e.
  induction confidentPatterns as [|p patterns IH]; intro e; simpl; auto.
  rewrite IH. destruct (test p text); auto.
  now rewrite get_set_other by congruence.
Qed.

Lemma filler_pass_get text k e :
  k <> "nervousness" -> k <> "confidence" ->
  JSMap.get (filler_pass text e) k = JSMap.get e k.
Proof.
  intros H1 H2. unfold filler_pass. cbv zeta. destruct (0 <? _)%nat; auto.
  now rewrite !get_set_other by congruence.
Qed.

Lemma min_filler_share k :
  0 < k ->
  exists b, min (of_nat k * Fin 0.2)%js (Fin 0.8) = Fin b /\ (0.2 <= b)%Q.
Proof.
  intros Hk. unfold of_nat, mul, min, le.
  assert (H1 : (inject_Z 1 <= inject_Z (Z.of_nat k))%Q)
    by (rewrite <- Zle_Qle; lia).
  assert (H1' : (1 <= inject_Z (Z.of_nat k))%Q) by exact H1.
  destruct (Qle_bool (inject_Z (Z.of_nat k) * 0.2) 0.8).
  - eexists. split; [reflexivity|]. lra.
  - eexists. split; [reflexivity|]. lra.
Qed.

Lemma filler_pass_nervousness text e :
  features_finite e -> 0 < match_count fillerWords text ->
  at_least 0.2 (JSMap.get (filler_pass text e) "nervousness").
Proof.
  intros He Hk. unfold filler_pass. cbv zeta.
  destruct (Nat.ltb_spec 0 (match_count fillerWords text)); [|lia].
  rewrite get_set_other by discriminate. rewrite get_set_same.
  destruct (min_filler_share Hk) as (b & -> & Hb).
  destruct (@max_at_least (or_default (JSMap.get e "nervousness") zero) b 0.2)
    as (c & -> & Hc); auto.
  now apply or_default_finite.
Qed.

Lemma question_pass_interest text e :
  features_finite e -> test questionWords text = true ->
  at_least 0.6 (JSMap.get (question_pass text e) "engagement")
  /\ at_least 0.5 (JSMap.get (question_pass text e) "interest").
Proof.
  intros He Ht. unfold question_pass. rewrite Ht. cbv zeta. split.
  - rewrite get_set_other by discriminate. rewrite get_set_same.
    destruct (@max_at_least (or_default (JSMap.get e "engagement") zero) 0.6 0.6)
      as (c & -> & Hc); auto; [|lra].
    now apply or_default_finite.
  - rewrite get_set_same.
    match goal with
    | |- at_least _ (Some (max ?a _)) =>
        destruct (@max_at_least a 0.5 0.5) as (c & -> & Hc); auto; [|lra]
    end.
    apply or_default_finite; [|reflexivity].
    apply set_finite; auto. apply max_finite; [|reflexivity].
    now apply or_default_finite.
Qed.

Lemma before_question_finite text :
  features_finite
    (sentiment_pass (analyzeSentiment text) (keyword_pass (toLowerCase text))).
Proof.
  apply sentiment_pass_finite;
    auto using analyzeSentiment_finite, keyword_pass_finite.
Qed.

(** X22. A text in which a filler word is found gets a ["nervousness"]
    feature of at least 0.2; a text in which a question word is found gets
    an ["engagement"] feature of at least 0.6 and an ["interest"] feature
    of at least 0.5. *)
Theorem extractEmotions_cues (text : string) :
  (0 < match_count fillerWords text ->
   at_least 0.2 (JSMap.get (extractEmotions text) "nervousness"))
  /\ (test questionWords text = true ->
      at_least 0.6 (JSMap.get (extractEmotions text) "engagement")
      /\ at_least 0.5 (JSMap.get (extractEmotions text) "interest")).
Proof.
  split.
  - intros Hk. unfold extractEmotions. cbv zeta.
    apply baseline_pass_at_least, clamp_pass_at_least; try lra.
    apply filler_pass_nervousness; auto.
    apply statement_pass_finite, question_pass_finite, before_question_finite.
  - intros Ht. unfold extractEmotions. cbv zeta.
    destruct (@question_pass_interest text _ (before_question_finite text) Ht)
      as [He Hi].
    split; apply baseline_pass_at_least, clamp_pass_at_least; try lra;
      rewrite filler_pass_get by discriminate;
      rewrite statement_pass_get by discriminate; assumption.
Qed.

Lemma extractEmotions_cues_witness :
  at_least 0.2
    (JSMap.get (extractEmotions "Well, how large is the team?") "nervousness")
  /\ at_least 0.6
       (JSMap.get (extractEmotions "Well, how large is the team?") "engagement").
Proof.
  split.
  - apply (proj1 (extractEmotions_cues "Well, how large is the team?")).
    vm_compute. lia.
  - apply (proj2 (extractEmotions_cues "Well, how large is the team?")).
    vm_compute. reflexivity.
Defined.

End ExtractEffects.

Section TextAndFeatures.

Import JSNum EmotionModel Aggregate EmotionSpec AggregateSpec.
Local Open Scope string_scope.

Lemma filter_map {A B} (f : B -> bool) (g : A -> B) l :
  filter f (map g l) = map g (filter (fun x => f (g x)) l).
Proof.
  induction l as [|x l IH]; simpl; auto.
  destruct (f (g x)); simpl; now rewrite IH.
Qed.

Lemma qualifies_with_extracted messages :
  filter Emotion.qualifies (map with_extracted messages)
  = map with_extracted
        (filter (fun m => is_interviewee (TextEmotion.speaker m)) messages).
Proof.
  rewrite filter_map. f_equal. apply filter_ext. intros m.
  unfold Emotion.qualifies, with_extracted. simpl. apply andb_true_r.
Qed.

Lemma gt_truthy v : (v >? Fin 0.6)%js = true -> truthy v = true.
Proof.
  destruct v as [q| | |]; simpl; auto. unfold Qis_zero.
  rewrite !negb_true_iff. intros H.
  destruct (Qeq_bool q 0) eqn:E; auto.
  apply Qeq_bool_iff in E.
  assert (Hle : (q <= 0.6)%Q) by lra.
  apply Qle_bool_iff in Hle. congruence.
Qed.

Lemma engaged_tests e :
  TextEmotion.engaged_test e = true -> Emotion.engaged_test e = true.
Proof.
  unfold TextEmotion.engaged_test, Emotion.engaged_test, nullish.
  destruct (JSMap.get e "interest"); [apply gt_truthy|].
  destruct (JSMap.get e "engagement"); [apply gt_truthy | auto].
Qed.

Lemma classify_tests e :
  classify TextEmotion.engaged_test e = classify Emotion.engaged_test e
  \/ (classify TextEmotion.engaged_test e = uncertain
      /\ classify Emotion.engaged_test e = engaged).
Proof.
  unfold classify. cbv zeta.
  destruct (_ && _); auto. destruct (_ || _); auto.
  destruct (_ >=? _)%js; auto.
  pose proof (engaged_tests e) as H.
  destruct (TextEmotion.engaged_test e), (Emotion.engaged_test e); auto.
  discriminate H. reflexivity.
Qed.

Lemma map_indexed_Forall2 {A B} (R : B -> B -> Prop) (f g : nat -> A -> B) l :
  (forall k x, R (f k x) (g k x)) ->
  forall k, Forall2 R (map_indexed f k l) (map_indexed g k l).
Proof.
  intros H. induction l as [|x l IH]; intro k; simpl; constructor; auto.
Qed.

(** X23. Running [analyzeEmotions] on a transcript whose messages carry the
    features that the keyword extractor gives their text yields the
    metrics, dominant emotions and trends of [analyzeTextEmotions], and the
    same breakdown up to the label: an entry differs only where the text
    analyser says ['uncertain'] and [analyzeEmotions] says ['engaged'].
    The insights and recommendations agree as soon as one message is the
    interviewee's. *)
Theorem analyzeTextEmotions_as_analyzeEmotions
        (messages : list TextEmotion.TranscriptMessage) :
  let byText := TextEmotion.analyzeTextEmotions messages in
  let byFeatures := Emotion.analyzeEmotions (map with_extracted messages) in
  overallConfidence byText = overallConfidence byFeatures
  /\ averageCalmness byText = averageCalmness byFeatures
  /\ emotionalStability byText = emotionalStability byFeatures
  /\ dominantEmotions byText = dominantEmotions byFeatures
  /\ emotionalTrends byText = emotionalTrends byFeatures
  /\ Forall2 (fun a b =>
                same_but_state a b
                /\ (emotionalState a = emotionalState b
                    \/ (emotionalState a = uncertain
                        /\ emotionalState b = engaged)))
             (detailedBreakdown byText) (detailedBreakdown byFeatures)
  /\ (filter (fun m => is_interviewee (TextEmotion.speaker m)) messages <> [] ->
      insights byText = insights byFeatures
      /\ recommendations byText = recommendations byFeatures).
Proof.
  cbv zeta. unfold Emotion.analyzeEmotions, TextEmotion.analyzeTextEmotions.
  rewrite qualifies_with_extracted, length_map, map_map.
  destruct (filter (fun m => is_interviewee (TextEmotion.speaker m)) messages)
    as [|m rest].
  - cbn [List.length Nat.eqb]. repeat split; try constructor; congruence.
  - cbn [List.length Nat.eqb].
    change (map (fun x => (Emotion.text (with_extracted x),
                           Emotion.features_of (with_extracted x))) (m :: rest))
      with (map (fun msg => (TextEmotion.text msg,
                             TextEmotion.extractEmotions (TextEmotion.text msg)))
                (m :: rest)).
    repeat split.
    apply map_indexed_Forall2. intros k x. split.
    + repeat split.
    + apply classify_tests.
Qed.

End TextAndFeatures.

(** ** The evaluation helpers *)

Section BatchFacts.

Import JSString Rouge RougeSpec Perplexity Markdown Evaluation EvaluationSpec.

Lemma batch_fold candidates : forall results r1 r2 rL ps,
  fold_left batch_step candidates (results, r1, r2, rL, ps)
  = (results ++ map result_of (evaluated candidates),
     r1 ++ map (fun s => f1 (rouge1 s)) (scored (map result_of (evaluated candidates))),
     r2 ++ map (fun s => f1 (rouge2 s)) (scored (map result_of (evaluated candidates))),
     rL ++ map (fun s => f1 (rougeL s)) (scored (map result_of (evaluated candidates))),
     ps ++ finite_perplexities (map result_of (evaluated candidates))).
Proof.
  induction candidates as [|c candidates IH]; intros results r1 r2 rL ps.
  - cbn. now rewrite !app_nil_r.
  - cbn [fold_left]. unfold batch_step at 2, evaluated. cbn [flat_map].
    fold (evaluated candidates).
    destruct (text_of c) as [text|]; [|apply IH].
    cbv zeta. cbn [app map].
    change (EvaluationResult.mk
              (EvaluationResult.rougeScores
                 (evaluateText text (Candidate.reference c)))
              (EvaluationResult.perplexity
                 (evaluateText text (Candidate.reference c)))
              (Candidate.section c))
      with (result_of (c, text)).
    unfold scored, finite_perplexities. cbn [flat_map].
    fold (scored (map result_of (evaluated candidates))).
    fold (finite_perplexities (map result_of (evaluated candidates))).
    destruct (EvaluationResult.rougeScores (result_of (c, text))) as [scores|];
      destruct (EvaluationResult.perplexity (result_of (c, text))) as [p|];
      try destruct (JSReal.isFinite (Perplexity.perplexity p));
      rewrite IH; cbn [app map]; rewrite <- ?app_assoc; reflexivity.
Qed.

Lemma skipped_text_of c : skipped c -> text_of c = None.
Proof.
  intros (name & Hname & Hsection). unfold named_section in Hname.
  unfold text_of. destruct (Candidate.section c) as [name'|]; [|discriminate].
  destruct (String.length name' =? 0)%nat; [discriminate|].
  injection Hname as ->.
  destruct Hsection as [-> | ->]; reflexivity.
Qed.

Lemma evaluated_on_text_of c text : evaluated_on c text -> text_of c = Some text.
Proof.
  unfold evaluated_on, named_section, text_of.
  intros [[Hname ->] | (name & Hname & Hsection & Htext)].
  - destruct (Candidate.section c) as [name'|]; [|reflexivity].
    destruct (String.length name' =? 0)%nat; [reflexivity | discriminate].
  - destruct (Candidate.section c) as [name'|]; [|discriminate].
    destruct (String.length name' =? 0)%nat; [discriminate|].
    injection Hname as ->. rewrite Hsection.
    destruct text; [now elim Htext | reflexivity].
Qed.

Lemma skipped_or_evaluated c : skipped c \/ exists text, evaluated_on c text.
Proof.
  unfold skipped, evaluated_on.
  destruct (named_section c) as [name|] eqn:Hname.
  - destruct (extractMarkdownSection (Candidate.text c) name) as [[|a text]|]
      eqn:Hsection.
    + left. exists name. auto.
    + right. exists (String a text). right. exists name.
      repeat split; auto. discriminate.
    + left. exists name. auto.
  - right. exists (Candidate.text c). left. auto.
Qed.

Lemma result_of_entry c text : result_of (c, text) = entry c text.
Proof.
  unfold result_of, entry, evaluateText, calculatePerplexity_default.
  cbn [fst snd EvaluationResult.rougeScores EvaluationResult.perplexity].
  destruct (Candidate.reference c) as [[[|a r]|rs]|]; reflexivity.
Qed.

Lemma batchEvaluate_closed candidates :
  batchEvaluate candidates = batch_of (map result_of (evaluated candidates)).
Proof.
  unfold batchEvaluate. rewrite batch_fold. reflexivity.
Qed.

(** X24. [batchEvaluate] is a pipeline over the candidates it does not
    skip.  A candidate that asks for a section which
    [extractMarkdownSection] does not find, or finds empty, is skipped: the
    batch is the same without it.  Any other candidate puts one entry in
    [results], in order: ROUGE against its references when it has any and
    the trigram perplexity, both of the section it asks for or of its whole
    text when it asks for none, with the section name as the candidate has
    it.  The ROUGE averages are taken over the results that have ROUGE
    scores (0 when there is none) and the perplexity average over the
    finite perplexities ([Infinity] when there is none). *)
Theorem batchEvaluate_pipeline (candidates : list Candidate.t) :
  batchEvaluate candidates = batch_of (map result_of (evaluated candidates))
  /\ (forall c, skipped c -> batchEvaluate (c :: candidates) = batchEvaluate candidates)
  /\ (forall c text,
        evaluated_on c text ->
        results (batchEvaluate (c :: candidates))
        = entry c text :: results (batchEvaluate candidates))
  /\ (forall c, skipped c \/ exists text, evaluated_on c text)
  /\ batchEvaluate [] = mkBatch [] JSNum.zero JSNum.zero JSNum.zero JSReal.PosInf 0
  /\ (let rouge := scored (results (batchEvaluate candidates)) in
      let average scores :=
        JSNum.div (JSNum.sum scores) (JSNum.of_nat (List.length rouge)) in
      match rouge with
      | [] =>
          averageRouge1 (batchEvaluate candidates) = JSNum.zero
          /\ averageRouge2 (batchEvaluate candidates) = JSNum.zero
          /\ averageRougeL (batchEvaluate candidates) = JSNum.zero
      | _ :: _ =>
          averageRouge1 (batchEvaluate candidates)
          = average (map (fun s => f1 (rouge1 s)) rouge)
          /\ averageRouge2 (batchEvaluate candidates)
             = average (map (fun s => f1 (rouge2 s)) rouge)
          /\ averageRougeL (batchEvaluate candidates)
             = average (map (fun s => f1 (rougeL s)) rouge)
      end)
  /\ (let finite := finite_perplexities (results (batchEvaluate candidates)) in
      averagePerplexity (batchEvaluate candidates)
      = match finite with
        | [] => JSReal.PosInf
        | _ :: _ =>
            JSReal.div (JSReal.sum finite) (JSReal.of_nat (List.length finite))
        end).
Proof.
  split; [apply batchEvaluate_closed|].
  split.
  { intros c Hc. rewrite !batchEvaluate_closed. unfold evaluated.
    cbn [flat_map]. now rewrite (@skipped_text_of c Hc). }
  split.
  { intros c text Hc. rewrite !batchEvaluate_closed. unfold evaluated.
    cbn [flat_map]. rewrite (@evaluated_on_text_of c text Hc).
    cbn [app map batch_of results]. now rewrite result_of_entry. }
  split; [exact skipped_or_evaluated|].
  split; [reflexivity|].
  rewrite batchEvaluate_closed. cbv zeta.
  cbn [batch_of results averageRouge1 averageRouge2 averageRougeL
       averagePerplexity].
  split.
  - destruct (scored (map result_of (evaluated candidates))) as [|s rouge];
      [repeat split; reflexivity|].
    unfold average_score. rewrite !length_map. cbn [List.length Nat.ltb Nat.leb].
    repeat split; reflexivity.
  - destruct (finite_perplexities (map result_of (evaluated candidates)));
      reflexivity.
Qed.

Lemma calculateROUGE_in_unit candidate refs :
  scores_in_unit (calculateROUGE candidate refs).
Proof.
  assert (Hz : scores_in_unit (mkROUGE zeroPRF zeroPRF zeroPRF))
    by (repeat split; apply in_unit_zero).
  unfold calculateROUGE. destruct (_ || _); auto.
  now apply rouge_fold_in_unit.
Qed.

Lemma scored_in_unit cts :
  Forall scores_in_unit (scored (map result_of cts)).
Proof.
  induction cts as [|[c text] cts IH]; [constructor|].
  unfold scored. cbn [map flat_map]. fold (scored (map result_of cts)).
  apply Forall_app. split; [|exact IH].
  unfold result_of, evaluateText. cbn [fst snd EvaluationResult.rougeScores].
  destruct (Candidate.reference c) as [r|]; [|constructor].
  destruct (truthy_references (Some r)); [|constructor].
  constructor; [apply calculateROUGE_in_unit | constructor].
Qed.

Lemma average_score_in_unit scores :
  Forall JSNum.in_unit scores -> JSNum.in_unit (average_score scores).
Proof.
  intros H. unfold average_score.
  destruct scores as [|x scores]; [apply in_unit_zero|].
  cbn [List.length Nat.ltb Nat.leb].
  now apply (@average_in_unit (x :: scores)).
Qed.

Lemma evaluated_length candidates :
  List.length (evaluated candidates) <= List.length candidates.
Proof.
  induction candidates as [|c candidates IH]; [constructor|].
  unfold evaluated. cbn [flat_map]. fold (evaluated candidates).
  destruct (text_of c); cbn [app List.length]; lia.
Qed.

Lemma evaluated_all candidates :
  Forall (fun c => Candidate.section c = None) candidates ->
  evaluated candidates = map (fun c => (c, Candidate.text c)) candidates.
Proof.
  induction 1 as [|c candidates Hc H IH]; [reflexivity|].
  unfold evaluated. cbn [flat_map map]. fold (evaluated candidates).
  unfold text_of. rewrite Hc, IH. reflexivity.
Qed.

(** X25. The three ROUGE averages of [batchEvaluate] lie in [[0, 1]]; it
    evaluates at most as many texts as it is given candidates, and all of
    them when no candidate names a section. *)
Theorem batchEvaluate_bounds (candidates : list Candidate.t) :
  JSNum.in_unit (averageRouge1 (batchEvaluate candidates))
  /\ JSNum.in_unit (averageRouge2 (batchEvaluate candidates))
  /\ JSNum.in_unit (averageRougeL (batchEvaluate candidates))
  /\ totalEvaluations (batchEvaluate candidates)
     = List.length (results (batchEvaluate candidates))
  /\ totalEvaluations (batchEvaluate candidates) <= List.length candidates
  /\ (Forall (fun c => Candidate.section c = None) candidates ->
      totalEvaluations (batchEvaluate candidates) = List.length candidates).
Proof.
  unfold batchEvaluate. rewrite batch_fold. cbn [app].
  cbn [averageRouge1 averageRouge2 averageRougeL totalEvaluations results].
  pose proof (scored_in_unit (evaluated candidates)) as H.
  repeat split.
  - apply average_score_in_unit, Forall_map. eapply Forall_impl; [|exact H].
    intros s Hs. apply Hs.
  - apply average_score_in_unit, Forall_map. eapply Forall_impl; [|exact H].
    intros s Hs. apply Hs.
  - apply average_score_in_unit, Forall_map. eapply Forall_impl; [|exact H].
    intros s Hs. apply Hs.
  - rewrite length_map. apply evaluated_length.
  - intros Hall. rewrite length_map, evaluated_all, length_map; auto.
Qed.

(** The perplexities. *)
Lemma perplexity_cases text :
  Perplexity.perplexity (calculatePerplexity_default text) = JSReal.PosInf
  \/ above_one (Perplexity.perplexity (calculatePerplexity_default text)).
Proof.
  unfold calculatePerplexity_default.
  assert (Hn : (1 <= 3)%Z) by lia.
  destruct (tokenize text) as [|t ts] eqn:E.
  - left. now rewrite (perplexity_no_token text Hn E).
  - right. assert (Ht : tokenize text <> []) by (rewrite E; discriminate).
    destruct (perplexity_with_tokens text Hn Ht) as (a & Ha & ->).
    cbn [Perplexity.perplexity above_one]. now apply exp_above_one.
Qed.

Lemma finite_perplexities_above cts :
  Forall above_one (finite_perplexities (map result_of cts)).
Proof.
  induction cts as [|[c text] cts IH]; [constructor|].
  unfold finite_perplexities. cbn [map flat_map].
  fold (finite_perplexities (map result_of cts)).
  apply Forall_app. split; [|exact IH].
  unfold result_of, evaluateText. cbn [fst snd EvaluationResult.perplexity].
  destruct (perplexity_cases text) as [E|H].
  - rewrite E. constructor.
  - destruct (Perplexity.perplexity (calculatePerplexity_default text));
      cbn [above_one] in H; try contradiction.
    repeat constructor. exact H.
Qed.

Lemma sum_above_from ps : forall q,
  Forall above_one ps ->
  exists s, fold_left JSReal.add ps (JSReal.Fin q) = JSReal.Fin s
            /\ (q + INR (List.length ps) <= s)%R
            /\ (ps <> [] -> (q + INR (List.length ps) < s)%R).
Proof.
  induction ps as [|p ps IH]; intros q H.
  - exists q. cbn. repeat split; [lra | congruence].
  - inversion H as [|? ? Hp Hps]; subst.
    destruct p as [r| | |]; cbn [above_one] in Hp; try contradiction.
    destruct (IH (q + r)%R Hps) as (s & E & Hle & _).
    exists s. split; [exact E|].
    cbn [List.length]. rewrite S_INR. split; [lra | intros _; lra].
Qed.

Lemma average_perplexity_cases ps :
  Forall above_one ps ->
  average_perplexity ps = JSReal.PosInf \/ above_one (average_perplexity ps).
Proof.
  intros H. unfold average_perplexity.
  destruct ps as [|p ps]; [now left | right].
  cbn [Nat.ltb Nat.leb List.length].
  destruct (@sum_above_from (p :: ps) 0 H) as (s & E & _ & Hlt).
  unfold JSReal.sum, JSReal.zero. rewrite E.
  rewrite div_count by (simpl; lia). cbn [above_one].
  assert (Hn : (0 < INR (List.length (p :: ps)))%R)
    by (apply lt_0_INR; simpl; lia).
  specialize (Hlt ltac:(discriminate)).
  apply Rmult_lt_reg_r with (INR (List.length (p :: ps))); [exact Hn|].
  unfold Rdiv. rewrite Rmult_assoc, Rinv_l by lra. lra.
Qed.

Lemma finite_perplexities_nil cts :
  finite_perplexities (map result_of cts) = []
  <-> Forall (fun ct => tokenize (snd ct) = []) cts.
Proof.
  assert (Hn : (1 <= 3)%Z) by lia.
  induction cts as [|[c text] cts IH]; [split; constructor|].
  unfold finite_perplexities. cbn [map flat_map].
  fold (finite_perplexities (map result_of cts)).
  unfold result_of, evaluateText. cbn [fst snd EvaluationResult.perplexity].
  unfold calculatePerplexity_default.
  destruct (tokenize text) as [|t ts] eqn:E.
  - rewrite (perplexity_no_token text Hn E). cbn [degenerate Perplexity.perplexity
      JSReal.isFinite app]. rewrite IH. split.
    + intros H. constructor; auto.
    + intros H. now inversion H.
  - assert (Ht : tokenize text <> []) by (rewrite E; discriminate).
    destruct (perplexity_with_tokens text Hn Ht) as (a & Ha & ->).
    cbn [Perplexity.perplexity JSReal.isFinite app]. split.
    + discriminate.
    + intros H. inversion H as [|? ? Hx _]. cbn [snd] in Hx. congruence.
Qed.

(** X26. The average perplexity of [batchEvaluate] is [+Infinity] exactly
    when no evaluated text has a token; otherwise it is a finite number
    greater than 1. *)
Theorem batchEvaluate_perplexity (candidates : list Candidate.t) :
  (averagePerplexity (batchEvaluate candidates) = JSReal.PosInf
   <-> Forall (fun ct => tokenize (snd ct) = []) (evaluated candidates))
  /\ (averagePerplexity (batchEvaluate candidates) = JSReal.PosInf
      \/ above_one (averagePerplexity (batchEvaluate candidates))).
Proof.
  unfold batchEvaluate. rewrite batch_fold. cbn [app averagePerplexity].
  pose proof (finite_perplexities_above (evaluated candidates)) as Habove.
  pose proof (average_perplexity_cases Habove) as Hcases.
  split; [|exact Hcases].
  rewrite <- finite_perplexities_nil. split.
  - intros E.
    destruct (finite_perplexities (map result_of (evaluated candidates)))
      as [|p ps] eqn:Eps; [reflexivity|].
    destruct Hcases as [H|H]; rewrite E in H; [|destruct H].
    unfold average_perplexity in E. cbn [List.length Nat.ltb Nat.leb] in E.
    destruct (@sum_above_from (p :: ps) 0 Habove) as (s & Es & _).
    unfold JSReal.sum, JSReal.zero in E. rewrite Es in E.
    rewrite div_count in E by (simpl; lia). discriminate.
  - intros ->. reflexivity.
Qed.

End BatchFacts.

Section RunningBest.

Import Evaluation EvaluationSpec.

Variable N : Type.
Variables beats reaches : N -> N -> bool.
Variable comparable : N -> Prop.

Hypothesis beats_comparable : forall a b, beats a b = true -> comparable a.
Hypothesis beats_trans :
  forall a b c, beats a b = true -> beats b c = true -> beats a c = true.
Hypothesis beats_strict : forall a b, beats a b = true -> reaches b a = false.
Hypothesis behind :
  forall a b c, beats a b = false -> comparable b -> beats c b = true ->
                reaches a c = false.

Variable score_of : Evaluated.t -> N.

Local Abbreviation keep :=
  (fun (best : Best.t N) (e : Evaluated.t) =>
     if beats (score_of e) (Best.score best)
     then Best.mk (Evaluated.name e) (score_of e) else best).

Lemma running_best es : forall start,
  comparable (Best.score start) ->
  first_best beats reaches score_of start es (fold_left keep es start).
Proof.
  induction es as [|e es IH]; intros start Hstart.
  - left. split; [reflexivity | constructor].
  - cbn [fold_left].
    destruct (beats (score_of e) (Best.score start)) eqn:G.
    + assert (Hc : comparable (score_of e)) by (eapply beats_comparable; eauto).
      destruct (IH (Best.mk (Evaluated.name e) (score_of e)) Hc)
        as [[E Hall]|(before & e' & after & Ees & E & Hb & Hbefore & Hafter)].
      * right. exists [], e, es. repeat split; auto.
      * right. exists (e :: before), e', after. cbn [Best.score] in Hb.
        repeat split; auto;
          first [ cbn [app]; now rewrite Ees
                | eapply beats_trans; eauto
                | constructor; auto ].
    + destruct (IH start Hstart)
        as [[E Hall]|(before & e' & after & Ees & E & Hb & Hbefore & Hafter)].
      * left. split; auto.
      * right. exists (e :: before), e', after.
        repeat split; auto;
          first [ cbn [app]; now rewrite Ees
                | constructor; auto; eapply behind; eauto ].
Qed.

End RunningBest.

Section CompareFacts.

Import Evaluation EvaluationSpec.

Lemma Qle_bool_false_inv x y : Qle_bool x y = false -> (y < x)%Q.
Proof.
  intros H. apply Qnot_le_lt. intros Hle. apply Qle_bool_iff in Hle. congruence.
Qed.

Ltac order_Q :=
  repeat match goal with
         | H : negb _ = true |- _ => apply negb_true_iff in H
         | H : negb _ = false |- _ => apply negb_false_iff in H
         | H : Qle_bool _ _ = true |- _ => apply Qle_bool_iff in H
         | H : Qle_bool _ _ = false |- _ => apply Qle_bool_false_inv in H
         | |- negb _ = true => apply negb_true_iff
         | |- negb _ = false => apply negb_false_iff
         | |- Qle_bool _ _ = true => apply Qle_bool_iff
         | |- Qle_bool _ _ = false => apply Qle_bool_false
         end;
  lra.

Lemma gt_comparable a b : JSNum.gt a b = true -> a <> JSNum.NaN.
Proof. destruct a, b; simpl; congruence. Qed.

Lemma gt_trans a b c :
  JSNum.gt a b = true -> JSNum.gt b c = true -> JSNum.gt a c = true.
Proof.
  unfold JSNum.gt, JSNum.lt.
  destruct a, b, c; intros H1 H2; try discriminate; try reflexivity. order_Q.
Qed.

Lemma gt_strict a b : JSNum.gt a b = true -> JSNum.ge b a = false.
Proof.
  unfold JSNum.gt, JSNum.ge, JSNum.lt, JSNum.le.
  destruct a, b; intros H; try discriminate; try reflexivity. order_Q.
Qed.

Lemma gt_behind a b c :
  JSNum.gt a b = false -> b <> JSNum.NaN -> JSNum.gt c b = true ->
  JSNum.ge a c = false.
Proof.
  unfold JSNum.gt, JSNum.ge, JSNum.lt, JSNum.le.
  destruct a, b, c; intros H1 H2 H3; try discriminate; try reflexivity;
    try congruence. order_Q.
Qed.

Ltac order_R :=
  repeat match goal with
         | H : context [Rlt_dec ?x ?y] |- _ => destruct (Rlt_dec x y)
         | H : context [Rle_dec ?x ?y] |- _ => destruct (Rle_dec x y)
         | |- context [Rlt_dec ?x ?y] => destruct (Rlt_dec x y)
         | |- context [Rle_dec ?x ?y] => destruct (Rle_dec x y)
         end;
  try discriminate; try reflexivity; try lra.

Lemma finite_lt_comparable a b : finite_lt a b = true -> a <> JSReal.NaN.
Proof. unfold finite_lt. destruct a; cbn [JSReal.isFinite andb]; congruence. Qed.

Lemma finite_lt_trans a b c :
  finite_lt a b = true -> finite_lt b c = true -> finite_lt a c = true.
Proof.
  unfold finite_lt, real_lt.
  destruct a, b, c; cbn [JSReal.isFinite andb]; intros H1 H2;
    try discriminate; try reflexivity. order_R.
Qed.

Lemma finite_lt_strict a b : finite_lt a b = true -> finite_le b a = false.
Proof.
  unfold finite_lt, finite_le, real_lt, real_le.
  destruct a, b; cbn [JSReal.isFinite andb]; intros H;
    try discriminate; try reflexivity. order_R.
Qed.

Lemma finite_lt_behind a b c :
  finite_lt a b = false -> b <> JSReal.NaN -> finite_lt c b = true ->
  finite_le a c = false.
Proof.
  unfold finite_lt, finite_le, real_lt, real_le.
  destruct a, b, c; cbn [JSReal.isFinite andb]; intros H1 H2 H3;
    try discriminate; try reflexivity; try congruence. order_R.
Qed.

Lemma compare_fold es : forall b1 b2 bL bP,
  fold_left compare_step es (b1, b2, bL, bP)
  = (fold_left (fun best e =>
                  higher (Evaluated.name e) (averageRouge1 (Evaluated.metrics e)) best)
               es b1,
     fold_left (fun best e =>
                  higher (Evaluated.name e) (averageRouge2 (Evaluated.metrics e)) best)
               es b2,
     fold_left (fun best e =>
                  higher (Evaluated.name e) (averageRougeL (Evaluated.metrics e)) best)
               es bL,
     fold_left (fun best e =>
                  lower (Evaluated.name e) (averagePerplexity (Evaluated.metrics e)) best)
               es bP).
Proof.
  induction es as [|e es IH]; intros b1 b2 bL bP; [reflexivity|].
  cbn [fold_left]. unfold compare_step at 2. cbv zeta. apply IH.
Qed.

Lemma higher_best (score_of : Evaluated.t -> JSNum.number) es :
  first_best JSNum.gt JSNum.ge score_of (Best.mk EmptyString JSNum.zero) es
             (fold_left (fun best e => higher (Evaluated.name e) (score_of e) best)
                        es (Best.mk EmptyString JSNum.zero)).
Proof.
  apply (@running_best _ JSNum.gt JSNum.ge (fun a => a <> JSNum.NaN)
           gt_comparable gt_trans gt_strict gt_behind score_of es).
  discriminate.
Qed.

Lemma lower_best (score_of : Evaluated.t -> JSReal.number) es :
  first_best finite_lt finite_le score_of (Best.mk EmptyString JSReal.PosInf) es
             (fold_left (fun best e => lower (Evaluated.name e) (score_of e) best)
                        es (Best.mk EmptyString JSReal.PosInf)).
Proof.
  apply (@running_best _ finite_lt finite_le (fun a => a <> JSReal.NaN)
           finite_lt_comparable finite_lt_trans finite_lt_strict finite_lt_behind
           score_of es).
  discriminate.
Qed.

(** X27. For each of the three ROUGE averages, [compareMetrics] names the
    first evaluation with the highest average: no earlier evaluation
    reaches it and no later one exceeds it; when no average is positive it
    names nobody, the best is the empty name with score 0.  For the
    perplexity it names the first evaluation with the lowest finite
    average, and nobody, with score [+Infinity], when no average is
    finite.  The comparison table has one row per evaluation, in order. *)
Theorem compareMetrics_best (evaluations : list Evaluated.t) :
  let start := Best.mk EmptyString JSNum.zero in
  first_best JSNum.gt JSNum.ge (fun e => averageRouge1 (Evaluated.metrics e))
             start evaluations (bestRouge1 (compareMetrics evaluations))
  /\ first_best JSNum.gt JSNum.ge (fun e => averageRouge2 (Evaluated.metrics e))
                start evaluations (bestRouge2 (compareMetrics evaluations))
  /\ first_best JSNum.gt JSNum.ge (fun e => averageRougeL (Evaluated.metrics e))
                start evaluations (bestRougeL (compareMetrics evaluations))
  /\ first_best finite_lt finite_le
                (fun e => averagePerplexity (Evaluated.metrics e))
                (Best.mk EmptyString JSReal.PosInf) evaluations
                (bestPerplexity (compareMetrics evaluations))
  /\ map Row.name (comparison (compareMetrics evaluations))
     = map Evaluated.name evaluations.
Proof.
  cbv zeta. unfold compareMetrics. rewrite compare_fold.
  cbn [bestRouge1 bestRouge2 bestRougeL bestPerplexity comparison].
  repeat split; try apply higher_best.
  - apply lower_best.
  - rewrite map_map. reflexivity.
Qed.

End CompareFacts.

(** ** [extractMarkdownSection] *)

Section TrimFacts.

Import JSString.
Local Open Scope string_scope.

Lemma rev_onto_app s : forall u acc,
  string_rev_onto (s ++ u) acc = string_rev_onto u (string_rev_onto s acc).
Proof. induction s as [|c s IH]; intros u acc; simpl; auto. Qed.

Lemma rev_onto_rev s : forall a b,
  string_rev_onto (string_rev_onto s a) b = string_rev_onto a (s ++ b).
Proof.
  induction s as [|c s IH]; intros a b; simpl; auto.
Qed.

Lemma string_rev_involutive s : string_rev (string_rev s) = s.
Proof.
  unfold string_rev. rewrite rev_onto_rev. simpl. apply append_empty_r.
Qed.

Lemma rev_onto_acc s : forall acc,
  string_rev_onto s acc = string_rev s ++ acc.
Proof.
  unfold string_rev. induction s as [|c s IH]; intro acc; simpl; auto.
  rewrite IH, (IH (String c "")), append_assoc. reflexivity.
Qed.

Lemma trimStart_idempotent s : trimStart (trimStart s) = trimStart s.
Proof.
  induction s as [|c s IH]; simpl; auto.
  destruct (is_space c) eqn:E; auto. simpl. now rewrite E.
Qed.

Lemma trimStart_head s :
  trimStart s = "" \/ exists c t, trimStart s = String c t /\ is_space c = false.
Proof.
  induction s as [|c s IH]; simpl; auto.
  destruct (is_space c) eqn:E; eauto.
Qed.

Lemma trimStart_app_solid u c v :
  is_space c = false -> trimStart (u ++ String c v) = trimStart u ++ String c v.
Proof.
  intros Hc. induction u as [|a u IH]; simpl.
  - now rewrite Hc.
  - destruct (is_space a); auto.
Qed.

Lemma trimEnd_twice t : trimEnd (trimEnd t) = trimEnd t.
Proof.
  unfold trimEnd. now rewrite string_rev_involutive, trimStart_idempotent.
Qed.

Lemma trimEnd_head c t :
  is_space c = false -> exists w, trimEnd (String c t) = String c w.
Proof.
  intros Hc. unfold trimEnd.
  assert (E : string_rev (String c t) = string_rev t ++ String c "")
    by (unfold string_rev at 1; simpl; apply rev_onto_acc).
  rewrite E, trimStart_app_solid by auto.
  unfold string_rev at 1. rewrite rev_onto_app. simpl.
  eexists. rewrite rev_onto_acc. reflexivity.
Qed.

Lemma trim_idempotent s : trim (trim s) = trim s.
Proof.
  unfold trim.
  destruct (trimStart_head s) as [E|(c & t & E & Hc)]; rewrite E.
  - reflexivity.
  - destruct (@trimEnd_head c t Hc) as (w & Ew).
    assert (Es : trimStart (trimEnd (String c t)) = trimEnd (String c t))
      by (rewrite Ew; simpl; now rewrite Hc).
    rewrite Es. apply trimEnd_twice.
Qed.

Lemma trimStart_blank_app s c :
  is_space c = true ->
  trimStart (s ++ String c "")
  = if all_chars is_space s then "" else trimStart s ++ String c "".
Proof.
  intros Hc. induction s as [|a s IH]; simpl.
  - now rewrite Hc.
  - destruct (is_space a); simpl; auto.
Qed.

Lemma trimStart_all_space s : all_chars is_space s = true -> trimStart s = "".
Proof.
  induction s as [|a s IH]; simpl; auto.
  destruct (is_space a); simpl; auto. discriminate.
Qed.

(** White space at the end of a string is lost in [trim]. *)
Lemma trim_app_space s c : is_space c = true -> trim (s ++ String c "") = trim s.
Proof.
  intros Hc. unfold trim. rewrite trimStart_blank_app by auto.
  destruct (all_chars is_space s) eqn:E.
  - now rewrite trimStart_all_space.
  - unfold trimEnd. f_equal.
    unfold string_rev at 1. rewrite rev_onto_app. simpl. now rewrite Hc.
Qed.

End TrimFacts.

Section MarkdownFacts.

Import JSString Markdown MarkdownSpec.
Local Open Scope string_scope.

Lemma drop_app a b : drop (String.length a) (a ++ b) = b.
Proof. induction a as [|c a IH]; simpl; auto. Qed.

Lemma take_app a b : String.substring 0 (String.length a) (a ++ b) = a.
Proof.
  induction a as [|c a IH]; simpl.
  - now destruct b.
  - now rewrite IH.
Qed.

Lemma matched_text a rest :
  String.substring 0 (String.length (a ++ rest) - String.length rest) (a ++ rest) = a.
Proof.
  rewrite length_append. replace (String.length a + String.length rest
                               - String.length rest) with (String.length a) by lia.
  apply take_app.
Qed.

Lemma take_drop k : forall s, s = String.substring 0 k s ++ drop k s.
Proof.
  induction k as [|k IH]; intros [|c s]; simpl; auto.
  now rewrite <- IH.
Qed.

Lemma prefix_app m rest : String.prefix m (m ++ rest) = true.
Proof.
  induction m as [|c m IH]; simpl.
  - now destruct rest.
  - destruct (ascii_dec c c); [exact IH | congruence].
Qed.

Lemma indexOf_here m rest : indexOf (m ++ rest) m = Some 0.
Proof.
  destruct (m ++ rest) eqn:E; cbn [indexOf]; rewrite <- E; now rewrite prefix_app.
Qed.

Lemma prefix_double m s :
  starts_double m = true -> String.prefix m s = true -> starts_double s = true.
Proof.
  destruct m as [|a [|b m]]; try discriminate.
  destruct s as [|a' [|b' s]]; simpl; try discriminate.
  - destruct (ascii_dec a a'); discriminate.
  - destruct (ascii_dec a a') as [<-|]; [|discriminate].
    destruct (ascii_dec b b') as [<-|]; [|discriminate]. auto.
Qed.

Lemma skip_hashes_double n s :
  2 <= n -> starts_double s = false -> skip_hashes n s = None.
Proof.
  intros Hn. destruct n as [|[|n]]; try lia.
  destruct s as [|a [|b s]]; simpl; auto.
  - now destruct (code a =? 35)%N.
  - unfold is_hash. destruct (code a =? 35)%N; auto.
    destruct (code b =? 35)%N; auto. discriminate.
Qed.

Lemma header_at_double header s :
  starts_double s = false -> header_at header s = None.
Proof.
  intros H. unfold header_at. now rewrite !skip_hashes_double by (auto; lia).
Qed.

Lemma section_at_double s : starts_double s = false -> section_at s = None.
Proof.
  intros H. unfold section_at. now rewrite !skip_hashes_double by (auto; lia).
Qed.

Lemma starts_double_head a s : is_hash a = false -> starts_double (String a s) = false.
Proof. intros H. destruct s; simpl; auto. now rewrite H. Qed.

(** Text without two hashes in a row, ending a line. *)
Lemma quiet_suffix a p s :
  has_double_hash (String a p ++ LF) = false ->
  starts_double (String a p ++ LF ++ s) = false
  /\ has_double_hash (p ++ LF) = false.
Proof.
  cbn [append has_double_hash]. intros H. apply orb_false_elim in H as [H1 H2].
  split; [|exact H2].
  destruct p as [|b p]; [|exact H1].
  cbn. now rewrite andb_false_r.
Qed.

Section Anchored.

Variable pattern_at : string -> option string.
Hypothesis needs_double : forall s, starts_double s = false -> pattern_at s = None.

Lemma first_match_none s : forall line_start,
  has_double_hash s = false -> first_match pattern_at line_start s = None.
Proof.
  induction s as [|c s IH]; intros line_start H.
  - cbn. rewrite needs_double by reflexivity. now destruct line_start.
  - cbn [has_double_hash] in H. apply orb_false_elim in H as [H1 H2].
    cbn [first_match]. rewrite (needs_double _ H1).
    destruct line_start; now apply IH.
Qed.

Lemma first_match_skip p s : forall line_start,
  has_double_hash (p ++ LF) = false ->
  first_match pattern_at line_start (p ++ LF ++ s)
  = first_match pattern_at true s.
Proof.
  induction p as [|a p IH]; intros line_start H.
  - cbn [append LF first_match].
    rewrite needs_double by (now apply starts_double_head).
    now destruct line_start.
  - destruct (@quiet_suffix a p s H) as [H1 H2].
    change (String a p ++ LF ++ s) with (String a (p ++ LF ++ s)) in *.
    cbn [first_match]. rewrite (needs_double _ H1).
    destruct line_start; now apply IH.
Qed.

Lemma first_match_lines pre s :
  lines pre -> has_double_hash pre = false ->
  first_match pattern_at true (pre ++ s) = first_match pattern_at true s.
Proof.
  intros [->|(p & ->)] H; [reflexivity|].
  rewrite append_assoc. now apply first_match_skip.
Qed.

Lemma first_match_here m rest :
  pattern_at (m ++ rest) = Some rest ->
  first_match pattern_at true (m ++ rest) = Some m.
Proof.
  intros H. destruct (m ++ rest) eqn:E; cbn [first_match]; rewrite H;
    rewrite <- E; now rewrite matched_text.
Qed.

End Anchored.

Lemma indexOf_skip m rest p :
  starts_double m = true -> has_double_hash (p ++ LF) = false ->
  indexOf (p ++ LF ++ m ++ rest) m = Some (String.length (p ++ LF)).
Proof.
  intros Hm. induction p as [|a p IH]; intros H.
  - cbn [append LF indexOf String.length].
    destruct (String.prefix m (String (ascii_of_N 10) (m ++ rest))) eqn:E.
    + apply (prefix_double _ _ Hm) in E. destruct m as [|x m]; discriminate.
    + now rewrite indexOf_here.
  - destruct (@quiet_suffix a p (m ++ rest) H) as [H1 H2].
    change (String a p ++ LF ++ m ++ rest) with (String a (p ++ LF ++ m ++ rest)) in *.
    cbn [indexOf].
    destruct (String.prefix m (String a (p ++ LF ++ m ++ rest))) eqn:E.
    + apply (prefix_double _ _ Hm) in E. congruence.
    + rewrite (IH H2). reflexivity.
Qed.

Lemma indexOf_lines pre m rest :
  lines pre -> has_double_hash pre = false -> starts_double m = true ->
  indexOf (pre ++ m ++ rest) m = Some (String.length pre).
Proof.
  intros [->|(p & ->)] H Hm.
  - cbn [append String.length]. apply indexOf_here.
  - rewrite append_assoc. now apply indexOf_skip.
Qed.

Lemma indexOf_LF m rest :
  no_LF m = true -> indexOf (m ++ LF ++ rest) LF = Some (String.length m).
Proof.
  unfold no_LF. induction m as [|c m IH]; intros H.
  - apply (indexOf_here LF rest).
  - cbn [all_chars] in H. apply andb_prop in H as [Hc Hm].
    cbn [append indexOf String.prefix LF].
    destruct (ascii_dec (ascii_of_N 10) c) as [<-|_]; [discriminate|].
    change (m ++ String (ascii_of_N 10) rest) with (m ++ LF ++ rest).
    change (String (ascii_of_N 10) "") with LF.
    rewrite (IH Hm). reflexivity.
Qed.

Lemma indexOf_no_LF s : no_LF s = true -> indexOf s LF = None.
Proof.
  unfold no_LF. induction s as [|c s IH]; intros H; [reflexivity|].
  cbn [all_chars] in H. apply andb_prop in H as [Hc Hs].
  cbn [indexOf String.prefix LF].
  destruct (ascii_dec (ascii_of_N 10) c) as [<-|_]; [discriminate|].
  fold LF. now rewrite (IH Hs).
Qed.

Lemma drop_no_LF k : forall s, no_LF s = true -> no_LF (drop k s) = true.
Proof.
  unfold no_LF. induction k as [|k IH]; intros [|c s] H; simpl; auto.
  cbn [all_chars] in H. apply andb_prop in H as [_ Hs]. now apply IH.
Qed.

Lemma no_LF_app a b : no_LF (a ++ b) = no_LF a && no_LF b.
Proof.
  unfold no_LF. induction a as [|c a IH]; simpl; auto.
  now rewrite IH, andb_assoc.
Qed.

Lemma canonical_refl c : Ascii.eqb (canonical c) (canonical c) = true.
Proof. apply Ascii.eqb_refl. Qed.

Lemma lit_match_self header rest : lit_match header (header ++ rest) = Some rest.
Proof.
  induction header as [|c header IH]; simpl; auto.
  now rewrite canonical_refl.
Qed.

Lemma line_rest_tail tail rest :
  no_LF tail = true -> line_rest (tail ++ LF ++ rest) = LF ++ rest.
Proof.
  unfold no_LF. induction tail as [|c tail IH]; intros H.
  - reflexivity.
  - cbn [all_chars] in H. apply andb_prop in H as [Hc Ht].
    cbn [append line_rest]. apply negb_true_iff in Hc. rewrite Hc. now apply IH.
Qed.

(** The header pattern on the line of the heading. *)
Lemma header_at_heading hashes c header tail rest :
  heading hashes -> is_space c = false -> no_LF tail = true ->
  header_at (String c header)
            (hashes ++ " " ++ String c header ++ tail ++ LF ++ rest)
  = Some (LF ++ rest).
Proof.
  intros Hh Hc Ht. unfold header_at. cbv beta zeta.
  assert (Hrun : spaces_then_header (String c header)
                   (space_run (" " ++ String c header ++ tail ++ LF ++ rest))
                   (" " ++ String c header ++ tail ++ LF ++ rest)
                 = Some (tail ++ LF ++ rest)).
  { cbn [append space_run]. rewrite Hc.
    change (is_space " ") with true. cbn [spaces_then_header drop].
    change (String c (header ++ tail ++ LF ++ rest))
      with (String c header ++ tail ++ LF ++ rest).
    now rewrite lit_match_self. }
  destruct Hh as [->| ->].
  - change (skip_hashes 3 ("##" ++ " " ++ String c header ++ tail ++ LF ++ rest))
      with (@None string).
    change (skip_hashes 2 ("##" ++ " " ++ String c header ++ tail ++ LF ++ rest))
      with (Some (" " ++ String c header ++ tail ++ LF ++ rest)).
    cbv beta iota. rewrite Hrun. now rewrite line_rest_tail.
  - change (skip_hashes 3 ("###" ++ " " ++ String c header ++ tail ++ LF ++ rest))
      with (Some (" " ++ String c header ++ tail ++ LF ++ rest)).
    cbv beta iota. rewrite Hrun. now rewrite line_rest_tail.
Qed.

(** The pattern of the next section on the line of a heading. *)
Lemma section_at_heading hashes more :
  heading hashes ->
  exists m rest,
    hashes ++ " " ++ more = m ++ rest
    /\ starts_double m = true
    /\ section_at (m ++ rest) = Some rest.
Proof.
  intros Hh.
  exists (hashes ++ String.substring 0 (space_run (" " ++ more)) (" " ++ more)),
         (drop (space_run (" " ++ more)) (" " ++ more)).
  assert (E : hashes ++ " " ++ more
              = (hashes ++ String.substring 0 (space_run (" " ++ more)) (" " ++ more))
                  ++ drop (space_run (" " ++ more)) (" " ++ more))
    by (rewrite append_assoc; f_equal; apply take_drop).
  split; [exact E|]. split.
  - destruct Hh as [->| ->]; reflexivity.
  - rewrite <- E. unfold section_at. cbv beta zeta.
    assert (Hpos : (0 <? space_run (" " ++ more))%nat = true) by reflexivity.
    destruct Hh as [->| ->].
    + change (skip_hashes 3 ("##" ++ " " ++ more)) with (@None string).
      change (skip_hashes 2 ("##" ++ " " ++ more)) with (Some (" " ++ more)).
      cbv beta iota. now rewrite Hpos.
    + change (skip_hashes 3 ("###" ++ " " ++ more)) with (Some (" " ++ more)).
      cbv beta iota. now rewrite Hpos.
Qed.

Lemma double_hash_line body :
  has_double_hash body = false -> has_double_hash (body ++ LF) = false.
Proof.
  induction body as [|a body IH]; intros H; [reflexivity|].
  cbn [has_double_hash] in H. apply orb_false_elim in H as [H1 H2].
  cbn [append has_double_hash]. rewrite (IH H2), orb_false_r.
  destruct body as [|b body]; [|exact H1].
  cbn. now rewrite andb_false_r.
Qed.

Lemma heading_double hashes rest :
  heading hashes -> starts_double (hashes ++ rest) = true.
Proof. intros [->| ->]; reflexivity. Qed.

(** What is read after the line of the heading. *)
Lemma body_of_section body after :
  has_double_hash body = false -> next_section after ->
  match first_match section_at true (body ++ after) with
  | Some nextSectionMatch =>
      match indexOf (body ++ after) nextSectionMatch with
      | Some nextSectionIndex =>
          Some (trim (String.substring 0 nextSectionIndex (body ++ after)))
      | None => Some (trim "")
      end
  | None => Some (trim (body ++ after))
  end
  = Some (trim body).
Proof.
  intros Hb [->|(hashes & more & Hh & ->)].
  - rewrite append_empty_r.
    now rewrite (@first_match_none section_at section_at_double body true Hb).
  - destruct (@section_at_heading hashes more Hh) as (m & rest & E & Hm & Hat).
    pose proof (@double_hash_line body Hb) as Hline.
    rewrite E.
    rewrite (@first_match_skip section_at section_at_double body (m ++ rest) true
               Hline).
    rewrite (@first_match_here section_at m rest Hat).
    rewrite (@indexOf_skip m rest body Hm Hline).
    rewrite <- (append_assoc body LF (m ++ rest)).
    rewrite take_app. f_equal. apply trim_app_space. reflexivity.
Qed.

Lemma extractMarkdownSection_heading pre hashes c header tail body after :
  lines pre -> has_double_hash pre = false ->
  heading hashes ->
  is_space c = false -> no_LF (String c header) = true -> no_LF tail = true ->
  has_double_hash body = false -> next_section after ->
  extractMarkdownSection
    (pre ++ hashes ++ " " ++ String c header ++ tail ++ LF ++ body ++ after)
    (String c header)
  = Some (trim body).
Proof.
  intros Hpre Hquiet Hh Hc Hheader Htail Hbody Hafter.
  set (m := hashes ++ " " ++ String c header ++ tail).
  assert (Etext : pre ++ hashes ++ " " ++ String c header ++ tail ++ LF ++ body ++ after
                  = pre ++ m ++ LF ++ body ++ after).
  { unfold m. now rewrite !append_assoc. }
  assert (Hat : header_at (String c header) (m ++ LF ++ body ++ after)
                = Some (LF ++ body ++ after)).
  { unfold m. rewrite !append_assoc. now apply header_at_heading. }
  assert (Hm : starts_double m = true) by now apply heading_double.
  assert (HmLF : no_LF m = true).
  { unfold m. rewrite !no_LF_app, Hheader, Htail.
    destruct Hh as [->| ->]; reflexivity. }
  rewrite Etext. unfold extractMarkdownSection.
  rewrite (@first_match_lines (header_at (String c header))
             (header_at_double (String c header)) pre
             (m ++ LF ++ body ++ after) Hpre Hquiet).
  rewrite (@first_match_here (header_at (String c header)) m
             (LF ++ body ++ after) Hat).
  rewrite (@indexOf_lines pre m (LF ++ body ++ after) Hpre Hquiet Hm).
  unfold indexOf_from.
  assert (Hmin : Nat.min (String.length pre)
                         (String.length (pre ++ m ++ LF ++ body ++ after))
                 = String.length pre) by (rewrite length_append; lia).
  rewrite Hmin, drop_app, (@indexOf_LF m (body ++ after) HmLF).
  cbn [option_map]. cbv zeta.
  assert (Edrop : drop (String.length pre + String.length m + 1)
                       (pre ++ m ++ LF ++ body ++ after)
                  = body ++ after).
  { rewrite <- (append_assoc m LF), <- (append_assoc pre).
    replace (String.length pre + String.length m + 1)
      with (String.length (pre ++ m ++ LF))
      by (rewrite !length_append; change (String.length LF) with 1; lia).
    apply drop_app. }
  rewrite Edrop. now apply body_of_section.
Qed.

(** X28. In a text where the heading of a section (two or three hashes, a
    space, the header, anything up to the end of the line) follows lines
    without two hashes in a row, and the body has no two hashes in a row
    and is followed by the end of the text or by the next heading,
    [extractMarkdownSection] returns the body without the white space
    around it; [evaluateSection] evaluates that body, unless it is
    empty. *)
Theorem extractMarkdownSection_body
        (pre hashes : string) (c : ascii) (header tail body after : string)
        (reference : option Rouge.references) :
  lines pre -> has_double_hash pre = false ->
  heading hashes ->
  is_space c = false -> no_LF (String c header) = true -> no_LF tail = true ->
  has_double_hash body = false -> next_section after ->
  let text :=
    pre ++ hashes ++ " " ++ String c header ++ tail ++ LF ++ body ++ after in
  extractMarkdownSection text (String c header) = Some (trim body)
  /\ Evaluation.evaluateSection text (String c header) reference
     = if (String.length (trim body) =? 0)%nat then None
       else Some (Evaluation.evaluateText (trim body) reference).
Proof.
  intros Hpre Hquiet Hh Hc Hheader Htail Hbody Hafter. cbv zeta.
  pose proof (@extractMarkdownSection_heading pre hashes c header tail body after
                Hpre Hquiet Hh Hc Hheader Htail Hbody Hafter) as E.
  split; [exact E|].
  unfold Evaluation.evaluateSection. now rewrite E.
Qed.

Lemma extractMarkdownSection_body_witness :
  extractMarkdownSection
    ("# Review" ++ LF ++ "## Feedback (Rating: 8/10)" ++ LF
     ++ "Good answer. " ++ LF ++ "### Correct Answer" ++ LF ++ "Use a map.")
    "Feedback"
  = Some "Good answer.".
Proof.
  apply (proj1 (@extractMarkdownSection_body
                  ("# Review" ++ LF) "##" "F" "eedback" " (Rating: 8/10)"
                  ("Good answer. ")
                  (LF ++ "###" ++ " " ++ "Correct Answer" ++ LF ++ "Use a map.")
                  None
                  (or_intror (ex_intro _ "# Review" eq_refl))
                  eq_refl (or_introl eq_refl) eq_refl eq_refl eq_refl eq_refl
                  (or_intror
                     (ex_intro _ "###"
                        (ex_intro _ ("Correct Answer" ++ LF ++ "Use a map.")
                           (conj (or_intror eq_refl) eq_refl)))))).
Defined.

(** X29. Whatever [extractMarkdownSection] returns has no white space at
    its start or at its end. *)
Theorem extractMarkdownSection_trimmed (text sectionHeader : string) :
  match extractMarkdownSection text sectionHeader with
  | Some section => trim section = section
  | None => True
  end.
Proof.
  unfold extractMarkdownSection.
  destruct (first_match _ _ _); [|exact I].
  destruct (indexOf text _); [|exact I].
  destruct (indexOf_from _ _ _); [|exact I].
  cbv zeta. destruct (first_match _ _ _).
  - destruct (indexOf _ _); apply trim_idempotent.
  - apply trim_idempotent.
Qed.

(** X30. A text without two hashes in a row has no section, and neither
    has a text without a line feed: a heading on the last line, with
    nothing after it, is not found. *)
Theorem extractMarkdownSection_none (text sectionHeader : string) :
  has_double_hash text = false \/ no_LF text = true ->
  extractMarkdownSection text sectionHeader = None.
Proof.
  intros [H|H]; unfold extractMarkdownSection.
  - now rewrite (@first_match_none (header_at sectionHeader)
                   (header_at_double sectionHeader) text true H).
  - destruct (first_match _ _ _); [|reflexivity].
    destruct (indexOf text _) as [headerIndex|]; [|reflexivity].
    unfold indexOf_from. rewrite indexOf_no_LF; [reflexivity|].
    now apply drop_no_LF.
Qed.

Lemma extractMarkdownSection_none_witness :
  extractMarkdownSection "## Feedback" "Feedback" = None.
Proof.
  apply extractMarkdownSection_none. right. reflexivity.
Defined.

End MarkdownFacts.
